(** * hft_core: a shallow embedding of the pools, the thread pool, the event
      bus and the configuration store, with the properties the specification
      states about them.

    Layout: the first half holds the definitions, one [Module] per class of
    the library ([MemoryPool.hpp], [ThreadPool.hpp], [EventBus.hpp],
    [Config.hpp], [Logger.hpp]) and, where a property depends on how threads
    interleave or on what the environment answers, a module that follows
    the threads or the failures step by step; the second half holds the
    lemmas and theorems. *)

From Stdlib Require Import ZArith NArith Ascii String List Lia DecimalString DecimalPos.
From stdpp Require Import base option list gmap strings.

Local Open Scope nat_scope.

(* ===================================================================== *)
(** ** MemoryPool.hpp: [MemoryPool<T, BlockSize>]                         *)
(* ===================================================================== *)

Module MemoryPool.

(** Addresses are natural numbers; [nullptr] is address 0 (the code tests
    [if (ptr)] and [if (!block)]). *)
Definition ptr := N.
Definition nullptr : ptr := 0%N.

(** What a member function does when it stops: it returns a value, it
    throws, or it runs into undefined behaviour ([back()] of an empty
    vector). *)
Inductive exn :=
| bad_alloc
| user_exception (code : nat).

Inductive outcome (A : Type) :=
| Returns (a : A)
| Throws (e : exn)
| Undefined.
Arguments Returns {A} a.
Arguments Throws {A} e.
Arguments Undefined {A}.

(** Calls of [T]'s constructor and destructor made by the pool, in order. *)
Inductive call :=
| PlacementNew (p : ptr)
| Destructor (p : ptr).

(** The two data members. *)
Record pool := mkPool {
  blocks_ : list ptr;
  free_list_ : list ptr
}.

Section Pool.

(** The template parameter [BlockSize] and [sizeof(T)]. *)
Variables (BlockSize sizeofT : nat).

(** [static constexpr size_t objects_per_block_ = BlockSize / sizeof(T)] *)
Definition objects_per_block_ : nat := BlockSize / sizeofT.

(** [typed_block + i] *)
Definition slot (typed_block : ptr) (i : nat) : ptr :=
  (typed_block + N.of_nat i * N.of_nat sizeofT)%N.

(** The loop [for (i = 0; i < objects_per_block_; ++i) push_back(typed_block + i)]:
    [n] iterations are left and the counter is [i]. *)
Fixpoint push_slots (typed_block : ptr) (i n : nat) (fl : list ptr) : list ptr :=
  match n with
  | O => fl
  | S n' => push_slots typed_block (S i) n' (fl ++ [slot typed_block i])
  end.

(** [allocate_block()]. The answer of [std::aligned_alloc] is the argument
    [block] (0 when the system is out of memory). *)
Definition allocate_block (block : ptr) (s : pool) : outcome unit * pool :=
  if (block =? nullptr)%N then (Throws bad_alloc, s)
  else (Returns tt,
        {| blocks_ := blocks_ s ++ [block];
           free_list_ := push_slots block 0 objects_per_block_ (free_list_ s) |}).

(** The empty pool the constructor starts from. *)
Definition empty_pool : pool := {| blocks_ := []; free_list_ := [] |}.

(** [explicit MemoryPool(size_t initial_blocks = 1) { allocate_block(); }] *)
Definition MemoryPool (initial_blocks : nat) (block : ptr) : outcome pool :=
  match allocate_block block empty_pool with
  | (Returns _, s) => Returns s
  | (Throws e, _) => Throws e
  | (Undefined, _) => Undefined
  end.

(** [T* allocate()]. [block] is what [aligned_alloc] answers if it is asked. *)
Definition allocate (block : ptr) (s : pool) : outcome ptr * pool :=
  let '(r, s1) :=
    match free_list_ s with
    | [] => allocate_block block s
    | _ :: _ => (Returns tt, s)
    end in
  match r with
  | Throws e => (Throws e, s1)
  | Undefined => (Undefined, s1)
  | Returns _ =>
      match last (free_list_ s1) with
      | None => (Undefined, s1)
      | Some p =>
          (Returns p,
           {| blocks_ := blocks_ s1; free_list_ := removelast (free_list_ s1) |})
      end
  end.

(** [void deallocate(T* ptr) noexcept] *)
Definition deallocate (p : ptr) (s : pool) : pool :=
  if (p =? nullptr)%N then s
  else {| blocks_ := blocks_ s; free_list_ := free_list_ s ++ [p] |}.

(** [T* construct(Args&&... args)]. [ctor] is the element constructor applied
    to the arguments: given the storage it either completes ([None]) or
    throws. *)
Definition construct (block : ptr) (ctor : ptr -> option exn) (s : pool)
  : outcome ptr * pool * list call :=
  match allocate block s with
  | (Returns p, s1) =>
      match ctor p with
      | None => (Returns p, s1, [PlacementNew p])
      | Some e => (Throws e, deallocate p s1, [PlacementNew p])
      end
  | (Throws e, s1) => (Throws e, s1, [])
  | (Undefined, s1) => (Undefined, s1, [])
  end.

(** [void destroy(T* ptr) noexcept] *)
Definition destroy (p : ptr) (s : pool) : pool * list call :=
  if (p =? nullptr)%N then (s, [])
  else (deallocate p s, [Destructor p]).

(** [size_t capacity() const noexcept] *)
Definition capacity (s : pool) : nat := length (blocks_ s) * objects_per_block_.

(** [size_t available() const noexcept] *)
Definition available (s : pool) : nat := length (free_list_ s).

(** *** Clients

    A client issues the four public operations. To speak about "a slot that
    was allocated before" the run also keeps the list of slots the client
    holds: handed out by [allocate] or [construct] and not given back yet. *)
Inductive op :=
| OpAllocate (block : ptr)
| OpDeallocate (p : ptr)
| OpConstruct (block : ptr) (ctor : ptr -> option exn)
| OpDestroy (p : ptr).

(** Removes the first occurrence of [p]. *)
Fixpoint remove_one (p : ptr) (l : list ptr) : list ptr :=
  match l with
  | [] => []
  | q :: l' => if (p =? q)%N then l' else q :: remove_one p l'
  end.

Inductive step : pool * list ptr -> op -> pool * list ptr -> Prop :=
| step_allocate block s live p s' :
    allocate block s = (Returns p, s') ->
    step (s, live) (OpAllocate block) (s', p :: live)
| step_allocate_throws block s live e s' :
    allocate block s = (Throws e, s') ->
    step (s, live) (OpAllocate block) (s', live)
| step_deallocate p s live :
    In p live ->
    step (s, live) (OpDeallocate p) (deallocate p s, remove_one p live)
| step_deallocate_null s live :
    step (s, live) (OpDeallocate nullptr) (deallocate nullptr s, live)
| step_construct block ctor s live p s' cs :
    construct block ctor s = (Returns p, s', cs) ->
    step (s, live) (OpConstruct block ctor) (s', p :: live)
| step_construct_throws block ctor s live e s' cs :
    construct block ctor s = (Throws e, s', cs) ->
    step (s, live) (OpConstruct block ctor) (s', live)
| step_destroy p s live :
    In p live ->
    step (s, live) (OpDestroy p) (fst (destroy p s), remove_one p live)
| step_destroy_null s live :
    step (s, live) (OpDestroy nullptr) (fst (destroy nullptr s), live).

(** The states a client can reach from a freshly constructed pool. *)
Inductive reachable : pool * list ptr -> Prop :=
| reachable_fresh n block s :
    MemoryPool n block = Returns s ->
    reachable (s, [])
| reachable_step st o st' :
    reachable st -> step st o st' -> reachable st'.

(** The same steps as a function, for running a client's script: [None]
    when the script gives back a slot the client does not hold, or when the
    pool runs into undefined behaviour. *)
Definition holds (p : ptr) (live : list ptr) : bool := existsb (N.eqb p) live.

Definition exec_op (o : op) (st : pool * list ptr) : option (pool * list ptr) :=
  let '(s, live) := st in
  match o with
  | OpAllocate block =>
      match allocate block s with
      | (Returns p, s') => Some (s', p :: live)
      | (Throws _, s') => Some (s', live)
      | (Undefined, _) => None
      end
  | OpDeallocate p =>
      if (p =? nullptr)%N then Some (deallocate p s, live)
      else if holds p live then Some (deallocate p s, remove_one p live)
      else None
  | OpConstruct block ctor =>
      match construct block ctor s with
      | (Returns p, s', _) => Some (s', p :: live)
      | (Throws _, s', _) => Some (s', live)
      | (Undefined, _, _) => None
      end
  | OpDestroy p =>
      if (p =? nullptr)%N then Some (fst (destroy p s), live)
      else if holds p live then Some (fst (destroy p s), remove_one p live)
      else None
  end.

Fixpoint exec_ops (script : list op) (st : pool * list ptr) : option (pool * list ptr) :=
  match script with
  | [] => Some st
  | o :: rest =>
      match exec_op o st with
      | Some st' => exec_ops rest st'
      | None => None
      end
  end.

(** An operation that asks for storage. *)
Definition requests_allocation (o : op) : Prop :=
  match o with
  | OpAllocate _ | OpConstruct _ _ => True
  | _ => False
  end.

(** *** The environment's side of [aligned_alloc]

    [std::aligned_alloc] answers a null pointer or the start of [BlockSize]
    bytes that overlap no block handed out before. *)
Definition apart (block : ptr) (s : pool) : Prop :=
  Forall (fun b => (b + N.of_nat BlockSize <= block
                    \/ block + N.of_nat BlockSize <= b)%N) (blocks_ s).

Definition answers (block : ptr) (s : pool) : Prop :=
  block = nullptr \/ apart block s.

(** The answer an operation carries for [aligned_alloc], if it may ask. *)
Definition asks (o : op) : option ptr :=
  match o with
  | OpAllocate block | OpConstruct block _ => Some block
  | _ => None
  end.

(** The states a client reaches when [aligned_alloc] behaves. *)
Inductive reachable_apart : pool * list ptr -> Prop :=
| reachable_apart_fresh n block s :
    MemoryPool n block = Returns s ->
    reachable_apart (s, [])
| reachable_apart_step st o st' :
    reachable_apart st ->
    (forall block, asks o = Some block -> answers block (fst st)) ->
    step st o st' ->
    reachable_apart st'.

(** [p] is the address of a slot of one of the pool's blocks: it starts a
    whole number of objects into the block and the object fits before the
    block ends. *)
Definition in_a_block (s : pool) (p : ptr) : Prop :=
  exists b i, In b (blocks_ s) /\ i < objects_per_block_ /\ p = slot b i
    /\ (b <= p)%N /\ (p + N.of_nat sizeofT <= b + N.of_nat BlockSize)%N.

(** The layout invariant: blocks do not overlap, every slot in the freelist
    or in the client's hands is a slot of a block, and none occurs twice. *)
Definition laid_out (st : pool * list ptr) : Prop :=
  (forall b1 b2, In b1 (blocks_ (fst st)) -> In b2 (blocks_ (fst st)) ->
     b1 = b2 \/ (b1 + N.of_nat BlockSize <= b2)%N \/ (b2 + N.of_nat BlockSize <= b1)%N)
  /\ Forall (in_a_block (fst st)) (free_list_ (fst st) ++ snd st)
  /\ NoDup (free_list_ (fst st) ++ snd st).

(** The bookkeeping invariant: every slot of every block is either in the
    freelist or held by the client, and no slot is the null pointer. *)
Definition accounted (st : pool * list ptr) : Prop :=
  available (fst st) + length (snd st) = capacity (fst st)
  /\ Forall (fun p => p <> nullptr) (free_list_ (fst st))
  /\ Forall (fun p => p <> nullptr) (snd st).

End Pool.

End MemoryPool.

(* ===================================================================== *)
(** ** MemoryPool.hpp: [MemoryPool<T, BlockSize>] when a vector cannot grow *)
(* ===================================================================== *)

(** [blocks_.push_back] and [free_list_.push_back] allocate too: they throw
    [std::bad_alloc] when they cannot, and a [push_back] that throws leaves
    its vector as it was. The functions below are [allocate_block],
    [allocate] and [construct] again, with these failures. *)
Module MemoryPoolVectors.
Import MemoryPool.

Section Pool.

Variables (BlockSize sizeofT : nat).

(** [allocate_block()] with its three sources of failure. [block] is the
    answer of [std::aligned_alloc]. [room] is the environment's answer for
    the vectors: [None] when every [push_back] of the call succeeds,
    [Some k] when the first [k] succeed and the next one throws
    ([blocks_.push_back] comes first, the slots follow). The third component
    lists what [aligned_alloc] gave and no data member records. *)
Definition allocate_block (room : option nat) (block : ptr) (s : pool)
  : outcome unit * pool * list ptr :=
  if (block =? nullptr)%N then (Throws bad_alloc, s, [])
  else
    let grown k :=
      {| blocks_ := blocks_ s ++ [block];
         free_list_ := push_slots sizeofT block 0 k (free_list_ s) |} in
    match room with
    | Some 0 => (Throws bad_alloc, s, [block])
    | Some (S k) =>
        if k <? objects_per_block_ BlockSize sizeofT
        then (Throws bad_alloc, grown k, [])
        else (Returns tt, grown (objects_per_block_ BlockSize sizeofT), [])
    | None => (Returns tt, grown (objects_per_block_ BlockSize sizeofT), [])
    end.

(** [T* allocate()] *)
Definition allocate (room : option nat) (block : ptr) (s : pool)
  : outcome ptr * pool * list ptr :=
  let '(r, s1, lost) :=
    match free_list_ s with
    | [] => allocate_block room block s
    | _ :: _ => (Returns tt, s, [])
    end in
  match r with
  | Throws e => (Throws e, s1, lost)
  | Undefined => (Undefined, s1, lost)
  | Returns _ =>
      match last (free_list_ s1) with
      | None => (Undefined, s1, lost)
      | Some p =>
          (Returns p,
           {| blocks_ := blocks_ s1; free_list_ := removelast (free_list_ s1) |},
           lost)
      end
  end.

(** [T* construct(Args&&... args)] *)
Definition construct (room : option nat) (block : ptr) (ctor : ptr -> option exn)
    (s : pool) : outcome ptr * pool * list call * list ptr :=
  match allocate room block s with
  | (Returns p, s1, lost) =>
      match ctor p with
      | None => (Returns p, s1, [PlacementNew p], lost)
      | Some e => (Throws e, deallocate p s1, [PlacementNew p], lost)
      end
  | (Throws e, s1, lost) => (Throws e, s1, [], lost)
  | (Undefined, s1, lost) => (Undefined, s1, [], lost)
  end.

End Pool.

End MemoryPoolVectors.

(* ===================================================================== *)
(** ** ThreadPool.hpp: [ThreadPool] (the specification's TaskScheduler)   *)
(* ===================================================================== *)

Module ThreadPool.

Inductive exn :=
| runtime_error (what : string)
| task_exception (code : nat).

(** The failure the specification calls [SchedulerClosed]:
    [throw std::runtime_error("enqueue on stopped ThreadPool")]. *)
Definition SchedulerClosed : exn := runtime_error "enqueue on stopped ThreadPool".

Inductive outcome (A : Type) :=
| Returns (a : A)
| Throws (e : exn).
Arguments Returns {A} a.
Arguments Throws {A} e.

Section Scheduler.

(** [V] is the return type of the submitted callables; [World] is whatever
    the callables read and write besides (captured references). *)
Variables (V World : Type).

(** A callable with its arguments bound ([std::bind(f, args...)]): run, it
    changes the world and returns a value or throws. *)
Definition callable := World -> World * outcome V.

(** The shared state behind a [std::packaged_task] and its [std::future]:
    empty until the task has run, then the value or the captured failure.
    Shared states live in a heap addressed by handles. *)
Definition shared_state := option (outcome V).
Definition handle := nat.

(** A queue entry: the closure pushed by [tasks_.emplace], that is the
    packaged task it holds on to. *)
Record queued := mkQueued {
  target : handle;
  body : callable
}.

Record pool := mkPool {
  workers_ : nat;
  tasks_ : list queued;
  stop_ : bool;
  heap : list shared_state
}.

(** [enqueue(f, args...)]: the packaged task and its future are made first
    ([make_shared], [get_future]); under the queue mutex the stop flag is
    tested and the closure is pushed at the back. When the call throws, the
    packaged task and the future die with the stack frame. *)
Definition enqueue (f : callable) (s : pool) : outcome handle * pool :=
  let res := length (heap s) in
  if stop_ s then (Throws SchedulerClosed, s)
  else (Returns res,
        {| workers_ := workers_ s;
           tasks_ := tasks_ s ++ [{| target := res; body := f |}];
           stop_ := stop_ s;
           heap := heap s ++ [None] |}).

(** The first statement of [~ThreadPool()]: [stop_.store(true)]. *)
Definition begin_shutdown (s : pool) : pool :=
  {| workers_ := workers_ s; tasks_ := tasks_ s; stop_ := true; heap := heap s |}.

(** Running a queue entry invokes the packaged task, which runs the callable and stores its
    value, or the failure it raised, in the shared state. *)
Definition run_task (t : queued) (s : pool) (w : World) : pool * World :=
  let '(w', r) := body t w in
  ({| workers_ := workers_ s; tasks_ := tasks_ s; stop_ := stop_ s;
      heap := <[target t := Some r]> (heap s) |}, w').

(** One turn of a worker's loop. *)
Inductive turn :=
| Blocked
| Exits
| Ran (s : pool) (w : World).

Definition worker_turn (s : pool) (w : World) : turn :=
  match tasks_ s with
  | [] => if stop_ s then Exits else Blocked
  | t :: rest =>
      let '(s', w') :=
        run_task t {| workers_ := workers_ s; tasks_ := rest;
                      stop_ := stop_ s; heap := heap s |} w in
      Ran s' w'
  end.

(** What [future.get()] would find: [None] while the task has not run. *)
Definition future_state (h : handle) (s : pool) : shared_state :=
  match heap s !! h with
  | Some st => st
  | None => None
  end.

(** [size_t pending_tasks() const noexcept] *)
Definition pending_tasks (s : pool) : nat := length (tasks_ s).

(** [explicit ThreadPool(size_t threads)]: the workers are started, the
    queue is empty and the stop flag is clear. *)
Definition new_pool (threads : nat) : pool :=
  {| workers_ := threads; tasks_ := []; stop_ := false; heap := [] |}.

(** [size_t size() const noexcept] *)
Definition size (s : pool) : nat := workers_ s.

(** A client that enqueues the callables [fs] one after the other and keeps
    what each call gave. *)
Fixpoint enqueue_all (fs : list callable) (s : pool) : list (outcome handle) * pool :=
  match fs with
  | [] => ([], s)
  | f :: rest =>
      let '(r, s1) := enqueue f s in
      let '(rs, s2) := enqueue_all rest s1 in
      (r :: rs, s2)
  end.

(** [n] turns of the worker loop, tasks run one at a time; the loop stops
    early where the worker would block or exit. *)
Fixpoint work (n : nat) (s : pool) (w : World) : pool * World :=
  match n with
  | O => (s, w)
  | S n' =>
      match worker_turn s w with
      | Ran s' w' => work n' s' w'
      | Blocked | Exits => (s, w)
      end
  end.

(** What the callables give when called one after the other, and the world
    they leave. *)
Fixpoint outcomes (fs : list callable) (w : World) : list (outcome V) * World :=
  match fs with
  | [] => ([], w)
  | f :: rest =>
      let '(w1, r) := f w in
      let '(rs, w2) := outcomes rest w1 in
      (r :: rs, w2)
  end.

End Scheduler.

Arguments mkQueued {V World}.
Arguments target {V World}.
Arguments body {V World}.
Arguments mkPool {V World}.
Arguments workers_ {V World}.
Arguments tasks_ {V World}.
Arguments stop_ {V World}.
Arguments heap {V World}.
Arguments enqueue {V World}.
Arguments begin_shutdown {V World}.
Arguments run_task {V World}.
Arguments worker_turn {V World}.
Arguments future_state {V World}.
Arguments pending_tasks {V World}.
Arguments new_pool {V World}.
Arguments size {V World}.
Arguments enqueue_all {V World}.
Arguments work {V World}.
Arguments outcomes {V World}.
Arguments Blocked {V World}.
Arguments Exits {V World}.
Arguments Ran {V World}.

End ThreadPool.

(* ===================================================================== *)
(** ** ThreadPool.hpp: the workers, the mutex and the condition variable  *)
(* ===================================================================== *)

(** The worker loop and the destructor step by step, to follow what
    [condition_.wait] and the notifications do. A worker evaluates the wait
    predicate with [queue_mutex_] held and blocks in a later step;
    [~ThreadPool] stores [stop_] and notifies without the mutex. *)
Module ThreadPoolThreads.

(** Where a worker is in its loop. *)
Inductive worker_pc :=
| WLock              (* about to take [queue_mutex_]: at the top of [for (;;)],
                        or woken inside [condition_.wait] *)
| WTest              (* holds the mutex, about to evaluate the wait predicate *)
| WSleep             (* found the predicate false; holds the mutex; about to
                        release it and block inside [condition_.wait] *)
| WBlocked           (* blocked inside [condition_.wait], mutex released *)
| WRun (task : nat)  (* popped [task], mutex released, about to run it *)
| WExited.           (* [return]: the thread function has ended *)

(** Where the thread that destroys the pool is in [~ThreadPool]. *)
Inductive destructor_pc :=
| DNotCalled
| DNotify            (* [stop_] stored, about to [notify_all] *)
| DJoin (i : nat)    (* in [workers_[i].join()] *)
| DDone.

(** Tasks are numbers; [ran] lists the tasks run so far. [mutex] is the
    worker that holds [queue_mutex_], if one does. *)
Record state := mkState {
  tasks_ : list nat;
  stop_ : bool;
  mutex : option nat;
  workers_ : list worker_pc;
  destructor : destructor_pc;
  ran : list nat
}.

Inductive label :=
| Worker (i : nat)                     (* worker [i] takes its next step *)
| Enqueue (task : nat) (wake : option nat)
                                       (* a client's whole [enqueue]; [notify_one]
                                          reaches the blocked worker [wake] *)
| Destructor                           (* the destroying thread's next step *)
| Spurious (i : nat).                  (* worker [i] wakes unnotified, as
                                          [condition_variable::wait] may *)

Definition set_worker (i : nat) (pc : worker_pc) (st : state) : state :=
  {| tasks_ := tasks_ st; stop_ := stop_ st; mutex := mutex st;
     workers_ := <[i := pc]> (workers_ st);
     destructor := destructor st; ran := ran st |}.

Definition is_blocked (pc : worker_pc) : bool :=
  match pc with
  | WBlocked => true
  | _ => false
  end.

(** [notify_all]: every blocked worker is woken. *)
Definition wake_all (ws : list worker_pc) : list worker_pc :=
  map (fun pc => if is_blocked pc then WLock else pc) ws.

Definition worker_step (i : nat) (st : state) : option state :=
  match workers_ st !! i with
  | Some WLock =>
      match mutex st with
      | None =>
          Some {| tasks_ := tasks_ st; stop_ := stop_ st; mutex := Some i;
                  workers_ := <[i := WTest]> (workers_ st);
                  destructor := destructor st; ran := ran st |}
      | Some _ => None
      end
  | Some WTest =>
      (* [stop_.load() || !tasks_.empty()] *)
      match tasks_ st with
      | [] =>
          if stop_ st
          then (* [if (stop_.load() && tasks_.empty()) return;] *)
            Some {| tasks_ := []; stop_ := stop_ st; mutex := None;
                    workers_ := <[i := WExited]> (workers_ st);
                    destructor := destructor st; ran := ran st |}
          else Some (set_worker i WSleep st)
      | task :: rest =>
          Some {| tasks_ := rest; stop_ := stop_ st; mutex := None;
                  workers_ := <[i := WRun task]> (workers_ st);
                  destructor := destructor st; ran := ran st |}
      end
  | Some WSleep =>
      Some {| tasks_ := tasks_ st; stop_ := stop_ st; mutex := None;
              workers_ := <[i := WBlocked]> (workers_ st);
              destructor := destructor st; ran := ran st |}
  | Some (WRun task) =>
      Some {| tasks_ := tasks_ st; stop_ := stop_ st; mutex := mutex st;
              workers_ := <[i := WLock]> (workers_ st);
              destructor := destructor st; ran := ran st ++ [task] |}
  | Some WBlocked | Some WExited | None => None
  end.

(** [enqueue] as one step: it needs the mutex free; on a stopped pool it
    throws and changes nothing; otherwise it pushes and notifies one blocked
    worker, if there is one. *)
Definition enqueue_step (task : nat) (wake : option nat) (st : state) : option state :=
  match mutex st with
  | Some _ => None
  | None =>
      if stop_ st then Some st
      else
        let pushed ws :=
          {| tasks_ := tasks_ st ++ [task]; stop_ := stop_ st; mutex := None;
             workers_ := ws; destructor := destructor st; ran := ran st |} in
        match wake with
        | Some i =>
            match workers_ st !! i with
            | Some WBlocked => Some (pushed (<[i := WLock]> (workers_ st)))
            | _ => None
            end
        | None =>
            if existsb is_blocked (workers_ st) then None
            else Some (pushed (workers_ st))
        end
  end.

(** [~ThreadPool]: the store and the notification are made without
    [queue_mutex_]. *)
Definition destructor_step (st : state) : option state :=
  match destructor st with
  | DNotCalled =>
      Some {| tasks_ := tasks_ st; stop_ := true; mutex := mutex st;
              workers_ := workers_ st; destructor := DNotify; ran := ran st |}
  | DNotify =>
      Some {| tasks_ := tasks_ st; stop_ := stop_ st; mutex := mutex st;
              workers_ := wake_all (workers_ st); destructor := DJoin 0;
              ran := ran st |}
  | DJoin i =>
      match workers_ st !! i with
      | None =>
          Some {| tasks_ := tasks_ st; stop_ := stop_ st; mutex := mutex st;
                  workers_ := workers_ st; destructor := DDone; ran := ran st |}
      | Some WExited =>
          Some {| tasks_ := tasks_ st; stop_ := stop_ st; mutex := mutex st;
                  workers_ := workers_ st; destructor := DJoin (S i); ran := ran st |}
      | Some _ => None
      end
  | DDone => None
  end.

Definition step (l : label) (st : state) : option state :=
  match l with
  | Worker i => worker_step i st
  | Enqueue task wake => enqueue_step task wake st
  | Destructor => destructor_step st
  | Spurious i =>
      match workers_ st !! i with
      | Some WBlocked => Some (set_worker i WLock st)
      | _ => None
      end
  end.

Fixpoint run (schedule : list label) (st : state) : option state :=
  match schedule with
  | [] => Some st
  | l :: rest =>
      match step l st with
      | Some st' => run rest st'
      | None => None
      end
  end.

(** [ThreadPool(threads)]: the workers are started, nothing is queued. *)
Definition start (threads : nat) : state :=
  {| tasks_ := []; stop_ := false; mutex := None;
     workers_ := replicate threads WLock; destructor := DNotCalled; ran := [] |}.

(** The destructor is inside [join] on a worker that is blocked, the flag is
    set, and every worker is blocked or has exited. *)
Definition asleep_at_shutdown (st : state) : Prop :=
  stop_ st = true
  /\ Forall (fun pc => pc = WBlocked \/ pc = WExited) (workers_ st)
  /\ exists i, destructor st = DJoin i /\ workers_ st !! i = Some WBlocked.

(** A worker tests the predicate and is about to block; the destructor
    stores the flag and notifies; then the worker blocks. *)
Definition lost_wakeup : list label :=
  [Worker 0; Worker 0; Destructor; Destructor; Worker 0].

End ThreadPoolThreads.

(* ===================================================================== *)
(** ** EventBus.hpp: [EventBus]                                           *)
(* ===================================================================== *)

Module EventBus.

(** [std::type_index]: one number per declared event class. *)
Definition type_index := nat.

(** What a handler may throw: something derived from [std::exception], or
    any other value ([throw 42;]). *)
Inductive thrown :=
| std_exception (what : string)
| other_value (v : nat).

Section Bus.

(** [Payload] is the data the derived event classes carry; [World] is what
    the subscribers' closures read and write. *)
Variables (Payload World : Type).

Record Event := mkEvent {
  timestamp : N;
  type_id : type_index;
  payload : Payload
}.

(** An [EventHandler<EventType>] object: the wrapped [std::function]. Called,
    it changes the world and returns ([None]) or throws. [handler_id] names
    the object, so that calls can be told apart. *)
Record IEventHandler := mkHandler {
  handler_id : nat;
  handle : Event -> World -> World * option thrown
}.

Record bus := mkBus {
  handlers_ : gmap type_index (list IEventHandler);
  event_queue_ : list Event;
  worker_joinable : bool;
  async_mode_ : bool;
  shutdown_requested_ : bool
}.

(** [EventBus() : async_mode_(false), shutdown_requested_(false) {}] *)
Definition new_bus : bus :=
  {| handlers_ := ∅; event_queue_ := []; worker_joinable := false;
     async_mode_ := false; shutdown_requested_ := false |}.

(** The running thread's view: the world, and the calls of handlers made so
    far, oldest first. *)
Record exec := mkExec {
  world : World;
  calls : list (nat * Event)
}.

(** [subscribe<EventType>(handler)] *)
Definition subscribe (EventType : type_index) (h : IEventHandler) (b : bus) : bus :=
  {| handlers_ :=
       <[EventType := default [] (handlers_ b !! EventType) ++ [h]]> (handlers_ b);
     event_queue_ := event_queue_ b;
     worker_joinable := worker_joinable b;
     async_mode_ := async_mode_ b;
     shutdown_requested_ := shutdown_requested_ b |}.

(** [unsubscribe<EventType>()] *)
Definition unsubscribe (EventType : type_index) (b : bus) : bus :=
  {| handlers_ := delete EventType (handlers_ b);
     event_queue_ := event_queue_ b;
     worker_joinable := worker_joinable b;
     async_mode_ := async_mode_ b;
     shutdown_requested_ := shutdown_requested_ b |}.

(** The loop over one handler list, shared by [dispatch_event] and
    [dispatch_polymorphic_event]:
    [try { handler->handle(event); } catch (const std::exception& e) { }].
    A thrown value that is no [std::exception] leaves the loop. *)
Fixpoint dispatch_loop (hs : list IEventHandler) (event : Event) (x : exec)
  : exec * option thrown :=
  match hs with
  | [] => (x, None)
  | h :: rest =>
      let '(w', r) := handle h event (world x) in
      let x' := {| world := w'; calls := calls x ++ [(handler_id h, event)] |} in
      match r with
      | None => dispatch_loop rest event x'
      | Some (std_exception _) => dispatch_loop rest event x'
      | Some (other_value v) => (x', Some (other_value v))
      end
  end.

(** [dispatch_event<EventType>(event)]: the key is the static type. *)
Definition dispatch_event (EventType : type_index) (event : Event) (b : bus) (x : exec)
  : exec * option thrown :=
  match handlers_ b !! EventType with
  | Some hs => dispatch_loop hs event x
  | None => (x, None)
  end.

(** [dispatch_polymorphic_event(event)]: the key is [event.type_id]. *)
Definition dispatch_polymorphic_event (event : Event) (b : bus) (x : exec)
  : exec * option thrown :=
  match handlers_ b !! type_id event with
  | Some hs => dispatch_loop hs event x
  | None => (x, None)
  end.

(** [publish<EventType>(event)] *)
Definition publish (EventType : type_index) (event : Event) (b : bus) (x : exec)
  : bus * exec * option thrown :=
  if async_mode_ b then
    ({| handlers_ := handlers_ b;
        event_queue_ := event_queue_ b ++ [event];
        worker_joinable := worker_joinable b;
        async_mode_ := async_mode_ b;
        shutdown_requested_ := shutdown_requested_ b |}, x, None)
  else
    let '(x', r) := dispatch_event EventType event b x in (b, x', r).

(** [set_async_mode(async)] *)
Definition set_async_mode (async : bool) (b : bus) : bus :=
  {| handlers_ := handlers_ b;
     event_queue_ := event_queue_ b;
     worker_joinable := if async then true else worker_joinable b;
     async_mode_ := async;
     shutdown_requested_ := shutdown_requested_ b |}.

(** The handlers a publish of [EventType] is to reach. *)
Definition subscribers (EventType : type_index) (b : bus) : list IEventHandler :=
  default [] (handlers_ b !! EventType).

(** A handler that, on this event, returns or throws a [std::exception],
    whatever the world. *)
Definition raises_only_std (event : Event) (h : IEventHandler) : Prop :=
  forall w v, snd (handle h event w) <> Some (other_value v).

(** The world after the handlers [hs] have run in order. *)
Definition run_all (hs : list IEventHandler) (event : Event) (w : World) : World :=
  fold_left (fun w h => fst (handle h event w)) hs w.

End Bus.

Arguments mkEvent {Payload}.
Arguments timestamp {Payload}.
Arguments type_id {Payload}.
Arguments payload {Payload}.
Arguments mkHandler {Payload World}.
Arguments handler_id {Payload World}.
Arguments handle {Payload World}.
Arguments mkBus {Payload World}.
Arguments handlers_ {Payload World}.
Arguments event_queue_ {Payload World}.
Arguments worker_joinable {Payload World}.
Arguments async_mode_ {Payload World}.
Arguments shutdown_requested_ {Payload World}.
Arguments new_bus {Payload World}.
Arguments mkExec {Payload World}.
Arguments world {Payload World}.
Arguments calls {Payload World}.
Arguments subscribe {Payload World}.
Arguments unsubscribe {Payload World}.
Arguments dispatch_loop {Payload World}.
Arguments dispatch_event {Payload World}.
Arguments dispatch_polymorphic_event {Payload World}.
Arguments publish {Payload World}.
Arguments set_async_mode {Payload World}.
Arguments subscribers {Payload World}.
Arguments raises_only_std {Payload World}.
Arguments run_all {Payload World}.

End EventBus.

(* ===================================================================== *)
(** ** Config.hpp: [Config]                                               *)
(* ===================================================================== *)

Module Config.

Local Open Scope string_scope.

Definition chr (n : nat) : ascii := ascii_of_nat n.
Definition newline : ascii := chr 10.

(** The characters of [" \t\r\n"], the set [trim] strips. *)
Definition is_blank (c : ascii) : bool :=
  let n := nat_of_ascii c in
  (n =? 32)%nat || (n =? 9)%nat || (n =? 13)%nat || (n =? 10)%nat.

(** [std::isspace] in the "C" locale, which [strtol] skips. *)
Definition isspace (c : ascii) : bool :=
  let n := nat_of_ascii c in
  (n =? 32)%nat || ((9 <=? n)%nat && (n <=? 13)%nat).

(** [std::getline(file, line)] until it fails: the text between newlines; a
    last line without a newline is delivered too when it is not empty. *)
Fixpoint getlines_from (cur : string) (s : string) : list string :=
  match s with
  | EmptyString => if (String.length cur =? 0)%nat then [] else [cur]
  | String c rest =>
      if Ascii.eqb c newline then cur :: getlines_from EmptyString rest
      else getlines_from (cur ++ String c EmptyString) rest
  end.
Definition getlines (content : string) : list string := getlines_from EmptyString content.

(** [str.find(c)]: the first position of [c], or [npos]. *)
Fixpoint find (c : ascii) (s : string) : option nat :=
  match s with
  | EmptyString => None
  | String d rest =>
      if Ascii.eqb c d then Some 0%nat else option_map S (find c rest)
  end.

(** [str.find_first_not_of(" \t\r\n")] *)
Fixpoint find_first_not_blank (s : string) : option nat :=
  match s with
  | EmptyString => None
  | String c rest =>
      if is_blank c then option_map S (find_first_not_blank rest) else Some 0%nat
  end.

(** [str.find_last_not_of(" \t\r\n")] *)
Fixpoint find_last_not_blank (s : string) : option nat :=
  match s with
  | EmptyString => None
  | String c rest =>
      match find_last_not_blank rest with
      | Some i => Some (S i)
      | None => if is_blank c then None else Some 0%nat
      end
  end.

(** [str.substr(pos, len)] and [str.substr(pos)] *)
Definition substr (pos len : nat) (s : string) : string := String.substring pos len s.
Definition substr_from (pos : nat) (s : string) : string :=
  String.substring pos (String.length s - pos) s.

Definition trim (str : string) : string :=
  match find_first_not_blank str with
  | None => EmptyString
  | Some start =>
      match find_last_not_blank str with
      | Some end_ => substr start (end_ - start + 1) str
      | None => EmptyString
      end
  end.

(** [value.front()], [value.back()] *)
Definition front (s : string) : option ascii := String.get 0 s.
Definition back (s : string) : option ascii := String.get (String.length s - 1) s.

Definition quote : ascii := chr 34.

(** The "remove quotes if present" step of [load_from_file]. *)
Definition unquote (value : string) : string :=
  if (2 <=? String.length value)%nat
     && bool_decide (front value = Some quote)
     && bool_decide (back value = Some quote)
  then substr 1 (String.length value - 2) value
  else value.

(** *** [std::stoi]

    [strtol] in base 10: leading white space, an optional sign, then digits.
    [None] stands for the two exceptions ([invalid_argument] when there is no
    digit, [out_of_range] when the number does not fit an [int]); otherwise
    the value and the number of characters consumed. *)
Definition INT_MAX : Z := 2147483647.
Definition INT_MIN : Z := -2147483648.

Definition digit_of (c : ascii) : option Z :=
  let n := nat_of_ascii c in
  if ((48 <=? n)%nat && (n <=? 57)%nat) then Some (Z.of_nat (n - 48)) else None.

Fixpoint skip_space (s : string) : string * nat :=
  match s with
  | EmptyString => (s, 0%nat)
  | String c rest =>
      if isspace c then let '(r, k) := skip_space rest in (r, S k) else (s, 0%nat)
  end.

Fixpoint read_digits (s : string) (acc : Z) : Z * nat :=
  match s with
  | EmptyString => (acc, 0%nat)
  | String c rest =>
      match digit_of c with
      | Some d => let '(v, k) := read_digits rest (acc * 10 + d)%Z in (v, S k)
      | None => (acc, 0%nat)
      end
  end.

Definition stoi (s : string) : option (Z * nat) :=
  let '(s1, k1) := skip_space s in
  let '(negative, s2, k2) :=
    match s1 with
    | String "-" r => (true, r, 1%nat)
    | String "+" r => (false, r, 1%nat)
    | _ => (false, s1, 0%nat)
    end in
  let '(v, k3) := read_digits s2 0%Z in
  if (k3 =? 0)%nat then None
  else
    let v' := if negative then (- v)%Z else v in
    if ((INT_MIN <=? v') && (v' <=? INT_MAX))%Z then Some (v', (k1 + k2 + k3)%nat)
    else None.

(** [file << v] for an [int]: decimal digits, a minus sign when negative. *)
Definition show_int (z : Z) : string := DecimalString.NilZero.string_of_int (Z.to_int z).

(** [file << v] for a [bool]: the stream has no [boolalpha] set. *)
Definition show_bool (b : bool) : string := if b then "1" else "0".

Section Store.

(** Floating point stays abstract: the type [double], what [file << v] prints
    for one, and [std::stod] ([None] when it throws, else value and number of
    characters consumed). *)
Variable double : Type.
Variable show_double : double -> string.
Variable stod : string -> option (double * nat).

(** [using ConfigValue = std::variant<std::string, int, double, bool>] *)
Inductive ConfigValue :=
| VString (s : string)
| VInt (i : Z)
| VDouble (d : double)
| VBool (b : bool).

Definition parse_value (value : string) : ConfigValue :=
  if String.eqb value "true" || String.eqb value "TRUE" then VBool true
  else if String.eqb value "false" || String.eqb value "FALSE" then VBool false
  else
    match
      match stoi value with
      | Some (int_val, pos) =>
          if (pos =? String.length value)%nat then Some (VInt int_val) else None
      | None => None
      end
    with
    | Some v => v
    | None =>
        match
          match stod value with
          | Some (double_val, pos) =>
              if (pos =? String.length value)%nat then Some (VDouble double_val) else None
          | None => None
          end
        with
        | Some v => v
        | None => VString value
        end
    end.

(** The body of the [while (std::getline(file, line))] loop. *)
Definition load_line (config_map_ : gmap string ConfigValue) (line : string)
  : gmap string ConfigValue :=
  if (String.length line =? 0)%nat || bool_decide (String.get 0 line = Some "#"%char)
  then config_map_
  else
    match find "="%char line with
    | None => config_map_
    | Some pos =>
        let key := trim (substr 0 pos line) in
        let value := unquote (trim (substr_from (pos + 1) line)) in
        <[key := parse_value value]> config_map_
    end.

(** [load_from_file] on a file that opens, given its content. *)
Definition load_from_file (content : string) (config_map_ : gmap string ConfigValue)
  : gmap string ConfigValue :=
  fold_left load_line (getlines content) config_map_.

(** The [std::visit] of [save_to_file]. *)
Definition show_value (value : ConfigValue) : string :=
  match value with
  | VString v => String quote EmptyString ++ v ++ String quote EmptyString
  | VInt v => show_int v
  | VDouble v => show_double v
  | VBool v => show_bool v
  end.

Definition save_entry (kv : string * ConfigValue) : string :=
  fst kv ++ "=" ++ show_value (snd kv) ++ String newline EmptyString.

(** [save_to_file] on a file that opens: the content written. The order in
    which an [unordered_map] is walked is not specified; the model walks in
    the order of [map_to_list]. *)
Definition save_to_file (config_map_ : gmap string ConfigValue) : string :=
  String.concat EmptyString (map save_entry (map_to_list config_map_)).

(** [get<bool>(key, default_value)] *)
Definition get_bool (key : string) (default_value : bool)
  (config_map_ : gmap string ConfigValue) : bool :=
  match config_map_ !! key with
  | Some (VBool b) => b
  | _ => default_value
  end.

(** [get<std::string>], [get<int>] *)
Definition get_string (key : string) (default_value : string)
  (config_map_ : gmap string ConfigValue) : string :=
  match config_map_ !! key with
  | Some (VString s) => s
  | _ => default_value
  end.

Definition get_int (key : string) (default_value : Z)
  (config_map_ : gmap string ConfigValue) : Z :=
  match config_map_ !! key with
  | Some (VInt i) => i
  | _ => default_value
  end.

(** The alternatives of the variant: the [T] of [get<T>] and [set<T>]. *)
Inductive alternative := TString | TInt | TDouble | TBool.

Definition carrier (T : alternative) : Type :=
  match T with
  | TString => string
  | TInt => Z
  | TDouble => double
  | TBool => bool
  end.

(** The variant made from a [T]: the conversion in [config_map_[key] = value]. *)
Definition inject (T : alternative) : carrier T -> ConfigValue :=
  match T with
  | TString => VString
  | TInt => VInt
  | TDouble => VDouble
  | TBool => VBool
  end.

(** [std::get<T>(v)]; [None] stands for [std::bad_variant_access]. *)
Definition std_get (T : alternative) : ConfigValue -> option (carrier T) :=
  match T with
  | TString => fun v => match v with VString s => Some s | _ => None end
  | TInt => fun v => match v with VInt i => Some i | _ => None end
  | TDouble => fun v => match v with VDouble d => Some d | _ => None end
  | TBool => fun v => match v with VBool b => Some b | _ => None end
  end.

(** [get<T>(key, default_value)] *)
Definition get (T : alternative) (key : string) (default_value : carrier T)
  (config_map_ : gmap string ConfigValue) : carrier T :=
  match config_map_ !! key with
  | None => default_value
  | Some v =>
      match std_get T v with
      | Some x => x
      | None => default_value
      end
  end.

(** [set<T>(key, value)], with the value already in its variant. *)
Definition set (key : string) (value : ConfigValue)
  (config_map_ : gmap string ConfigValue) : gmap string ConfigValue :=
  <[key := value]> config_map_.

(** [has(key)] *)
Definition has (key : string) (config_map_ : gmap string ConfigValue) : bool :=
  bool_decide (is_Some (config_map_ !! key)).

(** [remove(key)] *)
Definition remove (key : string) (config_map_ : gmap string ConfigValue)
  : gmap string ConfigValue :=
  delete key config_map_.

(** [get_keys()], in the order the map is walked. *)
Definition get_keys (config_map_ : gmap string ConfigValue) : list string :=
  map fst (map_to_list config_map_).

(** A key that a line of the file can carry unchanged: not empty, not
    starting a comment, without [=] or a line break, and without blanks at
    either end. *)
Definition clean_key (key : string) : Prop :=
  key <> EmptyString
  /\ String.get 0 key <> Some "#"%char
  /\ find "="%char key = None
  /\ find newline key = None
  /\ trim key = key.

(** The values the theorem about reloading speaks of: an [int], a [bool],
    or a string without a line break. *)
Definition storable (value : ConfigValue) : Prop :=
  match value with
  | VInt i => (INT_MIN <= i <= INT_MAX)%Z
  | VBool _ => True
  | VString s => find newline s = None
  | VDouble _ => False
  end.

(** What a stored value is after it has been saved and loaded. *)
Definition reloaded (value : ConfigValue) : ConfigValue :=
  match value with
  | VInt i => VInt i
  | VBool b => VInt (if b then 1 else 0)
  | VString s => parse_value s
  | VDouble d => VDouble d
  end.

(** The round trip of the specification: write the store, then load the
    file just written into the same store. *)
Definition round_trip (config_map_ : gmap string ConfigValue) : gmap string ConfigValue :=
  load_from_file (save_to_file config_map_) config_map_.

End Store.

Arguments VString {double}.
Arguments VInt {double}.
Arguments VDouble {double}.
Arguments VBool {double}.

End Config.

(* ===================================================================== *)
(** ** EventBus.hpp: the dispatcher thread and [flush]                    *)
(* ===================================================================== *)

(** The asynchronous mode has two threads at work on one bus: the
    dispatcher running [worker_loop] and a client that publishes and
    flushes. Every step below is one stretch of code that runs under
    [queue_mutex_], or the one call the dispatcher makes between two such
    stretches, so the steps of the two threads interleave freely. A thread
    blocked in [queue_cv_.wait(lock, pred)] takes its next step only in a
    state where [pred] holds. *)
Module EventBusThreads.
Import EventBus.

Section Threads.

Variables (Payload World : Type).

(** Where the dispatcher is in [worker_loop]. *)
Inductive worker_pc :=
| WWait                               (* at [queue_cv_.wait], lock not held *)
| WDispatch (event : Event Payload)   (* popped and unlocked, about to dispatch *)
| WRelock                             (* dispatched, about to [lock.lock()] *)
| WDone                               (* left the loop: [break] *)
| WTerminated.                        (* a handler's throw left [worker_loop] *)

(** What the client does, call by call. *)
Inductive command :=
| Publish (EventType : type_index) (event : Event Payload)
| Flush.

Inductive client_pc :=
| CRun (program : list command)
| CInFlush (program : list command).   (* blocked inside [flush] *)

(** What an observer sees, oldest first. *)
Inductive obs :=
| Published (event : Event Payload)
| Dispatched (event : Event Payload)
| FlushCalled
| FlushReturned.

Record system := mkSystem {
  the_bus : bus Payload World;
  the_exec : exec Payload World;
  worker : worker_pc;
  client : client_pc;
  trace : list obs
}.

Definition pop_queue (b : bus Payload World) : bus Payload World :=
  {| handlers_ := handlers_ b;
     event_queue_ := tail (event_queue_ b);
     worker_joinable := worker_joinable b;
     async_mode_ := async_mode_ b;
     shutdown_requested_ := shutdown_requested_ b |}.

(** One step of the dispatcher. *)
Definition worker_step (st : system) : option system :=
  let b := the_bus st in
  match worker st with
  | WWait =>
      (* wait until [!event_queue_.empty() || shutdown_requested_] *)
      match event_queue_ b with
      | [] =>
          if shutdown_requested_ b
          then Some {| the_bus := b; the_exec := the_exec st; worker := WDone;
                       client := client st; trace := trace st |}
          else None
      | event :: _ =>
          Some {| the_bus := pop_queue b; the_exec := the_exec st;
                  worker := WDispatch event; client := client st; trace := trace st |}
      end
  | WDispatch event =>
      let '(x', r) := dispatch_polymorphic_event event b (the_exec st) in
      Some {| the_bus := b; the_exec := x';
              worker := match r with None => WRelock | Some _ => WTerminated end;
              client := client st;
              trace := trace st ++ [Dispatched event] |}
  | WRelock =>
      (* the test of [while (!event_queue_.empty())] *)
      match event_queue_ b with
      | [] =>
          Some {| the_bus := b; the_exec := the_exec st; worker := WWait;
                  client := client st; trace := trace st |}
      | event :: _ =>
          Some {| the_bus := pop_queue b; the_exec := the_exec st;
                  worker := WDispatch event; client := client st; trace := trace st |}
      end
  | WDone => None
  | WTerminated => None
  end.

(** One step of the client. *)
Definition client_step (st : system) : option system :=
  let b := the_bus st in
  match client st with
  | CRun [] => None
  | CRun (Publish EventType event :: rest) =>
      let '(b', x', r) := publish EventType event b (the_exec st) in
      match r with
      | None =>
          Some {| the_bus := b'; the_exec := x'; worker := worker st;
                  client := CRun rest; trace := trace st ++ [Published event] |}
      | Some _ =>
          (* the throw leaves [publish] and ends the client's program *)
          Some {| the_bus := b'; the_exec := x'; worker := worker st;
                  client := CRun []; trace := trace st ++ [Published event] |}
      end
  | CRun (Flush :: rest) =>
      if negb (async_mode_ b) then
        Some {| the_bus := b; the_exec := the_exec st; worker := worker st;
                client := CRun rest; trace := trace st ++ [FlushCalled; FlushReturned] |}
      else
        match event_queue_ b with
        | [] =>
            Some {| the_bus := b; the_exec := the_exec st; worker := worker st;
                    client := CRun rest;
                    trace := trace st ++ [FlushCalled; FlushReturned] |}
        | _ :: _ =>
            Some {| the_bus := b; the_exec := the_exec st; worker := worker st;
                    client := CInFlush rest; trace := trace st ++ [FlushCalled] |}
        end
  | CInFlush rest =>
      (* wait until [event_queue_.empty()] *)
      match event_queue_ b with
      | [] =>
          Some {| the_bus := b; the_exec := the_exec st; worker := worker st;
                  client := CRun rest; trace := trace st ++ [FlushReturned] |}
      | _ :: _ => None
      end
  end.

Inductive actor := Worker | Client.

Definition step (a : actor) (st : system) : option system :=
  match a with
  | Worker => worker_step st
  | Client => client_step st
  end.

(** Runs a schedule; [None] when an actor is scheduled that cannot move. *)
Fixpoint run (schedule : list actor) (st : system) : option system :=
  match schedule with
  | [] => Some st
  | a :: rest =>
      match step a st with
      | Some st' => run rest st'
      | None => None
      end
  end.

(** The bus after [set_async_mode(true)], the dispatcher started and the
    client about to run [program]. *)
Definition start (b : bus Payload World) (w : World) (program : list command) : system :=
  {| the_bus := set_async_mode true b;
     the_exec := {| world := w; calls := [] |};
     worker := WWait;
     client := CRun program;
     trace := [] |}.

(** The events of a trace that were published, and those dispatched. *)
Definition published_of (tr : list obs) : list (Event Payload) :=
  omap (fun o => match o with Published ev => Some ev | _ => None end) tr.

Definition dispatched_of (tr : list obs) : list (Event Payload) :=
  omap (fun o => match o with Dispatched ev => Some ev | _ => None end) tr.

(** The event the dispatcher has popped and not dispatched yet. *)
Definition in_flight (pc : worker_pc) : list (Event Payload) :=
  match pc with
  | WDispatch ev => [ev]
  | _ => []
  end.

(** Where every published event is, in asynchronous mode: dispatched, in the
    dispatcher's hands, or in the queue, in this order. *)
Definition conserved (st : system) : Prop :=
  async_mode_ (the_bus st) = true
  /\ published_of (trace st)
     = dispatched_of (trace st) ++ in_flight (worker st) ++ event_queue_ (the_bus st).

(** The first half of [shutdown()]: the flag is set under [queue_mutex_]
    (the caller then notifies and joins the dispatcher). *)
Definition request_shutdown (st : system) : system :=
  {| the_bus :=
       {| handlers_ := handlers_ (the_bus st);
          event_queue_ := event_queue_ (the_bus st);
          worker_joinable := worker_joinable (the_bus st);
          async_mode_ := async_mode_ (the_bus st);
          shutdown_requested_ := true |};
     the_exec := the_exec st;
     worker := worker st;
     client := client st;
     trace := trace st |}.

(** What the handlers do to a queue of events dispatched in order. *)
Definition dispatch_queue (q : list (Event Payload)) (b : bus Payload World)
    (x : exec Payload World) : exec Payload World :=
  fold_left (fun x ev => fst (dispatch_polymorphic_event ev b x)) q x.

(** What the same events do when published one by one in synchronous mode,
    each under its own type. *)
Definition publish_all (q : list (Event Payload)) (b : bus Payload World)
    (x : exec Payload World) : exec Payload World :=
  fold_left (fun x ev => snd (fst (publish (type_id ev) ev b x))) q x.

(** The steps the dispatcher takes to empty a queue it finds when it wakes:
    a pop and a dispatch per event, and the test that ends the inner loop. *)
Definition drain_steps (q : list (Event Payload)) : nat :=
  match q with
  | [] => 0
  | _ :: _ => 2 * length q + 1
  end.

(** Every handler an event of the queue reaches returns or throws a
    [std::exception]. *)
Definition well_behaved (q : list (Event Payload)) (b : bus Payload World) : Prop :=
  Forall (fun ev => Forall (raises_only_std ev) (subscribers (type_id ev) b)) q.

End Threads.

Arguments WWait {Payload}.
Arguments WDispatch {Payload}.
Arguments WRelock {Payload}.
Arguments WDone {Payload}.
Arguments WTerminated {Payload}.
Arguments Publish {Payload}.
Arguments Flush {Payload}.
Arguments CRun {Payload}.
Arguments CInFlush {Payload}.
Arguments Published {Payload}.
Arguments Dispatched {Payload}.
Arguments FlushCalled {Payload}.
Arguments FlushReturned {Payload}.
Arguments mkSystem {Payload World}.
Arguments the_bus {Payload World}.
Arguments the_exec {Payload World}.
Arguments worker {Payload World}.
Arguments client {Payload World}.
Arguments trace {Payload World}.
Arguments worker_step {Payload World}.
Arguments client_step {Payload World}.
Arguments step {Payload World}.
Arguments run {Payload World}.
Arguments start {Payload World}.
Arguments published_of {Payload}.
Arguments dispatched_of {Payload}.
Arguments in_flight {Payload}.
Arguments conserved {Payload World}.
Arguments request_shutdown {Payload World}.
Arguments dispatch_queue {Payload World}.
Arguments publish_all {Payload World}.
Arguments well_behaved {Payload World}.
Arguments drain_steps {Payload}.

End EventBusThreads.

(* ===================================================================== *)
(** ** EventBus.hpp: the threads that wait on [queue_cv_]                 *)
(* ===================================================================== *)

(** The dispatcher and the callers of [flush] wait on the same condition
    variable. [publish] and [shutdown] notify one waiter; nobody notifies
    when the queue becomes empty. Here a blocked thread moves only when it
    is notified or wakes unnotified. *)
Module EventBusWaits.
Import EventBus.

Section Threads.

Variables (Payload World : Type).

(** Where the dispatcher is in [worker_loop]. Every stretch of code under
    [queue_mutex_] is one step. *)
Inductive worker_pc :=
| WTest                               (* about to lock and evaluate the wait
                                         predicate: at the top of the loop, or
                                         woken *)
| WBlocked                            (* blocked inside [queue_cv_.wait] *)
| WDispatch (event : Event Payload)   (* popped and unlocked, about to dispatch *)
| WRelock                             (* dispatched, about to [lock.lock()] *)
| WDone                               (* left the loop: [break] *)
| WTerminated.                        (* a handler's throw left [worker_loop] *)

Inductive command :=
| Publish (EventType : type_index) (event : Event Payload)
| Flush
| Shutdown.

Inductive client_pc :=
| CRun (program : list command)
| CBlocked (program : list command)   (* blocked inside [flush], in [queue_cv_.wait] *)
| CWoken (program : list command)     (* woken inside [flush], about to test again *)
| CJoin (program : list command).     (* inside [shutdown], in [worker_thread_.join()] *)

Inductive thread :=
| Dispatcher
| Client (i : nat).

(** A thread's next step, with the blocked thread its [notify_one] reaches
    if the step notifies, or a thread's waking unnotified, as
    [condition_variable::wait] may. *)
Inductive label :=
| Moves (t : thread) (wake : option thread)
| Spurious (t : thread).

Record system := mkSystem {
  the_bus : bus Payload World;
  the_exec : exec Payload World;
  worker : worker_pc;
  clients : list client_pc;
  dispatched : list (Event Payload)
}.

Definition set_bus (b : bus Payload World) (st : system) : system :=
  {| the_bus := b; the_exec := the_exec st; worker := worker st;
     clients := clients st; dispatched := dispatched st |}.

Definition set_worker (pc : worker_pc) (st : system) : system :=
  {| the_bus := the_bus st; the_exec := the_exec st; worker := pc;
     clients := clients st; dispatched := dispatched st |}.

Definition set_client (i : nat) (pc : client_pc) (st : system) : system :=
  {| the_bus := the_bus st; the_exec := the_exec st; worker := worker st;
     clients := <[i := pc]> (clients st); dispatched := dispatched st |}.

Definition pop_queue (b : bus Payload World) : bus Payload World :=
  {| handlers_ := handlers_ b;
     event_queue_ := tail (event_queue_ b);
     worker_joinable := worker_joinable b;
     async_mode_ := async_mode_ b;
     shutdown_requested_ := shutdown_requested_ b |}.

Definition request (b : bus Payload World) : bus Payload World :=
  {| handlers_ := handlers_ b;
     event_queue_ := event_queue_ b;
     worker_joinable := worker_joinable b;
     async_mode_ := async_mode_ b;
     shutdown_requested_ := true |}.

(** The threads blocked on [queue_cv_]. *)
Definition client_blocked (pc : client_pc) : bool :=
  match pc with
  | CBlocked _ => true
  | _ => false
  end.

Definition worker_blocked (pc : worker_pc) : bool :=
  match pc with
  | WBlocked => true
  | _ => false
  end.

Definition anyone_blocked (st : system) : bool :=
  worker_blocked (worker st) || existsb client_blocked (clients st).

(** [queue_cv_.notify_one()]: one blocked thread is woken, [wake] says
    which; with nobody blocked the notification is lost. *)
Definition notify_one (wake : option thread) (st : system) : option system :=
  match wake with
  | None => if anyone_blocked st then None else Some st
  | Some Dispatcher =>
      match worker st with
      | WBlocked => Some (set_worker WTest st)
      | _ => None
      end
  | Some (Client i) =>
      match clients st !! i with
      | Some (CBlocked rest) => Some (set_client i (CWoken rest) st)
      | _ => None
      end
  end.

(** A step that does not notify carries no [wake]. *)
Definition quiet (wake : option thread) (st : system) : option system :=
  match wake with
  | None => Some st
  | Some _ => None
  end.

Definition worker_step (wake : option thread) (st : system) : option system :=
  let b := the_bus st in
  match worker st with
  | WTest =>
      (* [!event_queue_.empty() || shutdown_requested_] *)
      match event_queue_ b with
      | [] =>
          if shutdown_requested_ b then quiet wake (set_worker WDone st)
          else quiet wake (set_worker WBlocked st)
      | event :: _ => quiet wake (set_worker (WDispatch event) (set_bus (pop_queue b) st))
      end
  | WDispatch event =>
      let '(x', r) := dispatch_polymorphic_event event b (the_exec st) in
      quiet wake
        {| the_bus := b; the_exec := x';
           worker := match r with None => WRelock | Some _ => WTerminated end;
           clients := clients st;
           dispatched := dispatched st ++ [event] |}
  | WRelock =>
      (* the test of [while (!event_queue_.empty())] *)
      match event_queue_ b with
      | [] => quiet wake (set_worker WTest st)
      | event :: _ => quiet wake (set_worker (WDispatch event) (set_bus (pop_queue b) st))
      end
  | WBlocked | WDone | WTerminated => None
  end.

Definition client_step (i : nat) (wake : option thread) (st : system) : option system :=
  let b := the_bus st in
  match clients st !! i with
  | Some (CRun (Publish EventType event :: rest)) =>
      if async_mode_ b then
        notify_one wake
          (set_client i (CRun rest)
             (set_bus (fst (fst (publish EventType event b (the_exec st)))) st))
      else
        let '(b', x', r) := publish EventType event b (the_exec st) in
        quiet wake
          {| the_bus := b'; the_exec := x'; worker := worker st;
             clients := <[i := CRun (match r with None => rest | Some _ => [] end)]>
                          (clients st);
             dispatched := dispatched st |}
  | Some (CRun (Flush :: rest)) =>
      if negb (async_mode_ b) then quiet wake (set_client i (CRun rest) st)
      else
        (* [queue_cv_.wait(lock, [this] { return event_queue_.empty(); })] *)
        match event_queue_ b with
        | [] => quiet wake (set_client i (CRun rest) st)
        | _ :: _ => quiet wake (set_client i (CBlocked rest) st)
        end
  | Some (CWoken rest) =>
      match event_queue_ b with
      | [] => quiet wake (set_client i (CRun rest) st)
      | _ :: _ => quiet wake (set_client i (CBlocked rest) st)
      end
  | Some (CRun (Shutdown :: rest)) =>
      notify_one wake (set_client i (CJoin rest) (set_bus (request b) st))
  | Some (CJoin rest) =>
      match worker st with
      | WDone | WTerminated => quiet wake (set_client i (CRun rest) st)
      | _ => None
      end
  | Some (CRun []) | Some (CBlocked _) | None => None
  end.

Definition step (l : label) (st : system) : option system :=
  match l with
  | Moves Dispatcher wake => worker_step wake st
  | Moves (Client i) wake => client_step i wake st
  | Spurious Dispatcher =>
      match worker st with
      | WBlocked => Some (set_worker WTest st)
      | _ => None
      end
  | Spurious (Client i) =>
      match clients st !! i with
      | Some (CBlocked rest) => Some (set_client i (CWoken rest) st)
      | _ => None
      end
  end.

Fixpoint run (schedule : list label) (st : system) : option system :=
  match schedule with
  | [] => Some st
  | l :: rest =>
      match step l st with
      | Some st' => run rest st'
      | None => None
      end
  end.

(** The bus after [set_async_mode(true)], the dispatcher just started, and
    one client thread per program. *)
Definition start (b : bus Payload World) (w : World) (programs : list (list command))
  : system :=
  {| the_bus := set_async_mode true b;
     the_exec := {| world := w; calls := [] |};
     worker := WTest;
     clients := map CRun programs;
     dispatched := [] |}.

(** Everybody sleeps: the dispatcher is blocked in its wait, and every
    client is blocked inside [flush] or has finished its program. *)
Definition all_asleep (st : system) : Prop :=
  worker st = WBlocked
  /\ Forall (fun pc => (exists rest, pc = CBlocked rest) \/ pc = CRun []) (clients st).

End Threads.

Arguments WTest {Payload}.
Arguments WBlocked {Payload}.
Arguments WDispatch {Payload}.
Arguments WRelock {Payload}.
Arguments WDone {Payload}.
Arguments WTerminated {Payload}.
Arguments Publish {Payload}.
Arguments Flush {Payload}.
Arguments Shutdown {Payload}.
Arguments CRun {Payload}.
Arguments CBlocked {Payload}.
Arguments CWoken {Payload}.
Arguments CJoin {Payload}.
Arguments mkSystem {Payload World}.
Arguments the_bus {Payload World}.
Arguments the_exec {Payload World}.
Arguments worker {Payload World}.
Arguments clients {Payload World}.
Arguments dispatched {Payload World}.
Arguments step {Payload World}.
Arguments run {Payload World}.
Arguments start {Payload World}.
Arguments all_asleep {Payload World}.

End EventBusWaits.

(* ===================================================================== *)
(** ** MemoryPool.hpp: [LockFreeMemoryPool<T>]                            *)
(* ===================================================================== *)

(** Threads run [allocate] and [deallocate] against one atomic [head_]. A
    step is one access to shared memory (a load, a store, a
    compare-exchange, [new Node]) together with the local work up to the
    next access; steps of different threads interleave freely, which is an
    execution the C++ memory model allows for atomics. *)
Module LockFreeMemoryPool.

Definition node := N.
Definition ptr := N.
Definition nullptr : N := 0%N.
Definition tid := nat.

(** [head_] and the [next] field of every node made so far. *)
Record memory := mkMemory {
  head_ : node;
  next_ : gmap node node
}.

(** Where a thread is inside a member function, with its locals. *)
Inductive pc :=
| Idle
| ALoad                              (* [allocate]: before [head_.load] *)
| ALoop (old_head : node)            (* before the test of the [while] *)
| ACas (old_head desired : node)     (* [old_head->next] read, before the exchange *)
| DLoad (nd : node)                  (* [deallocate]: before [head_.load] *)
| DStore (nd old_head : node)        (* before [node->next.store(old_head)] *)
| DCas (nd old_head : node).         (* before the exchange *)

Record state := mkState {
  mem : memory;
  threads : gmap tid pc;
  live : list ptr     (* allocations returned and not yet passed to [deallocate] *)
}.

Inductive label :=
| CallAllocate (t : tid)
| CallDeallocate (t : tid) (p : ptr)
| Next (t : tid)                     (* the thread's next access *)
| NextNew (t : tid) (fresh : node)   (* ... which is [new Node], answering [fresh] *)
| NextSpurious (t : tid).            (* ... a weak exchange that fails for no reason *)

(** Removes the first occurrence of [p]. *)
Fixpoint remove_one (p : ptr) (l : list ptr) : list ptr :=
  match l with
  | [] => []
  | q :: l' => if (p =? q)%N then l' else q :: remove_one p l'
  end.

Definition is_in (p : ptr) (l : list ptr) : bool := existsb (N.eqb p) l.

Section Pool.

(** [offsetof(Node, data)] *)
Variable data_offset : N.

(** [reinterpret_cast<T*>(old_head->data)] *)
Definition data_of (nd : node) : ptr := (nd + data_offset)%N.

(** [reinterpret_cast<Node*>(reinterpret_cast<char*>(ptr) - offsetof(Node, data))] *)
Definition node_of (p : ptr) : node := (p - data_offset)%N.

Definition pc_of (t : tid) (st : state) : pc := default Idle (threads st !! t).

Definition set_pc (t : tid) (c : pc) (st : state) : state :=
  {| mem := mem st; threads := <[t := c]> (threads st); live := live st |}.

Definition set_head (h : node) (m : memory) : memory :=
  {| head_ := h; next_ := next_ m |}.

Definition set_next (nd nx : node) (m : memory) : memory :=
  {| head_ := head_ m; next_ := <[nd := nx]> (next_ m) |}.

(** The constructor: every [new Node] is pushed in front; nobody else can
    see the pool yet, so each exchange finds the head it expects. [nodes]
    are the addresses [new] answers, one per iteration. *)
Definition LockFreeMemoryPool (nodes : list node) : state :=
  {| mem := fold_left (fun m nd => set_head nd (set_next nd (head_ m) m)) nodes
                      {| head_ := nullptr; next_ := ∅ |};
     threads := ∅;
     live := [] |}.

Definition step (l : label) (st : state) : option state :=
  let m := mem st in
  match l with
  | CallAllocate t =>
      match pc_of t st with
      | Idle => Some (set_pc t ALoad st)
      | _ => None
      end
  | CallDeallocate t p =>
      match pc_of t st with
      | Idle =>
          if (p =? nullptr)%N then Some st
          else if is_in p (live st) then
            Some {| mem := m; threads := <[t := DLoad (node_of p)]> (threads st);
                    live := remove_one p (live st) |}
          else None
      | _ => None
      end
  | Next t =>
      match pc_of t st with
      | Idle => None
      | ALoad => Some (set_pc t (ALoop (head_ m)) st)
      | ALoop old_head =>
          if (old_head =? nullptr)%N then None
          else
            match next_ m !! old_head with
            | Some nx => Some (set_pc t (ACas old_head nx) st)
            | None => None
            end
      | ACas old_head desired =>
          if (head_ m =? old_head)%N then
            Some {| mem := set_head desired m;
                    threads := <[t := Idle]> (threads st);
                    live := live st ++ [data_of old_head] |}
          else Some (set_pc t (ALoop (head_ m)) st)
      | DLoad nd => Some (set_pc t (DStore nd (head_ m)) st)
      | DStore nd old_head =>
          Some {| mem := set_next nd old_head m;
                  threads := <[t := DCas nd old_head]> (threads st);
                  live := live st |}
      | DCas nd old_head =>
          if (head_ m =? old_head)%N then
            Some {| mem := set_head nd m;
                    threads := <[t := Idle]> (threads st);
                    live := live st |}
          else Some (set_pc t (DStore nd (head_ m)) st)
      end
  | NextNew t fresh =>
      match pc_of t st with
      | ALoop old_head =>
          if (old_head =? nullptr)%N
             && negb (fresh =? nullptr)%N
             && bool_decide (next_ m !! fresh = None)
          then Some {| mem := set_next fresh nullptr m;
                       threads := <[t := Idle]> (threads st);
                       live := live st ++ [data_of fresh] |}
          else None
      | _ => None
      end
  | NextSpurious t =>
      match pc_of t st with
      | ACas old_head desired =>
          if (head_ m =? old_head)%N then Some (set_pc t (ALoop old_head) st) else None
      | DCas nd old_head =>
          if (head_ m =? old_head)%N then Some (set_pc t (DStore nd old_head) st) else None
      | _ => None
      end
  end.

Fixpoint run (schedule : list label) (st : state) : option state :=
  match schedule with
  | [] => Some st
  | l :: rest =>
      match step l st with
      | Some st' => run rest st'
      | None => None
      end
  end.

(** One whole call by thread [t] with no other thread moving. *)
Definition allocate_alone (t : tid) : list label :=
  [CallAllocate t; Next t; Next t; Next t].
Definition deallocate_alone (t : tid) (p : ptr) : list label :=
  [CallDeallocate t p; Next t; Next t; Next t].

(** *** Calls that do not overlap

    A request is one whole call by one thread, run to its end before the
    next request starts. [fresh] is what [new Node] answers if the call
    finds the freelist empty. *)
Inductive request :=
| Allocate (t : tid) (fresh : node)
| Deallocate (t : tid) (p : ptr).

Definition whole_call (r : request) (st : state) : list label :=
  match r with
  | Allocate t fresh =>
      if (head_ (mem st) =? nullptr)%N
      then [CallAllocate t; Next t; NextNew t fresh]
      else allocate_alone t
  | Deallocate t p =>
      if (p =? nullptr)%N then [CallDeallocate t p] else deallocate_alone t p
  end.

Fixpoint serve (rs : list request) (st : state) : option state :=
  match rs with
  | [] => Some st
  | r :: rest =>
      match run (whole_call r st) st with
      | Some st' => serve rest st'
      | None => None
      end
  end.

(** The freelist as a list: following [next] from [h] visits the nodes of
    [fl] and ends at the null pointer. *)
Inductive chain (nx : gmap node node) : node -> list node -> Prop :=
| chain_nil : chain nx nullptr []
| chain_cons h h' fl :
    h <> nullptr -> nx !! h = Some h' -> chain nx h' fl -> chain nx h (h :: fl).

(** The state between calls: no thread is inside a call, the freelist is a
    chain [fl], the live allocations are the data of nodes [held], and no
    node is twice in [fl] and [held] together. *)
Definition quiescent (st : state) : Prop :=
  (forall t, pc_of t st = Idle)
  /\ exists fl held,
       chain (next_ (mem st)) (head_ (mem st)) fl
       /\ live st = map data_of held
       /\ NoDup (fl ++ held)
       /\ Forall (fun n => n <> nullptr /\ is_Some (next_ (mem st) !! n)) held.

End Pool.

End LockFreeMemoryPool.

(* ===================================================================== *)
(** ** Logger.hpp: [Logger]                                               *)
(* ===================================================================== *)

Module Logger.

Local Open Scope string_scope.

Inductive LogLevel := TRACE | DEBUG | INFO | WARN | ERROR | FATAL.

(** The underlying [int] of the enumeration. *)
Definition level_value (l : LogLevel) : nat :=
  match l with
  | TRACE => 0 | DEBUG => 1 | INFO => 2 | WARN => 3 | ERROR => 4 | FATAL => 5
  end.

(** [level_to_string] *)
Definition level_to_string (l : LogLevel) : string :=
  match l with
  | TRACE => "TRACE" | DEBUG => "DEBUG" | INFO => "INFO"
  | WARN => "WARN" | ERROR => "ERROR" | FATAL => "FATAL"
  end.

(** [thread_id] is the text the stream prints for the caller's
    [std::thread::id]. The [timestamp] member is never read by the logger
    and is left out. *)
Record LogMessage := mkMessage {
  level : LogLevel;
  message : string;
  file : string;
  line : Z;
  thread_id : string
}.

(** Where a formatted line went. *)
Inductive sink :=
| ToFile (filename : string)
| ToConsole.

(** [is_open] is [file_stream_.is_open()]; [written] is everything the
    background thread has put out, oldest first. *)
Record logger := mkLogger {
  min_level_ : LogLevel;
  log_queue_ : list LogMessage;
  stop_requested_ : bool;
  output_file_ : string;
  is_open : bool;
  written : list (sink * string)
}.

(** [Logger() : min_level_(LogLevel::INFO), stop_requested_(false)] *)
Definition new_logger : logger :=
  {| min_level_ := INFO; log_queue_ := []; stop_requested_ := false;
     output_file_ := EmptyString; is_open := false; written := [] |}.

(** [set_level(level)] *)
Definition set_level (l : LogLevel) (s : logger) : logger :=
  {| min_level_ := l; log_queue_ := log_queue_ s;
     stop_requested_ := stop_requested_ s; output_file_ := output_file_ s;
     is_open := is_open s; written := written s |}.

(** [set_output_file(filename)]; [opens] tells whether the file could be
    opened. *)
Definition set_output_file (filename : string) (opens : bool) (s : logger) : logger :=
  {| min_level_ := min_level_ s; log_queue_ := log_queue_ s;
     stop_requested_ := stop_requested_ s; output_file_ := filename;
     is_open := opens; written := written s |}.

(** [log(level, message, file, line)] called by the thread [tid]. *)
Definition log (l : LogLevel) (msg fl : string) (ln : Z) (tid : string)
    (s : logger) : logger :=
  if (level_value l <? level_value (min_level_ s))%nat then s
  else
    {| min_level_ := min_level_ s;
       log_queue_ := log_queue_ s
                     ++ [{| level := l; message := msg; file := fl; line := ln;
                            thread_id := tid |}];
       stop_requested_ := stop_requested_ s; output_file_ := output_file_ s;
       is_open := is_open s; written := written s |}.

(** The first half of [stop()]. *)
Definition request_stop (s : logger) : logger :=
  {| min_level_ := min_level_ s; log_queue_ := log_queue_ s;
     stop_requested_ := true; output_file_ := output_file_ s;
     is_open := is_open s; written := written s |}.

(** The text [write_message] builds; [now] is what [std::put_time] prints
    for the clock at the moment of writing. *)
Definition format (now : string) (msg : LogMessage) : string :=
  now ++ " " ++ "[" ++ level_to_string (level msg) ++ "] "
      ++ "[" ++ thread_id msg ++ "] "
      ++ message msg
      ++ " (" ++ file msg ++ ":" ++ Config.show_int (line msg) ++ ")"
      ++ String Config.newline EmptyString.

(** [write_message(msg)] *)
Definition write_message (now : string) (msg : LogMessage) (s : logger) : logger :=
  {| min_level_ := min_level_ s; log_queue_ := log_queue_ s;
     stop_requested_ := stop_requested_ s; output_file_ := output_file_ s;
     is_open := is_open s;
     written := written s
                ++ [(if is_open s then ToFile (output_file_ s) else ToConsole,
                     format now msg)] |}.

(** One message's worth of [background_worker]: pop the front, write it. *)
Inductive turn :=
| Blocked
| Exits
| Wrote (s : logger).

Definition worker_turn (now : string) (s : logger) : turn :=
  match log_queue_ s with
  | [] => if stop_requested_ s then Exits else Blocked
  | msg :: rest =>
      Wrote (write_message now msg
               {| min_level_ := min_level_ s; log_queue_ := rest;
                  stop_requested_ := stop_requested_ s;
                  output_file_ := output_file_ s; is_open := is_open s;
                  written := written s |})
  end.

(** What happens to a logger, step by step: calls by client threads and
    turns of the background thread, in any order. *)
Inductive action :=
| Log (l : LogLevel) (msg fl : string) (ln : Z) (tid : string)
| SetLevel (l : LogLevel)
| SetOutputFile (filename : string) (opens : bool)
| Turn (now : string).

Definition act (a : action) (s : logger) : logger :=
  match a with
  | Log l msg fl ln tid => log l msg fl ln tid s
  | SetLevel l => set_level l s
  | SetOutputFile filename opens => set_output_file filename opens s
  | Turn now =>
      match worker_turn now s with
      | Wrote s' => s'
      | Blocked | Exits => s
      end
  end.

Definition run (actions : list action) (s : logger) : logger :=
  fold_left (fun s a => act a s) actions s.

(** The messages of the calls that pass the level filter, the level being
    the one set at the time of each call. *)
Fixpoint accepted (min_level : LogLevel) (actions : list action) : list LogMessage :=
  match actions with
  | [] => []
  | Log l msg fl ln tid :: rest =>
      if (level_value l <? level_value min_level)%nat then accepted min_level rest
      else {| level := l; message := msg; file := fl; line := ln; thread_id := tid |}
           :: accepted min_level rest
  | SetLevel l :: rest => accepted l rest
  | _ :: rest => accepted min_level rest
  end.

(** The level after the actions. *)
Definition level_after (min_level : LogLevel) (actions : list action) : LogLevel :=
  fold_left (fun lv a => match a with SetLevel l => l | _ => lv end) actions min_level.

(** The messages behind the lines written: a line is the format of its
    message at some clock text. *)
Definition written_as (lines : list (sink * string)) (msgs : list LogMessage) : Prop :=
  Forall2 (fun ln msg => exists now, snd ln = format now msg) lines msgs.

#[global] Instance LogLevel_eq_dec : EqDecision LogLevel.
Proof. solve_decision. Defined.

#[global] Instance LogMessage_eq_dec : EqDecision LogMessage.
Proof. solve_decision. Defined.

(** *** The threads, step by step

    [log] tests the level without a lock and takes [queue_mutex_] only to
    push; [background_worker] releases [queue_mutex_] between
    [log_queue_.pop()] and the call of [write_message]. So a message can be
    in a caller's hands (tested, not pushed yet) or in the background
    thread's hands (popped, not written yet), and other calls can come in
    meanwhile. *)
Record hands := mkHands {
  held : option LogMessage;     (* popped by the background thread, not yet written *)
  pending : list LogMessage     (* passed the level test, not yet pushed *)
}.

Inductive move :=
| Calls (a : action)              (* [set_level], [set_output_file], or the level
                                     test that opens a [log] call *)
| Pushes (i : nat) (msg : LogMessage)
                                  (* the [i]-th pending call locks and pushes *)
| Pops                            (* the thread takes the front message and unlocks *)
| Writes (now : string).          (* the thread writes the message it holds *)

(** One move; [None] when the move cannot be made. *)
Definition step (m : move) (st : logger * hands) : option (logger * hands) :=
  let '(s, h) := st in
  match m with
  | Calls (Log l msg fl ln tid) =>
      if (level_value l <? level_value (min_level_ s))%nat then Some (s, h)
      else Some (s, {| held := held h;
                       pending := pending h
                                  ++ [{| level := l; message := msg; file := fl;
                                         line := ln; thread_id := tid |}] |})
  | Calls (SetLevel l) => Some (set_level l s, h)
  | Calls (SetOutputFile filename opens) => Some (set_output_file filename opens s, h)
  | Calls (Turn _) => None
  | Pushes i msg =>
      if bool_decide (pending h !! i = Some msg) then
        Some ({| min_level_ := min_level_ s; log_queue_ := log_queue_ s ++ [msg];
                 stop_requested_ := stop_requested_ s;
                 output_file_ := output_file_ s; is_open := is_open s;
                 written := written s |},
              {| held := held h; pending := delete i (pending h) |})
      else None
  | Pops =>
      match held h, log_queue_ s with
      | None, msg :: rest =>
          Some ({| min_level_ := min_level_ s; log_queue_ := rest;
                   stop_requested_ := stop_requested_ s;
                   output_file_ := output_file_ s; is_open := is_open s;
                   written := written s |},
                {| held := Some msg; pending := pending h |})
      | _, _ => None
      end
  | Writes now =>
      match held h with
      | Some msg => Some (write_message now msg s, {| held := None; pending := pending h |})
      | None => None
      end
  end.

Fixpoint steps (ms : list move) (st : logger * hands) : option (logger * hands) :=
  match ms with
  | [] => Some st
  | m :: rest =>
      match step m st with
      | Some st' => steps rest st'
      | None => None
      end
  end.

(** The client calls among the moves, and the messages pushed, in order. *)
Definition calls_of (ms : list move) : list action :=
  omap (fun m => match m with Calls a => Some a | _ => None end) ms.

Definition pushes_of (ms : list move) : list LogMessage :=
  omap (fun m => match m with Pushes _ msg => Some msg | _ => None end) ms.

Definition idle : hands := {| held := None; pending := [] |}.

End Logger.

(* ===================================================================== *)
(** ** Concrete buses, pools and schedules used in examples               *)
(* ===================================================================== *)

Module Examples.

Import EventBus.

(** Events carry a number; the world is the list of numbers the recording
    handlers have seen. *)
Definition event (EventType : type_index) (n : nat) : Event nat :=
  {| timestamp := 0%N; type_id := EventType; payload := n |}.

Definition recording (id : nat) : IEventHandler nat (list nat) :=
  {| handler_id := id; handle := fun ev w => (w ++ [payload ev], None) |}.

(** [throw std::runtime_error("boom");] *)
Definition throwing_exception (id : nat) : IEventHandler nat (list nat) :=
  {| handler_id := id; handle := fun ev w => (w, Some (std_exception "boom")) |}.

(** [throw 42;] *)
Definition throwing_int (id : nat) : IEventHandler nat (list nat) :=
  {| handler_id := id; handle := fun ev w => (w, Some (other_value 42)) |}.

Definition nothing_yet : exec nat (list nat) := {| world := []; calls := [] |}.

(** Two subscribers of type 0: the first throws, the second records. *)
Definition bus_exception_first : bus nat (list nat) :=
  subscribe 0 (recording 2) (subscribe 0 (throwing_exception 1) new_bus).

Definition bus_int_first : bus nat (list nat) :=
  subscribe 0 (recording 2) (subscribe 0 (throwing_int 1) new_bus).

(** One recording subscriber of type 0. *)
Definition bus_recording : bus nat (list nat) := subscribe 0 (recording 1) new_bus.

Import EventBusThreads.

(** Publish three events, then flush. *)
Definition publish_three_then_flush : list (command nat) :=
  [Publish 0 (event 0 1); Publish 0 (event 0 2); Publish 0 (event 0 3); Flush].

(** The client publishes all three; the dispatcher pops and dispatches the
    first two and pops the third; then the client calls [flush]. *)
Definition flush_overtakes_dispatch : list actor :=
  [Client; Client; Client; Worker; Worker; Worker; Worker; Worker; Client].

(** Two events of type 0, and the dispatcher waiting with both queued on a
    bus whose first subscriber throws and whose second records. *)
Definition two_queued : list (Event nat) := [event 0 1; event 0 2].

Definition waiting_with_two_queued : system nat (list nat) :=
  {| the_bus := {| handlers_ := handlers_ bus_exception_first;
                   event_queue_ := two_queued;
                   worker_joinable := true;
                   async_mode_ := true;
                   shutdown_requested_ := false |};
     the_exec := nothing_yet;
     worker := WWait;
     client := CRun [];
     trace := [] |}.

(** A subscriber of type 0 and a subscriber of type 1. *)
Definition bus_two_types : bus nat (list nat) :=
  subscribe 1 (recording 2) (subscribe 0 (recording 1) new_bus).

(** Three tasks on a counter: the first returns the counter and advances
    it, the second throws, the third returns the counter and adds ten. *)
Definition three_tasks : list (ThreadPool.callable nat nat) :=
  [fun w => (S w, ThreadPool.Returns w);
   fun w => (w, ThreadPool.Throws (ThreadPool.task_exception 7));
   fun w => (w + 10, ThreadPool.Returns w)].

Import LockFreeMemoryPool.

(** Thread 1 reads the head and its [next] and is then overtaken by thread
    2, which allocates both nodes and gives the first one back; thread 1's
    exchange still succeeds and puts the second node, which thread 2 holds,
    at the head; the next allocate hands it out again. *)
Definition aba_schedule : list label :=
  [CallAllocate 1; Next 1; Next 1]
  ++ allocate_alone 2 ++ allocate_alone 2 ++ deallocate_alone 2 136%N
  ++ [Next 1]
  ++ allocate_alone 1.

(** One client publishes two events and calls [flush]. The dispatcher has
    popped the first when the second arrives, so nobody is waiting for that
    notification; the client blocks in [flush] on the second event; the
    dispatcher dispatches both and goes to sleep. *)
Definition publish_two_then_flush : list (EventBusWaits.command nat) :=
  [EventBusWaits.Publish 0 (event 0 1); EventBusWaits.Publish 0 (event 0 2);
   EventBusWaits.Flush].

Definition flush_sleeps_on : list EventBusWaits.label :=
  [EventBusWaits.Moves EventBusWaits.Dispatcher None;
   EventBusWaits.Moves (EventBusWaits.Client 0) (Some EventBusWaits.Dispatcher);
   EventBusWaits.Moves EventBusWaits.Dispatcher None;
   EventBusWaits.Moves (EventBusWaits.Client 0) None;
   EventBusWaits.Moves (EventBusWaits.Client 0) None;
   EventBusWaits.Moves EventBusWaits.Dispatcher None;
   EventBusWaits.Moves EventBusWaits.Dispatcher None;
   EventBusWaits.Moves EventBusWaits.Dispatcher None;
   EventBusWaits.Moves EventBusWaits.Dispatcher None;
   EventBusWaits.Moves EventBusWaits.Dispatcher None].

(** A second client publishes a third event while the first is blocked in
    [flush] and the dispatcher sleeps: the notification goes to the
    flusher, which finds the queue not empty and blocks again. *)
Definition publish_one : list (EventBusWaits.command nat) :=
  [EventBusWaits.Publish 0 (event 0 3)].

Definition flusher_takes_the_wakeup : list EventBusWaits.label :=
  flush_sleeps_on
  ++ [EventBusWaits.Moves (EventBusWaits.Client 1) (Some (EventBusWaits.Client 0));
      EventBusWaits.Moves (EventBusWaits.Client 0) None].

End Examples.

(* ===================================================================== *)
(** * Properties                                                          *)
(* ===================================================================== *)

(** ** MemoryPool *)

Section MemoryPoolFacts.

Import MemoryPool.

Variables (BlockSize sizeofT : nat).

Local Abbreviation opb := (objects_per_block_ BlockSize sizeofT).
Local Abbreviation allocate_block := (MemoryPool.allocate_block BlockSize sizeofT).
Local Abbreviation allocate := (MemoryPool.allocate BlockSize sizeofT).
Local Abbreviation construct := (MemoryPool.construct BlockSize sizeofT).
Local Abbreviation capacity := (MemoryPool.capacity BlockSize sizeofT).
Local Abbreviation MemoryPool := (MemoryPool.MemoryPool BlockSize sizeofT).
Local Abbreviation step := (MemoryPool.step BlockSize sizeofT).
Local Abbreviation reachable := (MemoryPool.reachable BlockSize sizeofT).
Local Abbreviation accounted := (MemoryPool.accounted BlockSize sizeofT).

Lemma push_slots_app b i n fl :
  push_slots sizeofT b i n fl = fl ++ push_slots sizeofT b i n [].
Proof.
  revert i fl. induction n as [|n IH]; intros i fl; simpl.
  - by rewrite app_nil_r.
  - rewrite (IH (S i) (fl ++ _)), (IH (S i) [_]). by rewrite <- app_assoc.
Qed.

Lemma length_push_slots b i n fl :
  length (push_slots sizeofT b i n fl) = length fl + n.
Proof.
  revert i fl. induction n as [|n IH]; intros i fl; simpl; [lia|].
  rewrite IH, length_app. simpl. lia.
Qed.

Lemma push_slots_nonnull b i n fl :
  b <> nullptr -> Forall (fun p => p <> nullptr) fl ->
  Forall (fun p => p <> nullptr) (push_slots sizeofT b i n fl).
Proof.
  intros Hb. revert i fl. induction n as [|n IH]; intros i fl Hfl; simpl; [done|].
  apply IH. apply Forall_app; split; [done|].
  constructor; [|constructor]. unfold slot, nullptr in *. lia.
Qed.

Lemma pop_back_spec (l : list ptr) p :
  last l = Some p -> l = removelast l ++ [p].
Proof.
  intros H. apply last_Some in H as [l' ->]. by rewrite removelast_last.
Qed.

Lemma last_nonempty (l : list ptr) : l <> [] -> exists p, last l = Some p.
Proof.
  intros H. destruct (last l) as [p|] eqn:E; [eauto|].
  apply last_None in E. contradiction.
Qed.

Lemma In_remove_one_length p (l : list ptr) :
  In p l -> S (length (remove_one p l)) = length l.
Proof.
  induction l as [|q l IH]; simpl; [done|].
  intros [->|H].
  - by rewrite N.eqb_refl.
  - destruct (p =? q)%N; [done|]. simpl. by rewrite IH.
Qed.

Lemma remove_one_subset p (l : list ptr) q : In q (remove_one p l) -> In q l.
Proof.
  induction l as [|r l IH]; simpl; [done|].
  destruct (p =? r)%N; simpl; tauto.
Qed.

(** What [allocate_block] does when the system has memory. *)
Lemma allocate_block_grows block s :
  block <> nullptr ->
  exists s', allocate_block block s = (Returns tt, s')
    /\ blocks_ s' = blocks_ s ++ [block]
    /\ capacity s' = capacity s + opb
    /\ available s' = available s + opb.
Proof.
  intros Hb. unfold MemoryPool.allocate_block.
  destruct (N.eqb_spec block nullptr) as [|_]; [done|].
  eexists; split; [reflexivity|]. unfold MemoryPool.capacity, available; simpl.
  rewrite length_app, length_push_slots. simpl. repeat split; lia.
Qed.

(** [allocate] with slots at hand: the last slot of the freelist. *)
Lemma allocate_from_freelist block s :
  free_list_ s <> [] ->
  exists p, last (free_list_ s) = Some p
    /\ allocate block s =
       (Returns p, {| blocks_ := blocks_ s; free_list_ := removelast (free_list_ s) |}).
Proof.
  intros Hne. destruct (last_nonempty _ Hne) as [p Hp]. exists p. split; [done|].
  unfold MemoryPool.allocate. destruct (free_list_ s) eqn:E; [done|].
  rewrite E. by rewrite Hp.
Qed.

(** [allocate] with an empty freelist and no memory. *)
Lemma allocate_bad_alloc s :
  free_list_ s = [] -> allocate nullptr s = (Throws bad_alloc, s).
Proof. intros E. unfold MemoryPool.allocate. by rewrite E. Qed.

(** [allocate] with an empty freelist: one block more, one of its slots
    handed out. *)
Lemma allocate_grows block s :
  0 < opb -> free_list_ s = [] -> block <> nullptr ->
  exists p s', allocate block s = (Returns p, s')
    /\ blocks_ s' = blocks_ s ++ [block]
    /\ free_list_ s' ++ [p] = push_slots sizeofT block 0 opb [].
Proof.
  intros Hopb E Hb. unfold MemoryPool.allocate, MemoryPool.allocate_block. rewrite E.
  destruct (N.eqb_spec block nullptr) as [|_]; [done|]. simpl.
  assert (Hne : push_slots sizeofT block 0 opb [] <> []).
  { intros H. apply (f_equal length) in H. rewrite length_push_slots in H. simpl in H. lia. }
  destruct (last_nonempty _ Hne) as [p Hp]. rewrite Hp.
  eexists p, _. split; [reflexivity|]. simpl. split; [done|].
  symmetry. by apply pop_back_spec.
Qed.

(** The outcomes of [allocate], case by case. *)
Lemma allocate_cases block s r s' :
  allocate block s = (r, s') ->
  (free_list_ s <> [] /\ exists p, r = Returns p /\ blocks_ s' = blocks_ s
      /\ free_list_ s = free_list_ s' ++ [p])
  \/ (free_list_ s = [] /\ block = nullptr /\ r = Throws bad_alloc /\ s' = s)
  \/ (free_list_ s = [] /\ block <> nullptr /\ opb = 0 /\ r = Undefined)
  \/ (free_list_ s = [] /\ block <> nullptr /\ 0 < opb /\ exists p, r = Returns p
      /\ blocks_ s' = blocks_ s ++ [block]
      /\ free_list_ s' ++ [p] = push_slots sizeofT block 0 opb []).
Proof.
  intros H. destruct (free_list_ s) as [|q fl] eqn:E.
  - destruct (N.eqb_spec block nullptr) as [->|Hb].
    + rewrite allocate_bad_alloc in H by done. inversion H; subst. right; left. done.
    + destruct (Nat.eq_dec opb 0) as [Hz|Hnz].
      * right; right; left. repeat split; try done.
        unfold MemoryPool.allocate, MemoryPool.allocate_block in H. rewrite E in H.
        destruct (N.eqb_spec block nullptr) as [|_]; [done|]. simpl in H.
        rewrite Hz in H. simpl in H. by inversion H.
      * right; right; right. assert (Hpos : 0 < opb) by lia.
        destruct (allocate_grows block s Hpos E Hb) as (p & s1 & Ha & Hbl & Hfl).
        rewrite Ha in H. inversion H; subst. repeat split; try done. eauto.
  - left. assert (Hne : free_list_ s <> []) by (by rewrite E).
    split; [done|]. destruct (allocate_from_freelist block s Hne) as (p & Hp & Ha).
    rewrite Ha in H. inversion H; subst. exists p. simpl. repeat split; try done.
    rewrite <- E. by apply pop_back_spec.
Qed.

Lemma deallocate_live p s :
  p <> nullptr ->
  deallocate p s = {| blocks_ := blocks_ s; free_list_ := free_list_ s ++ [p] |}.
Proof. intros H. unfold deallocate. by destruct (N.eqb_spec p nullptr). Qed.

Lemma accounted_allocate block s live p s' :
  accounted (s, live) -> allocate block s = (Returns p, s') ->
  accounted (s', p :: live).
Proof.
  intros (Hc & Hf & Hl) Ha. unfold MemoryPool.accounted in *; simpl in *.
  apply allocate_cases in Ha
    as [(Hne & q & [= <-] & Hb & Hfl)|[(_ & _ & [=] & _)|[(_ & _ & _ & [=])
       |(E & Hb & Hpos & q & [= <-] & Hbl & Hfl)]]].
  - unfold available, MemoryPool.capacity in *. rewrite Hfl, length_app in Hc.
    rewrite Hfl in Hf. apply Forall_app in Hf as [Hf1 Hf2].
    inversion Hf2; subst. rewrite Hb. simpl in *. repeat split; [lia|done|by constructor].
  - assert (Hall : Forall (fun p => p <> nullptr) (free_list_ s' ++ [p])).
    { rewrite Hfl. by apply push_slots_nonnull. }
    apply Forall_app in Hall as [Hf1 Hf2]. inversion Hf2; subst.
    apply (f_equal length) in Hfl. rewrite length_app, length_push_slots in Hfl.
    unfold available, MemoryPool.capacity in *. rewrite E in Hc. rewrite Hbl, length_app.
    simpl in *. repeat split; [lia|done|by constructor].
Qed.

Lemma accounted_allocate_throws block s live e s' :
  accounted (s, live) -> allocate block s = (Throws e, s') -> accounted (s', live).
Proof.
  intros Hacc Ha.
  apply allocate_cases in Ha
    as [(_ & q & [=] & _)|[(_ & _ & _ & ->)|[(_ & _ & _ & [=])|(_ & _ & _ & q & [=] & _)]]].
  done.
Qed.

Lemma accounted_deallocate p s live :
  accounted (s, live) -> In p live ->
  accounted (deallocate p s, remove_one p live).
Proof.
  intros (Hc & Hf & Hl) Hin. unfold MemoryPool.accounted in *; simpl in *.
  assert (Hp : p <> nullptr) by (rewrite Forall_forall in Hl; apply Hl; by apply list_elem_of_In).
  rewrite deallocate_live by done.
  apply In_remove_one_length in Hin as Hlen.
  unfold available, MemoryPool.capacity in *. simpl. rewrite length_app. simpl.
  repeat split; [lia| |].
  - apply Forall_app; split; [done|]. by constructor.
  - rewrite Forall_forall in *. intros q Hq. apply Hl.
    apply list_elem_of_In. apply list_elem_of_In in Hq. by eapply remove_one_subset.
Qed.

Lemma accounted_step st o st' : accounted st -> step st o st' -> accounted st'.
Proof.
  intros Hacc Hstep. destruct Hstep.
  - by eapply accounted_allocate.
  - by eapply accounted_allocate_throws.
  - by apply accounted_deallocate.
  - done.
  - unfold MemoryPool.construct in H. destruct (allocate block s) as [[q| |] s1] eqn:Ha;
      [|done..]. destruct (ctor q); inversion H; subst. by eapply accounted_allocate.
  - unfold MemoryPool.construct in H. destruct (allocate block s) as [[q|e0|] s1] eqn:Ha;
      [| |done].
    + destruct (ctor q); inversion H; subst.
      pose proof (accounted_allocate _ _ _ _ _ Hacc Ha) as Hacc1.
      apply (accounted_deallocate q) in Hacc1; [|by left].
      simpl in Hacc1. by rewrite N.eqb_refl in Hacc1.
    + inversion H; subst. by eapply accounted_allocate_throws.
  - unfold destroy. destruct (N.eqb_spec p nullptr) as [->|Hp]; simpl.
    + destruct Hacc as (_ & _ & Hl). rewrite Forall_forall in Hl.
      exfalso. apply (Hl nullptr); [by apply list_elem_of_In|done].
    + by apply accounted_deallocate.
  - done.
Qed.

Lemma accounted_fresh n block s : MemoryPool n block = Returns s -> accounted (s, []).
Proof.
  unfold MemoryPool.MemoryPool, MemoryPool.allocate_block. simpl.
  destruct (N.eqb_spec block nullptr) as [|Hb]; [done|]. intros [= <-].
  unfold MemoryPool.accounted, available, MemoryPool.capacity; simpl.
  rewrite length_push_slots. simpl. split; [lia|]. split; [|done].
  by apply push_slots_nonnull.
Qed.

Lemma reachable_accounted st : reachable st -> accounted st.
Proof.
  induction 1 as [n block s H|st o st' _ IH Hstep].
  - by eapply accounted_fresh.
  - by eapply accounted_step.
Qed.

Lemma holds_In p (l : list ptr) : holds p l = true -> In p l.
Proof.
  unfold holds. rewrite existsb_exists. intros (q & Hq & Heq).
  apply N.eqb_eq in Heq. by subst.
Qed.

Lemma exec_op_step o st st' : exec_op BlockSize sizeofT o st = Some st' -> step st o st'.
Proof.
  destruct st as [s live]. destruct o as [block|p|block ctor|p]; simpl.
  - destruct (allocate block s) as [[q|e|] s1] eqn:Ha; intros [= <-].
    + by apply step_allocate.
    + by eapply step_allocate_throws.
  - destruct (N.eqb_spec p nullptr) as [->|Hp].
    + intros [= <-]. apply step_deallocate_null.
    + destruct (holds p live) eqn:Hh; intros [= <-].
      apply step_deallocate. by apply holds_In.
  - destruct (construct block ctor s) as [[[q|e|] s1] cs] eqn:Hc; intros [= <-].
    + by eapply step_construct.
    + by eapply step_construct_throws.
  - destruct (N.eqb_spec p nullptr) as [->|Hp].
    + intros [= <-]. apply step_destroy_null.
    + destruct (holds p live) eqn:Hh; intros [= <-].
      apply step_destroy. by apply holds_In.
Qed.

Lemma exec_ops_reachable script st st' :
  reachable st -> exec_ops BlockSize sizeofT script st = Some st' -> reachable st'.
Proof.
  revert st. induction script as [|o rest IH]; intros st Hr; simpl.
  - by intros [= <-].
  - destruct (exec_op BlockSize sizeofT o st) as [st1|] eqn:E; [|done].
    apply IH. eapply reachable_step; [exact Hr|]. by apply exec_op_step.
Qed.

End MemoryPoolFacts.

Section MemoryPoolClaims.

Import MemoryPool.

Variables (BlockSize sizeofT : nat).

Local Abbreviation opb := (objects_per_block_ BlockSize sizeofT).
Local Abbreviation allocate := (MemoryPool.allocate BlockSize sizeofT).
Local Abbreviation construct := (MemoryPool.construct BlockSize sizeofT).
Local Abbreviation capacity := (MemoryPool.capacity BlockSize sizeofT).
Local Abbreviation MemoryPool := (MemoryPool.MemoryPool BlockSize sizeofT).
Local Abbreviation step := (MemoryPool.step BlockSize sizeofT).
Local Abbreviation reachable := (MemoryPool.reachable BlockSize sizeofT).

Lemma available_zero_iff s : available s = 0 <-> free_list_ s = [].
Proof. unfold available. by destruct (free_list_ s). Qed.

(** With room for at least one object per block, [allocate] never reaches
    [back()] of an empty vector. *)
Lemma allocate_defined block s : 0 < opb -> fst (allocate block s) <> Undefined.
Proof.
  intros Hpos. destruct (allocate block s) as [r s'] eqn:Ha. simpl.
  apply (allocate_cases BlockSize sizeofT) in Ha
    as [(_ & q & -> & _)|[(_ & _ & -> & _)|[(_ & _ & Hz & _)|(_ & _ & _ & q & -> & _)]]];
    try done. lia.
Qed.

(** The counts after an [allocate] that returns. *)
Lemma allocate_counts block s p s' :
  allocate block s = (Returns p, s') ->
  (0 < available s -> available s' + 1 = available s /\ capacity s' = capacity s)
  /\ (available s = 0 -> available s' + 1 = opb /\ capacity s' = capacity s + opb).
Proof.
  intros Ha.
  apply (allocate_cases BlockSize sizeofT) in Ha
    as [(Hne & q & [= <-] & Hb & Hfl)|[(_ & _ & [=] & _)|[(_ & _ & _ & [=])
       |(E & Hb & Hpos & q & [= <-] & Hbl & Hfl)]]].
  - split.
    + intros _. unfold available, MemoryPool.capacity. rewrite Hfl, length_app, Hb.
      simpl. lia.
    + intros Hz. apply available_zero_iff in Hz. contradiction.
  - split.
    + intros Hz. unfold available in Hz. rewrite E in Hz. simpl in Hz. lia.
    + intros _. apply (f_equal length) in Hfl.
      rewrite length_app, length_push_slots in Hfl. simpl in Hfl.
      unfold available, MemoryPool.capacity. rewrite Hbl, length_app. simpl. lia.
Qed.

(** The pool after a [construct] whose constructor throws. *)
Lemma construct_throwing block ctor s p s1 e :
  allocate block s = (Returns p, s1) -> ctor p = Some e ->
  construct block ctor s = (Throws e, deallocate p s1, [PlacementNew p]).
Proof. intros Ha Hc. unfold MemoryPool.construct. by rewrite Ha, Hc. Qed.

Lemma capacity_deallocate p s : capacity (deallocate p s) = capacity s.
Proof. unfold deallocate. by destruct (p =? nullptr)%N. Qed.

Lemma capacity_destroy p s : capacity (fst (destroy p s)) = capacity s.
Proof.
  unfold destroy. destruct (p =? nullptr)%N; simpl; [done|]. apply capacity_deallocate.
Qed.

(** However [allocate] ends, it changes the capacity only when nothing is
    free, and then by one block. *)
Lemma allocate_capacity block s r s1 :
  allocate block s = (r, s1) -> capacity s1 <> capacity s ->
  available s = 0 /\ capacity s1 = capacity s + opb.
Proof.
  intros Ha Hne.
  apply (allocate_cases BlockSize sizeofT) in Ha
    as [(_ & q & _ & Hb & _)|[(_ & _ & _ & ->)|[(E & Hb & Hz & _)
       |(E & _ & _ & q & _ & Hbl & _)]]].
  - unfold MemoryPool.capacity in Hne. by rewrite Hb in Hne.
  - done.
  - unfold MemoryPool.capacity in Hne. rewrite Hz in Hne. lia.
  - split; [by apply available_zero_iff|].
    unfold MemoryPool.capacity. rewrite Hbl, length_app. simpl. lia.
Qed.

(** Capacity moves only in a step that asks for storage with nothing free,
    and then by one block. *)
Lemma capacity_changes_only_by_growth s live o s' live' :
  step (s, live) o (s', live') -> capacity s' <> capacity s ->
  available s = 0 /\ requests_allocation o /\ capacity s' = capacity s + opb.
Proof.
  intros Hstep Hne.
  inversion Hstep; subst;
    try (by rewrite ?capacity_deallocate, ?capacity_destroy in Hne);
    try match goal with
        | Ha : MemoryPool.allocate _ _ _ _ = _ |- _ =>
            by destruct (allocate_capacity _ _ _ _ Ha Hne)
        end;
    match goal with
    | Hc : MemoryPool.construct _ _ ?block ?ctor _ = _ |- _ =>
        unfold MemoryPool.construct in Hc;
        destruct (allocate block s) as [[q|e0|] s1] eqn:Ha; try done;
        try destruct (ctor q); inversion Hc; subst;
        rewrite ?capacity_deallocate in Hne |- *;
        by destruct (allocate_capacity _ _ _ _ Ha Hne)
    end.
Qed.

(** C3, as amended. On a pool whose blocks hold at least one object, in any
    state a client reaches from a fresh pool by allocate, deallocate,
    construct and destroy, giving back only slots it holds:
    available() never exceeds capacity(); allocate never runs into undefined
    behaviour; an allocate that returns while slots are free lowers
    available() by exactly 1 and leaves capacity() alone; an allocate that
    returns when nothing is free adds one block, so capacity() grows by
    BlockSize / sizeof(T) and available() becomes BlockSize / sizeof(T) - 1;
    a deallocate of a held slot raises available() by exactly 1 and leaves
    capacity() alone; and capacity() changes only in a step that requests an
    allocation while available() is zero, and then by exactly
    BlockSize / sizeof(T). *)
Theorem pool_counts_follow_the_operations s live :
  0 < opb -> reachable (s, live) ->
  available s <= capacity s
  /\ (forall block, fst (allocate block s) <> Undefined)
  /\ (forall block p s', allocate block s = (Returns p, s') -> 0 < available s ->
        available s' + 1 = available s /\ capacity s' = capacity s)
  /\ (forall block p s', allocate block s = (Returns p, s') -> available s = 0 ->
        available s' + 1 = opb /\ capacity s' = capacity s + opb)
  /\ (forall p, In p live ->
        available (deallocate p s) = available s + 1
        /\ capacity (deallocate p s) = capacity s)
  /\ (forall o s' live', step (s, live) o (s', live') -> capacity s' <> capacity s ->
        available s = 0 /\ requests_allocation o /\ capacity s' = capacity s + opb).
Proof.
  intros Hpos Hreach.
  pose proof (reachable_accounted _ _ _ Hreach) as (Hc & Hf & Hl). simpl in *.
  split; [lia|]. split; [intros; by apply allocate_defined|].
  split; [intros block p s' Ha; by apply (allocate_counts _ _ _ _ Ha)|].
  split; [intros block p s' Ha; by apply (allocate_counts _ _ _ _ Ha)|].
  split.
  - intros p Hin.
    assert (Hp : p <> nullptr)
      by (rewrite Forall_forall in Hl; apply Hl; by apply list_elem_of_In).
    rewrite capacity_deallocate, deallocate_live by done.
    unfold available. simpl. rewrite length_app. simpl. lia.
  - intros o s' live'. apply capacity_changes_only_by_growth.
Qed.

(** C5, as amended. When the element constructor throws, construct gives the
    slot back to the freelist and the constructor's failure reaches the
    caller. If a slot was free before the call the pool is exactly as it was,
    so available() and capacity() have their old values. If nothing was free
    the block added by the allocation stays: capacity() is larger by
    BlockSize / sizeof(T), and available() is BlockSize / sizeof(T). *)
Theorem construct_failure_returns_the_slot s live block ctor p s1 e :
  reachable (s, live) ->
  allocate block s = (Returns p, s1) -> ctor p = Some e ->
  exists s', construct block ctor s = (Throws e, s', [PlacementNew p])
    /\ free_list_ s' = free_list_ s1 ++ [p]
    /\ (0 < available s -> s' = s)
    /\ (available s = 0 -> capacity s' = capacity s + opb /\ available s' = opb).
Proof.
  intros Hreach Ha Hc. exists (deallocate p s1).
  split; [by apply construct_throwing|].
  pose proof (reachable_accounted _ _ _ Hreach) as Hacc.
  pose proof (accounted_allocate _ _ _ _ _ _ _ Hacc Ha) as (_ & _ & Hl). simpl in Hl.
  assert (Hp : p <> nullptr) by (by inversion Hl).
  rewrite deallocate_live by done. split; [done|].
  pose proof (allocate_counts _ _ _ _ Ha) as [Hfree Hgrow].
  split.
  - intros Hav.
    apply (allocate_cases BlockSize sizeofT) in Ha
      as [(Hne & q & [= <-] & Hb & Hfl)|[(_ & _ & [=] & _)|[(_ & _ & _ & [=])
         |(E & _)]]].
    + destruct s as [bl fl]. simpl in *. by rewrite Hb, Hfl.
    + apply available_zero_iff in E. lia.
  - intros Hz. destruct (Hgrow Hz) as [Hav Hcap].
    unfold available, MemoryPool.capacity in *. simpl. rewrite length_app. simpl.
    split; [done|lia].
Qed.

(** C9. The constructor does not look at initial_blocks: whatever the
    argument, it asks for one block; when that succeeds the pool has exactly
    that block, capacity() is BlockSize / sizeof(T) and available() equals
    capacity(). *)
Theorem constructor_allocates_one_block n block :
  (forall m, MemoryPool n block = MemoryPool m block)
  /\ (forall s, MemoryPool n block = Returns s ->
        blocks_ s = [block] /\ capacity s = opb /\ available s = capacity s).
Proof.
  split; [done|]. intros s.
  unfold MemoryPool.MemoryPool, MemoryPool.allocate_block. simpl.
  destruct (N.eqb_spec block nullptr) as [|Hb]; [done|]. intros [= <-].
  unfold available, MemoryPool.capacity. simpl. rewrite length_push_slots. simpl.
  repeat split; lia.
Qed.

End MemoryPoolClaims.

(** C10. deallocate(nullptr) and destroy(nullptr) return with the pool as
    it was (same blocks, same freelist, hence the same available() and
    capacity()), and destroy(nullptr) calls no destructor. *)
Theorem null_pointer_calls_change_nothing (s : MemoryPool.pool) :
  MemoryPool.deallocate MemoryPool.nullptr s = s
  /\ MemoryPool.destroy MemoryPool.nullptr s = (s, []).
Proof. split; reflexivity. Qed.

(** Witnesses and counterexamples for the pool, at [BlockSize = 4096] and
    [sizeof(T) = 1024]: four objects per block. *)

Lemma fresh_pool_reachable :
  MemoryPool.reachable 4096 1024
    (MemoryPool.mkPool [4096%N] [4096; 5120; 6144; 7168]%N, []).
Proof. by apply MemoryPool.reachable_fresh with (n := 1) (block := 4096%N). Qed.

Lemma drained_pool_reachable :
  MemoryPool.reachable 4096 1024
    (MemoryPool.mkPool [4096%N] [], [4096; 5120; 6144; 7168]%N).
Proof.
  apply (exec_ops_reachable 4096 1024
           (replicate 4 (MemoryPool.OpAllocate 0%N)) _ _ fresh_pool_reachable).
  reflexivity.
Qed.

Lemma pool_counts_witness :
  0 < MemoryPool.objects_per_block_ 4096 1024
  /\ MemoryPool.reachable 4096 1024
       (MemoryPool.mkPool [4096%N] [], [4096; 5120; 6144; 7168]%N)
  /\ MemoryPool.available (MemoryPool.mkPool [4096%N] [])
     <= MemoryPool.capacity 4096 1024 (MemoryPool.mkPool [4096%N] [])
  /\ MemoryPool.available (MemoryPool.mkPool [4096; 8192]%N [8192; 9216; 10240]%N) + 1 = 4
  /\ MemoryPool.capacity 4096 1024
       (MemoryPool.mkPool [4096; 8192]%N [8192; 9216; 10240]%N) = 4 + 4
  /\ MemoryPool.available
       (MemoryPool.deallocate 7168%N (MemoryPool.mkPool [4096%N] [])) = 0 + 1.
Proof.
  assert (Hpos : 0 < MemoryPool.objects_per_block_ 4096 1024) by (vm_compute; lia).
  destruct (pool_counts_follow_the_operations 4096 1024 _ _ Hpos drained_pool_reachable)
    as (Hle & _ & _ & Hgrow & Hfree & _).
  destruct (Hgrow 8192%N 11264%N
              (MemoryPool.mkPool [4096; 8192]%N [8192; 9216; 10240]%N)
              eq_refl eq_refl) as [Hav Hcap].
  destruct (Hfree 7168%N ltac:(simpl; tauto)) as [Hback _].
  split; [exact Hpos|]. split; [exact drained_pool_reachable|].
  split; [exact Hle|]. split; [exact Hav|]. split; [exact Hcap|exact Hback].
Defined.

(** C3, as the claim words it, fails where the freelist is empty: the
    allocate adds four slots and hands out one, so available() goes from 0
    to 3 instead of going down by one. *)
Lemma allocate_with_nothing_free_raises_available :
  MemoryPool.reachable 4096 1024
    (MemoryPool.mkPool [4096%N] [], [4096; 5120; 6144; 7168]%N)
  /\ MemoryPool.allocate 4096 1024 8192%N (MemoryPool.mkPool [4096%N] [])
     = (MemoryPool.Returns 11264%N,
        MemoryPool.mkPool [4096; 8192]%N [8192; 9216; 10240]%N)
  /\ MemoryPool.available (MemoryPool.mkPool [4096%N] []) = 0
  /\ MemoryPool.available (MemoryPool.mkPool [4096; 8192]%N [8192; 9216; 10240]%N) = 3
  /\ MemoryPool.available (MemoryPool.mkPool [4096; 8192]%N [8192; 9216; 10240]%N) + 1
     <> MemoryPool.available (MemoryPool.mkPool [4096%N] []).
Proof. split; [exact drained_pool_reachable|]. repeat split. vm_compute. lia. Qed.

Lemma construct_failure_witness :
  (exists s',
     MemoryPool.construct 4096 1024 0%N (fun _ => Some (MemoryPool.user_exception 7))
       (MemoryPool.mkPool [4096%N] [4096; 5120; 6144; 7168]%N)
     = (MemoryPool.Throws (MemoryPool.user_exception 7), s',
        [MemoryPool.PlacementNew 7168%N])
     /\ s' = MemoryPool.mkPool [4096%N] [4096; 5120; 6144; 7168]%N)
  /\ (exists s',
        MemoryPool.construct 4096 1024 8192%N
          (fun _ => Some (MemoryPool.user_exception 7)) (MemoryPool.mkPool [4096%N] [])
        = (MemoryPool.Throws (MemoryPool.user_exception 7), s',
           [MemoryPool.PlacementNew 11264%N])
        /\ MemoryPool.capacity 4096 1024 s' = 4 + 4
        /\ MemoryPool.available s' = 4).
Proof.
  split.
  - destruct (construct_failure_returns_the_slot 4096 1024 _ _ 0%N
                (fun _ => Some (MemoryPool.user_exception 7)) 7168%N
                (MemoryPool.mkPool [4096%N] [4096; 5120; 6144]%N)
                (MemoryPool.user_exception 7)
                fresh_pool_reachable eq_refl eq_refl)
      as (s' & Hc & _ & Hsame & _).
    exists s'. split; [exact Hc|]. apply Hsame. vm_compute. lia.
  - destruct (construct_failure_returns_the_slot 4096 1024 _ _ 8192%N
                (fun _ => Some (MemoryPool.user_exception 7)) 11264%N
                (MemoryPool.mkPool [4096; 8192]%N [8192; 9216; 10240]%N)
                (MemoryPool.user_exception 7)
                drained_pool_reachable eq_refl eq_refl)
      as (s' & Hc & _ & _ & Hgrown).
    exists s'. split; [exact Hc|]. apply Hgrown. reflexivity.
Defined.

(** C5, as the claim words it, fails where the freelist is empty: the block
    the allocation added stays after the rollback, so available() is 4, not
    0, and capacity() is 8, not 4. *)
Lemma construct_failure_keeps_the_new_block :
  MemoryPool.reachable 4096 1024
    (MemoryPool.mkPool [4096%N] [], [4096; 5120; 6144; 7168]%N)
  /\ MemoryPool.construct 4096 1024 8192%N
       (fun _ => Some (MemoryPool.user_exception 7)) (MemoryPool.mkPool [4096%N] [])
     = (MemoryPool.Throws (MemoryPool.user_exception 7),
        MemoryPool.mkPool [4096; 8192]%N [8192; 9216; 10240; 11264]%N,
        [MemoryPool.PlacementNew 11264%N])
  /\ MemoryPool.available (MemoryPool.mkPool [4096%N] []) = 0
  /\ MemoryPool.capacity 4096 1024 (MemoryPool.mkPool [4096%N] []) = 4
  /\ MemoryPool.available
       (MemoryPool.mkPool [4096; 8192]%N [8192; 9216; 10240; 11264]%N) = 4
  /\ MemoryPool.capacity 4096 1024
       (MemoryPool.mkPool [4096; 8192]%N [8192; 9216; 10240; 11264]%N) = 8
  /\ MemoryPool.available
       (MemoryPool.mkPool [4096; 8192]%N [8192; 9216; 10240; 11264]%N)
     <> MemoryPool.available (MemoryPool.mkPool [4096%N] [])
  /\ MemoryPool.capacity 4096 1024
       (MemoryPool.mkPool [4096; 8192]%N [8192; 9216; 10240; 11264]%N)
     <> MemoryPool.capacity 4096 1024 (MemoryPool.mkPool [4096%N] []).
Proof.
  split; [exact drained_pool_reachable|].
  split; [reflexivity|]. split; [reflexivity|]. split; [reflexivity|].
  split; [reflexivity|]. split; [reflexivity|]. split; vm_compute; lia.
Qed.

Lemma constructor_witness :
  MemoryPool.MemoryPool 4096 1024 7 4096%N
  = MemoryPool.Returns (MemoryPool.mkPool [4096%N] [4096; 5120; 6144; 7168]%N)
  /\ MemoryPool.capacity 4096 1024
       (MemoryPool.mkPool [4096%N] [4096; 5120; 6144; 7168]%N) = 4.
Proof.
  split; [reflexivity|].
  destruct (constructor_allocates_one_block 4096 1024 7 4096%N) as [_ H].
  destruct (H _ eq_refl) as (_ & Hcap & _). exact Hcap.
Defined.

(** ** ThreadPool *)

Section ThreadPoolClaims.

Import ThreadPool.

Variables (V World : Type).

Lemma future_state_after_run (t : queued V World) (s : pool V World) w :
  target t < length (heap s) ->
  future_state (target t) (fst (run_task t s w)) = Some (snd (body t w)).
Proof.
  intros Hlt. unfold run_task, future_state. destruct (body t w) as [w' r]. simpl.
  by rewrite list_lookup_insert_eq.
Qed.

(** The stop flag, once set, stays set: neither [enqueue] nor a worker's turn
    clears it. *)
Lemma enqueue_keeps_stop (f : callable V World) (s : pool V World) :
  stop_ (snd (enqueue f s)) = stop_ s.
Proof. unfold enqueue. destruct (stop_ s) eqn:E; simpl; done. Qed.

Lemma worker_turn_keeps_stop (s s' : pool V World) w w' :
  worker_turn s w = Ran s' w' -> stop_ s' = stop_ s.
Proof.
  unfold worker_turn, run_task. destruct (tasks_ s) as [|t rest].
  - by destruct (stop_ s).
  - simpl. destruct (body t w) as [w1 r]. by intros [= <- _].
Qed.

(** The worker's turns on the tasks queued ahead of [t]: they leave [t]
    alone at the head of the queue, keep every shared state in place, and
    touch no shared state but their own. *)
Lemma work_reaches_the_task (q : list (queued V World)) t (s : pool V World) w :
  tasks_ s = q ++ [t] ->
  tasks_ (fst (work (length q) s w)) = [t]
  /\ length (heap (fst (work (length q) s w))) = length (heap s)
  /\ stop_ (fst (work (length q) s w)) = stop_ s
  /\ forall h, Forall (fun t' => target t' <> h) q ->
       future_state h (fst (work (length q) s w)) = future_state h s.
Proof.
  revert s w. induction q as [|t1 q IH]; intros s w Hq; simpl in *.
  - done.
  - unfold worker_turn. rewrite Hq. unfold run_task. destruct (body t1 w) as [w1 r].
    simpl.
    destruct (IH {| workers_ := workers_ s; tasks_ := q ++ [t];
                    stop_ := stop_ s;
                    heap := <[target t1 := Some r]> (heap s) |} w1 eq_refl)
      as (H1 & H2 & H3 & H4).
    simpl in *. rewrite length_insert in H2. repeat split; try done.
    intros h Hh. inversion Hh; subst. rewrite H4 by done.
    unfold future_state. simpl. by rewrite list_lookup_insert_ne.
Qed.

(** One more turn after [n]. *)
Lemma work_one_more n (s : pool V World) w :
  work (S n) s w
  = match worker_turn (fst (work n s w)) (snd (work n s w)) with
    | Ran s' w' => (s', w')
    | _ => work n s w
    end.
Proof.
  revert s w. induction n as [|n IH]; intros s w.
  - simpl. by destruct (worker_turn s w).
  - change (work (S (S n)) s w)
      with (match worker_turn s w with
            | Ran s' w' => work (S n) s' w'
            | _ => (s, w)
            end).
    change (work (S n) s w)
      with (match worker_turn s w with
            | Ran s' w' => work n s' w'
            | _ => (s, w)
            end).
    destruct (worker_turn s w) as [| |s' w'] eqn:E; simpl; rewrite ?E; try done.
    apply IH.
Qed.

(** C1. With the stop flag set, enqueue throws the "enqueue on stopped
    ThreadPool" error (SchedulerClosed) and leaves the pool, its queue
    included, as it was; that is so in particular once shutdown has begun.
    With the flag clear, enqueue returns a handle, the queue is the old queue
    with the new task at its tail, and the handle is the task's future: it
    designates a shared state the call has added to the pool, one past the
    shared states there were, and that state is empty; no other future
    changes. When a worker has run the tasks queued ahead and then this one,
    the handle's shared state holds what the callable returned or threw in
    the world the earlier tasks left, and the queue is empty; until this
    task runs the state stays empty, the tasks ahead holding handles of
    their own. *)
Theorem enqueue_and_the_stop_flag (f : callable V World) (s : pool V World) :
  (stop_ s = true -> enqueue f s = (Throws SchedulerClosed, s))
  /\ enqueue f (begin_shutdown s) = (Throws SchedulerClosed, begin_shutdown s)
  /\ (stop_ s = false ->
      exists res s',
        enqueue f s = (Returns res, s')
        /\ tasks_ s' = tasks_ s ++ [mkQueued res f]
        /\ stop_ s' = false
        /\ future_state res s' = None
        /\ res = length (heap s)
        /\ heap s' = heap s ++ [None]
        /\ heap s' !! res = Some None
        /\ (forall h, h < length (heap s) -> future_state h s' = future_state h s)
        /\ (forall w,
              let before := work (length (tasks_ s)) s' w in
              let after := work (S (length (tasks_ s))) s' w in
              future_state res (fst after) = Some (snd (f (snd before)))
              /\ snd after = fst (f (snd before))
              /\ tasks_ (fst after) = []
              /\ (Forall (fun t => target t < length (heap s)) (tasks_ s) ->
                  future_state res (fst before) = None))).
Proof.
  split; [|split].
  - intros Hs. unfold enqueue. by rewrite Hs.
  - reflexivity.
  - intros Hs. unfold enqueue. rewrite Hs.
    set (s' := {| workers_ := workers_ s;
                  tasks_ := tasks_ s ++ [mkQueued (length (heap s)) f];
                  stop_ := false; heap := heap s ++ [None] |}).
    assert (Hres : heap s' !! length (heap s) = Some None).
    { subst s'. simpl. rewrite lookup_app_r by apply Nat.le_refl. by rewrite Nat.sub_diag. }
    assert (Hfut : future_state (length (heap s)) s' = None).
    { unfold future_state. subst s'. simpl. rewrite lookup_app_r by apply Nat.le_refl.
      by rewrite Nat.sub_diag. }
    exists (length (heap s)), s'.
    split; [reflexivity|]. split; [reflexivity|]. split; [reflexivity|].
    split; [exact Hfut|].
    split; [reflexivity|]. split; [reflexivity|]. split; [exact Hres|]. split.
    { intros h Hh. unfold future_state. simpl. by rewrite lookup_app_l. }
    intros w. cbv zeta.
    rewrite (work_one_more (length (tasks_ s)) s' w).
    set (before := work (length (tasks_ s)) s' w).
    destruct (work_reaches_the_task (tasks_ s) (mkQueued (length (heap s)) f) s' w eq_refl)
      as (H1 & H2 & H3 & H4).
    fold before in H1, H2, H3, H4.
    assert (Hlen : length (heap s) < length (heap (fst before))).
    { rewrite H2. simpl. rewrite length_app. simpl. lia. }
    unfold worker_turn. rewrite H1. unfold run_task. cbn [body target].
    destruct (f (snd before)) as [w' r]. cbn [fst snd].
    split; [unfold future_state; cbn [heap]; by rewrite list_lookup_insert_eq|].
    split; [done|]. split; [done|].
    intros Hq. rewrite H4; [exact Hfut|].
    eapply Forall_impl; [exact Hq|]. simpl. intros t Ht. lia.
Qed.

End ThreadPoolClaims.

Lemma enqueue_witness :
  ThreadPool.enqueue (fun w : unit => (w, ThreadPool.Returns 42))
    (ThreadPool.mkPool 4 [] true [])
  = (ThreadPool.Throws ThreadPool.SchedulerClosed, ThreadPool.mkPool 4 [] true [])
  /\ exists res s',
       ThreadPool.enqueue (fun w : unit => (w, ThreadPool.Returns 42))
         (ThreadPool.mkPool 4 [] false []) = (ThreadPool.Returns res, s')
       /\ ThreadPool.pending_tasks s' = 1
       /\ ThreadPool.heap s' !! res = Some None
       /\ ThreadPool.future_state res (fst (ThreadPool.work 1 s' tt))
          = Some (ThreadPool.Returns 42).
Proof.
  split.
  - apply (enqueue_and_the_stop_flag nat unit). reflexivity.
  - destruct (enqueue_and_the_stop_flag nat unit
                (fun w : unit => (w, ThreadPool.Returns 42))
                (ThreadPool.mkPool 4 [] false [])) as (_ & _ & H).
    destruct (H eq_refl) as (res & s' & He & Ht & _ & _ & _ & _ & Hh & _ & Hw).
    exists res, s'. split; [exact He|].
    split; [unfold ThreadPool.pending_tasks; rewrite Ht; reflexivity|].
    split; [exact Hh|].
    destruct (Hw tt) as (Hf & _). exact Hf.
Defined.

(** ** EventBus, synchronous mode *)

Section EventBusClaims.

Import EventBus.

Variables (Payload World : Type).

Local Abbreviation Event := (EventBus.Event Payload).
Local Abbreviation IEventHandler := (EventBus.IEventHandler Payload World).
Local Abbreviation bus := (EventBus.bus Payload World).
Local Abbreviation exec := (EventBus.exec Payload World).

Lemma run_all_cons (h : IEventHandler) hs (ev : Event) w :
  run_all (h :: hs) ev w = run_all hs ev (fst (handle h ev w)).
Proof. reflexivity. Qed.

(** The loop when no handler throws anything but a [std::exception]: every
    handler is called once, in list order, and nothing leaves the loop. *)
Lemma dispatch_loop_isolates (hs : list IEventHandler) (ev : Event) (x : exec) :
  Forall (raises_only_std ev) hs ->
  dispatch_loop hs ev x
  = ({| world := run_all hs ev (world x);
        calls := calls x ++ map (fun h => (handler_id h, ev)) hs |}, None).
Proof.
  intros Hall. revert x. induction Hall as [|h hs Hh _ IH]; intros x; simpl.
  - rewrite app_nil_r. by destruct x.
  - specialize (Hh (world x)). rewrite ?run_all_cons.
    destruct (handle h ev (world x)) as [w' r]. simpl in *.
    destruct r as [[what|v]|].
    + rewrite IH. simpl. by rewrite <- app_assoc.
    + by destruct (Hh v).
    + rewrite IH. simpl. by rewrite <- app_assoc.
Qed.

(** X23. The loop in general: the first handler that throws something else
    ends it; the handlers behind it are not called. *)
Lemma dispatch_loop_stops (hs1 hs2 : list IEventHandler) h (ev : Event) (x : exec) v :
  Forall (raises_only_std ev) hs1 ->
  snd (handle h ev (run_all hs1 ev (world x))) = Some (other_value v) ->
  dispatch_loop (hs1 ++ h :: hs2) ev x
  = ({| world := run_all (hs1 ++ [h]) ev (world x);
        calls := calls x ++ map (fun h => (handler_id h, ev)) (hs1 ++ [h]) |},
     Some (other_value v)).
Proof.
  intros Hall. revert x. induction Hall as [|h1 hs1 Hh _ IH]; intros x Hv; simpl in *.
  - unfold run_all. simpl. destruct (handle h ev (world x)) as [w' r]. simpl in *.
    by subst.
  - specialize (Hh (world x)). rewrite ?run_all_cons.
    rewrite ?run_all_cons in Hv.
    destruct (handle h1 ev (world x)) as [w' r]. simpl in *.
    destruct r as [[what|v1]|].
    + rewrite IH by done. simpl. by rewrite <- app_assoc.
    + by destruct (Hh v1).
    + rewrite IH by done. simpl. by rewrite <- app_assoc.
Qed.

Lemma subscribers_subscribe T U (h : IEventHandler) (b : bus) :
  subscribers U (subscribe T h b)
  = if decide (T = U) then subscribers T b ++ [h] else subscribers U b.
Proof.
  unfold subscribers, subscribe. simpl. case_decide as E.
  - subst. by rewrite lookup_insert_eq.
  - by rewrite lookup_insert_ne.
Qed.

Lemma dispatch_event_subscribers T (ev : Event) (b : bus) (x : exec) :
  dispatch_event T ev b x = dispatch_loop (subscribers T b) ev x.
Proof.
  unfold dispatch_event, subscribers. by destruct (handlers_ b !! T).
Qed.

(** X26. The handler list of a type is in subscription order (subscribe
    appends, and a subscription for another type leaves the list alone). In
    synchronous mode, when every handler subscribed for exactly type T
    returns or throws something derived from std::exception, publish of a T
    calls each of them exactly once, in that order, before it returns
    (nothing is queued, the bus is unchanged), the failures are dropped and
    none reaches the publisher. *)
Theorem synchronous_publish_calls_every_subscriber
    T (ev : Event) (b : bus) (x : exec) :
  (forall h, subscribers T (subscribe T h b) = subscribers T b ++ [h])
  /\ (forall U h, U <> T -> subscribers T (subscribe U h b) = subscribers T b)
  /\ (async_mode_ b = false ->
      Forall (raises_only_std ev) (subscribers T b) ->
      publish T ev b x
      = (b,
         {| world := run_all (subscribers T b) ev (world x);
            calls := calls x ++ map (fun h => (handler_id h, ev)) (subscribers T b) |},
         None)).
Proof.
  split; [|split].
  - intros h. rewrite subscribers_subscribe. by case_decide.
  - intros U h HU. rewrite subscribers_subscribe. by case_decide.
  - intros Hsync Hall. unfold publish. rewrite Hsync.
    by rewrite dispatch_event_subscribers, dispatch_loop_isolates.
Qed.

(** C6. unsubscribe<T>() removes the handler list of T and no other: the
    registry answers as before for every other type, the other members of
    the bus are untouched, and afterwards neither a synchronous publish of a
    T nor the dispatcher's dispatch of a queued T calls any handler. *)
Theorem unsubscribe_clears_exactly_one_type T (b : bus) :
  (forall U, handlers_ (unsubscribe T b) !! U
             = if decide (U = T) then None else handlers_ b !! U)
  /\ (forall U, U <> T -> subscribers U (unsubscribe T b) = subscribers U b)
  /\ subscribers T (unsubscribe T b) = []
  /\ event_queue_ (unsubscribe T b) = event_queue_ b
  /\ async_mode_ (unsubscribe T b) = async_mode_ b
  /\ (forall (ev : Event) (x : exec),
        async_mode_ b = false ->
        publish T ev (unsubscribe T b) x = (unsubscribe T b, x, None))
  /\ (forall (ev : Event) (x : exec),
        type_id ev = T ->
        dispatch_polymorphic_event ev (unsubscribe T b) x = (x, None)).
Proof.
  assert (Hl : forall U, handlers_ (unsubscribe T b) !! U
                         = if decide (U = T) then None else handlers_ b !! U).
  { intros U. unfold unsubscribe. simpl. case_decide as E.
    - subst. apply lookup_delete_eq.
    - by apply lookup_delete_ne. }
  split; [exact Hl|]. split; [|split; [|split; [|split; [|split]]]]; try done.
  - intros U HU. unfold subscribers. rewrite Hl. by case_decide.
  - unfold subscribers. rewrite Hl. by case_decide.
  - intros ev x Hsync. unfold publish, dispatch_event.
    replace (async_mode_ (unsubscribe T b)) with false by done.
    rewrite Hl. by case_decide.
  - intros ev x <-. unfold dispatch_polymorphic_event. rewrite Hl. by case_decide.
Qed.

End EventBusClaims.

(** A publish with a subscriber that throws a [std::exception] first: the
    second subscriber still runs and the publisher sees no failure. *)
Lemma synchronous_publish_witness :
  EventBus.async_mode_ Examples.bus_exception_first = false
  /\ EventBus.publish 0 (Examples.event 0 5) Examples.bus_exception_first
       Examples.nothing_yet
     = (Examples.bus_exception_first,
        {| EventBus.world := [5];
           EventBus.calls := [(1, Examples.event 0 5); (2, Examples.event 0 5)] |},
        None).
Proof.
  split; [reflexivity|].
  destruct (synchronous_publish_calls_every_subscriber nat (list nat) 0
              (Examples.event 0 5) Examples.bus_exception_first Examples.nothing_yet)
    as (_ & _ & H).
  rewrite H; [reflexivity|reflexivity|].
  repeat constructor; intros w v; discriminate.
Defined.

(** C2 on the code. Two handlers are subscribed for type 0, in this order:
    the first does [throw 42;], the second records the event. In synchronous
    mode publish calls the first; the catch clause
    [catch (const std::exception&)] does not match the thrown value, so the
    second subscriber is never called and the value reaches the
    publisher. *)
Lemma throw_of_a_non_exception_reaches_the_publisher :
  EventBus.async_mode_ Examples.bus_int_first = false
  /\ map EventBus.handler_id (EventBus.subscribers 0 Examples.bus_int_first) = [1; 2]
  /\ EventBus.publish 0 (Examples.event 0 5) Examples.bus_int_first Examples.nothing_yet
     = (Examples.bus_int_first,
        {| EventBus.world := []; EventBus.calls := [(1, Examples.event 0 5)] |},
        Some (EventBus.other_value 42))
  /\ snd (EventBus.publish 0 (Examples.event 0 5) Examples.bus_int_first
            Examples.nothing_yet) <> None
  /\ map fst (EventBus.calls (snd (fst
        (EventBus.publish 0 (Examples.event 0 5) Examples.bus_int_first
           Examples.nothing_yet))))
     <> map EventBus.handler_id (EventBus.subscribers 0 Examples.bus_int_first).
Proof.
  split; [reflexivity|]. split; [reflexivity|]. split; [reflexivity|].
  split; vm_compute; discriminate.
Qed.

Lemma unsubscribe_witness :
  EventBus.publish 0 (Examples.event 0 5)
    (EventBus.unsubscribe 0 Examples.bus_exception_first) Examples.nothing_yet
  = (EventBus.unsubscribe 0 Examples.bus_exception_first, Examples.nothing_yet, None)
  /\ EventBus.subscribers 0
       (EventBus.unsubscribe 1 Examples.bus_exception_first)
     = EventBus.subscribers 0 Examples.bus_exception_first.
Proof.
  destruct (unsubscribe_clears_exactly_one_type nat (list nat) 0
              Examples.bus_exception_first) as (_ & _ & _ & _ & _ & Hpub & _).
  destruct (unsubscribe_clears_exactly_one_type nat (list nat) 1
              Examples.bus_exception_first) as (_ & Hother & _).
  split; [apply Hpub; reflexivity|apply Hother; lia].
Defined.

(** ** EventBus, asynchronous mode *)

Section FlushFacts.

Import EventBus EventBusThreads.

Variables (Payload World : Type).

(** All that [flush] waits for: when the call returns in asynchronous mode
    the queue is empty. Where the dispatcher is plays no part. *)
Lemma flush_returns_on_an_empty_queue (st st' : system Payload World) rest :
  client st = CRun (Flush :: rest) \/ client st = CInFlush rest ->
  client_step st = Some st' -> client st' = CRun rest ->
  async_mode_ (the_bus st) = true ->
  event_queue_ (the_bus st) = [] /\ worker st' = worker st.
Proof.
  intros [Hc|Hc] Hstep Hret Hasync; unfold client_step in Hstep; rewrite Hc in Hstep.
  - rewrite Hasync in Hstep. simpl in Hstep.
    destruct (event_queue_ (the_bus st)); [|inversion Hstep; subst; done].
    by inversion Hstep; subst.
  - destruct (event_queue_ (the_bus st)); [|done].
    by inversion Hstep; subst.
Qed.

End FlushFacts.

(** C7 on the code. The client publishes three events and calls flush; the
    dispatcher has popped the third event, so the queue is empty, but has not
    dispatched it yet. flush finds the queue empty and returns: only the
    first two events have been dispatched at that moment. *)
Theorem flush_returns_before_the_last_dispatch :
  let final :=
    EventBusThreads.run Examples.flush_overtakes_dispatch
      (EventBusThreads.start Examples.bus_recording [] Examples.publish_three_then_flush) in
  option_map EventBusThreads.trace final
  = Some [EventBusThreads.Published (Examples.event 0 1);
          EventBusThreads.Published (Examples.event 0 2);
          EventBusThreads.Published (Examples.event 0 3);
          EventBusThreads.Dispatched (Examples.event 0 1);
          EventBusThreads.Dispatched (Examples.event 0 2);
          EventBusThreads.FlushCalled;
          EventBusThreads.FlushReturned]
  /\ option_map EventBusThreads.worker final
     = Some (EventBusThreads.WDispatch (Examples.event 0 3))
  /\ option_map EventBusThreads.client final = Some (EventBusThreads.CRun [])
  /\ option_map (fun st => EventBus.event_queue_ (EventBusThreads.the_bus st)) final
     = Some []
  /\ option_map (fun st => EventBus.world (EventBusThreads.the_exec st)) final
     = Some [1; 2].
Proof. repeat split; vm_compute; reflexivity. Qed.

(** ** LockFreeMemoryPool *)

(** C8 on the code. Two nodes at 64 and 128, data at offset 8. Under the
    schedule [aba_schedule] no thread gives back a pointer it does not hold,
    and at the end the storage at 72 is held twice. *)
Theorem lock_free_pool_issues_a_node_twice :
  option_map LockFreeMemoryPool.live
    (LockFreeMemoryPool.run 8 Examples.aba_schedule
       (LockFreeMemoryPool.LockFreeMemoryPool [64; 128]%N))
  = Some [72; 136; 72]%N.
Proof. vm_compute. reflexivity. Qed.

Section LockFreePoolFacts.

Import LockFreeMemoryPool.

Variable data_offset : N.

Lemma pc_of_insert t c thr m lv :
  pc_of t {| mem := m; threads := <[t := c]> thr; live := lv |} = c.
Proof. unfold pc_of. simpl. by rewrite lookup_insert_eq. Qed.

(** X24. Without interference the pool is a stack: a pointer given back is
    the one the next allocate returns. *)
Lemma deallocated_node_is_allocated_next t st p :
  pc_of t st = Idle -> is_in p (live st) = true -> (data_offset < p)%N ->
  exists st',
    run data_offset (deallocate_alone t p ++ allocate_alone t) st = Some st'
    /\ live st' = remove_one p (live st) ++ [p]
    /\ head_ (mem st') = head_ (mem st)
    /\ pc_of t st' = Idle.
Proof.
  intros Hidle Hlive Hp. destruct st as [[h nx] thr lv]. simpl in *.
  assert (Hnz : (p =? nullptr)%N = false) by (apply N.eqb_neq; unfold nullptr; lia).
  assert (Hnd : (node_of data_offset p =? nullptr)%N = false)
    by (apply N.eqb_neq; unfold node_of, nullptr; lia).
  assert (Hdata : data_of data_offset (node_of data_offset p) = p)
    by (unfold data_of, node_of; lia).
  unfold deallocate_alone, allocate_alone.
  cbn [app run step]. rewrite Hidle, Hnz, Hlive.
  repeat first
    [ rewrite pc_of_insert
    | rewrite N.eqb_refl
    | rewrite Hnd
    | rewrite lookup_insert_eq
    | progress unfold set_pc, set_head, set_next
    | progress cbn [mem threads live head_ next_] ].
  eexists. split; [reflexivity|]. cbn [mem threads live head_ next_].
  rewrite Hdata. repeat split. apply pc_of_insert.
Qed.

End LockFreePoolFacts.

(** ** Config *)

Section ConfigClaims.

Import Config.

Variable double : Type.
Variable show_double : double -> string.
Variable stod : string -> option (double * nat).

Local Abbreviation save_to_file := (Config.save_to_file double show_double).
Local Abbreviation round_trip := (Config.round_trip double show_double stod).

(** C4 on the code. A boolean is written as [1] or [0] and read back as an
    integer; a string that spells a number or a boolean is read back as a
    number or a boolean, its quotes stripped before the value is parsed. *)
Theorem saved_bool_is_loaded_as_int :
  save_to_file {[ "test.enabled"%string := VBool true ]}
  = ("test.enabled=1" ++ String newline EmptyString)%string
  /\ round_trip {[ "test.enabled"%string := VBool true ]}
     = {[ "test.enabled"%string := VInt 1 ]}
  /\ get_bool double "test.enabled" false {[ "test.enabled"%string := VBool true ]} = true
  /\ get_bool double "test.enabled" false
       (round_trip {[ "test.enabled"%string := VBool true ]}) = false
  /\ round_trip {[ "port"%string := VString "8080" ]} = {[ "port"%string := VInt 8080 ]}
  /\ round_trip {[ "flag"%string := VString "true" ]} = {[ "flag"%string := VBool true ]}.
Proof. repeat split; vm_compute; reflexivity. Qed.

End ConfigClaims.

(* ===================================================================== *)
(** * Further properties                                                  *)
(* ===================================================================== *)

(** ** MemoryPool: layout, reuse and failure *)

Section MemoryPoolLayout.

Import MemoryPool.

Variables (BlockSize sizeofT : nat).

Local Abbreviation opb := (objects_per_block_ BlockSize sizeofT).
Local Abbreviation slot := (MemoryPool.slot sizeofT).
Local Abbreviation allocate := (MemoryPool.allocate BlockSize sizeofT).
Local Abbreviation construct := (MemoryPool.construct BlockSize sizeofT).
Local Abbreviation capacity := (MemoryPool.capacity BlockSize sizeofT).
Local Abbreviation MemoryPool := (MemoryPool.MemoryPool BlockSize sizeofT).
Local Abbreviation step := (MemoryPool.step BlockSize sizeofT).
Local Abbreviation reachable := (MemoryPool.reachable BlockSize sizeofT).
Local Abbreviation reachable_apart := (MemoryPool.reachable_apart BlockSize sizeofT).
Local Abbreviation apart := (MemoryPool.apart BlockSize).
Local Abbreviation answers := (MemoryPool.answers BlockSize).
Local Abbreviation in_a_block := (MemoryPool.in_a_block BlockSize sizeofT).
Local Abbreviation laid_out := (MemoryPool.laid_out BlockSize sizeofT).

Lemma push_slots_map b i n fl :
  push_slots sizeofT b i n fl = fl ++ map (slot b) (seq i n).
Proof.
  revert i fl. induction n as [|n IH]; intros i fl; simpl.
  - by rewrite app_nil_r.
  - rewrite IH. by rewrite <- app_assoc.
Qed.

(** The objects of a block fit into the block. *)
Lemma slot_fits i :
  i < opb ->
  (N.of_nat i * N.of_nat sizeofT + N.of_nat sizeofT <= N.of_nat BlockSize)%N.
Proof.
  intros Hi.
  assert (H1 : S i * sizeofT <= opb * sizeofT) by (apply Nat.mul_le_mono_r; lia).
  assert (H2 : opb * sizeofT <= BlockSize).
  { unfold objects_per_block_. rewrite Nat.mul_comm. apply Nat.Div0.mul_div_le. }
  lia.
Qed.

Lemma slot_in_block b i (s : pool) :
  In b (blocks_ s) -> i < opb -> in_a_block s (slot b i).
Proof.
  intros Hb Hi. exists b, i. repeat split; try done.
  - unfold MemoryPool.slot. lia.
  - pose proof (slot_fits i Hi). unfold MemoryPool.slot. lia.
Qed.

Lemma slot_inj b i j : 0 < sizeofT -> slot b i = slot b j -> i = j.
Proof. unfold MemoryPool.slot. intros Hsz H. nia. Qed.

Lemma NoDup_slots b n : 0 < sizeofT -> NoDup (map (slot b) (seq 0 n)).
Proof.
  intros Hsz. apply NoDup_fmap_2; [|apply NoDup_seq].
  intros i j. by apply slot_inj.
Qed.

Lemma in_a_block_grow (s s' : pool) block p :
  blocks_ s' = blocks_ s ++ [block] -> in_a_block s p -> in_a_block s' p.
Proof.
  intros Hbl (b & i & Hb & Hrest). exists b, i. split; [|done].
  rewrite Hbl. apply in_or_app. by left.
Qed.

Lemma in_a_block_same (s s' : pool) p :
  blocks_ s' = blocks_ s -> in_a_block s p -> in_a_block s' p.
Proof. intros Hbl (b & i & Hb & Hrest). exists b, i. by rewrite Hbl. Qed.

(** A slot of the pool is not a slot of a block that lies apart. *)
Lemma apart_slot_fresh (s : pool) block i p :
  0 < sizeofT -> apart block s -> i < opb -> in_a_block s p -> p <> slot block i.
Proof.
  intros Hsz Hap Hi (b & j & Hb & Hj & -> & Hlo & Hhi) Heq.
  unfold MemoryPool.apart in Hap. rewrite Forall_forall in Hap.
  specialize (Hap b (proj2 (list_elem_of_In _ _) Hb)).
  pose proof (slot_fits i Hi). rewrite Heq in Hlo, Hhi.
  unfold MemoryPool.slot in *. lia.
Qed.

Lemma Permutation_remove_one p (l : list ptr) :
  In p l -> Permutation l (p :: remove_one p l).
Proof.
  induction l as [|q l IH]; simpl; [done|]. intros [->|Hin].
  - by rewrite N.eqb_refl.
  - destruct (N.eqb_spec p q) as [->|Hne]; [done|].
    rewrite (IH Hin) at 1. apply perm_swap.
Qed.

Lemma laid_out_perm (s : pool) live live' :
  Permutation live live' -> laid_out (s, live) -> laid_out (s, live').
Proof.
  intros Hp (Hb & Hf & Hn). unfold MemoryPool.laid_out in *. simpl in *.
  split; [done|]. by rewrite <- Hp.
Qed.

Lemma laid_out_drop (s : pool) p live :
  laid_out (s, p :: live) -> laid_out (s, live).
Proof.
  intros (Hb & Hf & Hn). unfold MemoryPool.laid_out in *. simpl in *.
  split; [done|]. split.
  - apply Forall_app in Hf as [Hf1 Hf2]. apply Forall_app. split; [done|].
    by inversion Hf2.
  - apply NoDup_app in Hn as (Hn1 & Hn2 & Hn3). apply NoDup_app.
    split; [done|]. split.
    + intros x Hx Hx'. apply (Hn2 x Hx). by right.
    + by inversion Hn3.
Qed.

(** Giving a held slot back moves it from the client's hands to the end of
    the freelist. *)
Lemma laid_out_give_back (s : pool) p live :
  laid_out (s, p :: live) -> laid_out (deallocate p s, live).
Proof.
  intros H. unfold deallocate. destruct (N.eqb_spec p nullptr) as [->|Hp].
  - by eapply laid_out_drop.
  - destruct H as (Hb & Hf & Hn). unfold MemoryPool.laid_out in *. simpl in *.
    split; [done|]. rewrite <- app_assoc. simpl. split; [|done].
    eapply Forall_impl; [exact Hf|]. intros x Hx. by eapply in_a_block_same.
Qed.

Lemma laid_out_allocate block (s : pool) live p s' :
  0 < sizeofT -> laid_out (s, live) -> answers block s ->
  allocate block s = (Returns p, s') -> laid_out (s', p :: live).
Proof.
  intros Hsz (Hb & Hf & Hn) Hans Ha. unfold MemoryPool.laid_out in *. simpl in *.
  apply (allocate_cases BlockSize sizeofT) in Ha
    as [(Hne & q & [= <-] & Hbl & Hfl)|[(_ & _ & [=] & _)|[(_ & _ & _ & [=])
       |(E & Hnz & Hpos & q & [= <-] & Hbl & Hfl)]]].
  - rewrite Hfl, <- app_assoc in Hf, Hn. simpl in *. rewrite Hbl.
    split; [done|]. split; [|done].
    eapply Forall_impl; [exact Hf|]. intros x Hx. by eapply in_a_block_same.
  - destruct Hans as [->|Hap]; [done|].
    rewrite E in Hf, Hn. simpl in *. rewrite push_slots_map in Hfl. simpl in Hfl.
    replace (free_list_ s' ++ p :: live) with ((free_list_ s' ++ [p]) ++ live)
      by (by rewrite <- app_assoc).
    rewrite Hfl. split; [|split].
    + intros b1 b2. rewrite Hbl. intros H1 H2.
      apply in_app_or in H1. apply in_app_or in H2.
      unfold MemoryPool.apart in Hap. rewrite Forall_forall in Hap.
      destruct H1 as [H1|[<-|[]]], H2 as [H2|[<-|[]]].
      * by apply Hb.
      * right. apply Hap. by apply list_elem_of_In.
      * right. apply or_comm. apply Hap. by apply list_elem_of_In.
      * by left.
    + apply Forall_app. split.
      * apply Forall_forall. intros x Hx. apply list_elem_of_fmap in Hx as (i & -> & Hi).
        apply elem_of_seq in Hi. apply slot_in_block; [|lia].
        rewrite Hbl. apply in_or_app. right. by left.
      * eapply Forall_impl; [exact Hf|]. intros x Hx. by eapply in_a_block_grow.
    + apply NoDup_app. split; [by apply NoDup_slots|]. split; [|done].
      intros x Hx Hx'. apply list_elem_of_fmap in Hx as (i & -> & Hi).
      apply elem_of_seq in Hi. rewrite Forall_forall in Hf.
      by apply (apart_slot_fresh s block i (slot block i) Hsz Hap ltac:(lia) (Hf _ Hx')).
Qed.

Lemma laid_out_step st o st' :
  0 < sizeofT -> laid_out st ->
  (forall block, asks o = Some block -> answers block (fst st)) ->
  step st o st' -> laid_out st'.
Proof.
  intros Hsz Hl Hans Hstep. destruct Hstep; simpl in Hans.
  - eapply laid_out_allocate; eauto.
  - apply (allocate_cases BlockSize sizeofT) in H
      as [(_ & q & [=] & _)|[(_ & _ & _ & ->)|[(_ & _ & _ & [=])|(_ & _ & _ & q & [=] & _)]]].
    done.
  - apply laid_out_give_back. eapply laid_out_perm; [|exact Hl].
    by apply Permutation_remove_one.
  - done.
  - unfold MemoryPool.construct in H.
    destruct (allocate block s) as [[q|e0|] s1] eqn:Ha; [|done..].
    destruct (ctor q); inversion H; subst. eapply laid_out_allocate; eauto.
  - unfold MemoryPool.construct in H.
    destruct (allocate block s) as [[q|e0|] s1] eqn:Ha; [| |done].
    + destruct (ctor q); inversion H; subst. apply laid_out_give_back.
      eapply laid_out_allocate; eauto.
    + inversion H; subst.
      apply (allocate_cases BlockSize sizeofT) in Ha
        as [(_ & q & [=] & _)|[(_ & _ & _ & ->)|[(_ & _ & _ & [=])|(_ & _ & _ & q & [=] & _)]]].
      done.
  - unfold destroy. destruct (N.eqb_spec p nullptr) as [->|Hp]; simpl.
    + eapply laid_out_drop. eapply laid_out_perm; [|exact Hl].
      by apply Permutation_remove_one.
    + replace (deallocate p s) with (deallocate p s) by done.
      apply laid_out_give_back. eapply laid_out_perm; [|exact Hl].
      by apply Permutation_remove_one.
  - done.
Qed.

Lemma laid_out_fresh n block s : 0 < sizeofT -> MemoryPool n block = Returns s -> laid_out (s, []).
Proof.
  intros Hsz. unfold MemoryPool.MemoryPool, MemoryPool.allocate_block. simpl.
  destruct (N.eqb_spec block nullptr) as [|Hb]; [done|]. intros [= <-].
  unfold MemoryPool.laid_out. simpl. rewrite app_nil_r, push_slots_map. simpl.
  split; [|split].
  - intros b1 b2 [<-|[]] [<-|[]]. by left.
  - apply Forall_forall. intros x Hx. apply list_elem_of_fmap in Hx as (i & -> & Hi).
    apply elem_of_seq in Hi. apply slot_in_block; [by left|lia].
  - by apply NoDup_slots.
Qed.

Lemma reachable_apart_laid_out st : 0 < sizeofT -> reachable_apart st -> laid_out st.
Proof.
  intros Hsz. induction 1 as [n block s H|st o st' _ IH Hans Hstep].
  - by eapply laid_out_fresh.
  - by eapply laid_out_step.
Qed.

End MemoryPoolLayout.

Section MemoryPoolExtras.

Import MemoryPool.

Variables (BlockSize sizeofT : nat).

Local Abbreviation opb := (objects_per_block_ BlockSize sizeofT).
Local Abbreviation allocate := (MemoryPool.allocate BlockSize sizeofT).
Local Abbreviation construct := (MemoryPool.construct BlockSize sizeofT).
Local Abbreviation capacity := (MemoryPool.capacity BlockSize sizeofT).
Local Abbreviation reachable := (MemoryPool.reachable BlockSize sizeofT).
Local Abbreviation reachable_apart := (MemoryPool.reachable_apart BlockSize sizeofT).
Local Abbreviation answers := (MemoryPool.answers BlockSize).
Local Abbreviation in_a_block := (MemoryPool.in_a_block BlockSize sizeofT).

(** X1. The freelist is a stack: a slot given back is the slot the next
    allocate returns, and the pool is then as it was before the slot was
    given back, whatever [aligned_alloc] would have answered. *)
Theorem deallocate_then_allocate_returns_the_slot block p (s : pool) :
  p <> nullptr -> allocate block (deallocate p s) = (Returns p, s).
Proof.
  intros Hp. rewrite deallocate_live by done.
  destruct (allocate_from_freelist BlockSize sizeofT block
              {| blocks_ := blocks_ s; free_list_ := free_list_ s ++ [p] |})
    as (q & Hq & ->).
  - simpl. by destruct (free_list_ s).
  - simpl in *. rewrite last_snoc in Hq. inversion Hq; subst.
    rewrite removelast_last. by destruct s.
Qed.

(** X3. No slot is issued twice. When [aligned_alloc] answers blocks that
    do not overlap, a slot that [allocate] returns is neither held by the
    client already nor left in the freelist, and the freelist never holds a
    slot twice. *)
Theorem allocate_never_returns_a_held_slot (s : pool) live block p s' :
  0 < sizeofT -> reachable_apart (s, live) -> answers block s ->
  allocate block s = (Returns p, s') ->
  ~ In p live /\ ~ In p (free_list_ s') /\ NoDup (free_list_ s') /\ NoDup live.
Proof.
  intros Hsz Hr Hans Ha.
  pose proof (reachable_apart_laid_out BlockSize sizeofT _ Hsz Hr) as Hl.
  pose proof (laid_out_allocate BlockSize sizeofT _ _ _ _ _ Hsz Hl Hans Ha)
    as (_ & _ & Hn).
  simpl in Hn. apply NoDup_app in Hn as (Hn1 & Hn2 & Hn3).
  apply NoDup_cons in Hn3 as [Hp Hn3].
  repeat split; try done.
  - intros Hin. apply Hp. by apply list_elem_of_In.
  - intros Hin. apply (Hn2 p); [by apply list_elem_of_In|by left].
Qed.

(** X4. Every slot [allocate] returns lies inside one of the pool's blocks:
    at a whole number of objects from the block's start, with room for one
    object before the block ends. *)
Theorem allocated_slot_lies_in_a_block (s : pool) live block p s' :
  0 < sizeofT -> reachable_apart (s, live) -> answers block s ->
  allocate block s = (Returns p, s') ->
  exists b i, In b (blocks_ s') /\ i < opb
    /\ p = (b + N.of_nat i * N.of_nat sizeofT)%N
    /\ (p + N.of_nat sizeofT <= b + N.of_nat BlockSize)%N.
Proof.
  intros Hsz Hr Hans Ha.
  pose proof (reachable_apart_laid_out BlockSize sizeofT _ Hsz Hr) as Hl.
  pose proof (laid_out_allocate BlockSize sizeofT _ _ _ _ _ Hsz Hl Hans Ha)
    as (_ & Hf & _).
  simpl in Hf. apply Forall_app in Hf as [_ Hf]. inversion Hf as [|? ? Hp _]; subst.
  destruct Hp as (b & i & Hb & Hi & -> & _ & Hhi). by exists b, i.
Qed.

(** X5. A construct that returns has made exactly one constructor call, on
    the slot it returns, whatever the pool. From a pool a client can reach,
    a destroy of that slot makes exactly one destructor call on it and puts
    the slot back in the freelist; when a slot was free before the
    construct, the pool is then exactly as it was before. *)
Theorem construct_then_destroy_restores_the_pool (s : pool) live block ctor p s1 cs :
  construct block ctor s = (Returns p, s1, cs) ->
  cs = [PlacementNew p] /\ ctor p = None
  /\ (reachable (s, live) ->
      snd (destroy p s1) = [Destructor p]
      /\ available (fst (destroy p s1)) = S (available s1)
      /\ (0 < available s -> destroy p s1 = (s, [Destructor p]))).
Proof.
  intros Hc. unfold MemoryPool.construct in Hc.
  destruct (allocate block s) as [[q|e0|] s2] eqn:Ha; [|done..].
  destruct (ctor q) eqn:Hq; inversion Hc; subst. split; [done|]. split; [done|].
  intros Hr.
  pose proof (reachable_accounted _ _ _ Hr) as Hacc.
  pose proof (accounted_allocate _ _ _ _ _ _ _ Hacc Ha) as (_ & _ & Hl). simpl in Hl.
  assert (Hp : p <> nullptr) by (by inversion Hl).
  unfold destroy. destruct (N.eqb_spec p nullptr) as [|_]; [done|].
  rewrite deallocate_live by done. simpl.
  split; [done|]. split.
  { unfold available. simpl. rewrite length_app. simpl. lia. }
  intros Hav.
  apply (allocate_cases BlockSize sizeofT) in Ha
    as [(Hne & q & [= <-] & Hb & Hfl)|[(_ & _ & [=] & _)|[(_ & _ & _ & [=])
       |(E & _)]]].
  - destruct s as [bl fl]. simpl in *. by rewrite Hb, Hfl.
  - apply available_zero_iff in E. lia.
Qed.

End MemoryPoolExtras.

Lemma reachable_apart_fresh_pool :
  MemoryPool.reachable_apart 4096 1024
    (MemoryPool.mkPool [4096%N] [4096; 5120; 6144; 7168]%N, []).
Proof. by apply MemoryPool.reachable_apart_fresh with (n := 1) (block := 4096%N). Qed.

Lemma deallocate_then_allocate_witness :
  MemoryPool.allocate 4096 1024 0%N
    (MemoryPool.deallocate 7168%N (MemoryPool.mkPool [4096%N] [4096; 5120]%N))
  = (MemoryPool.Returns 7168%N, MemoryPool.mkPool [4096%N] [4096; 5120]%N).
Proof.
  apply (deallocate_then_allocate_returns_the_slot 4096 1024). discriminate.
Defined.

Lemma reachable_apart_one_held :
  MemoryPool.reachable_apart 4096 1024
    (MemoryPool.mkPool [4096%N] [4096; 5120; 6144]%N, [7168%N]).
Proof.
  apply (MemoryPool.reachable_apart_step 4096 1024 _ (MemoryPool.OpAllocate 0%N) _
           reachable_apart_fresh_pool).
  - intros block [= <-]. by left.
  - by apply MemoryPool.step_allocate.
Qed.

Lemma allocate_never_returns_a_held_slot_witness :
  ~ In 6144%N [7168%N] /\ ~ In 6144%N [4096; 5120]%N.
Proof.
  destruct (allocate_never_returns_a_held_slot 4096 1024
              (MemoryPool.mkPool [4096%N] [4096; 5120; 6144]%N) [7168%N] 0%N 6144%N
              (MemoryPool.mkPool [4096%N] [4096; 5120]%N)
              ltac:(lia) reachable_apart_one_held (or_introl eq_refl) eq_refl)
    as (H1 & H2 & _).
  split; [exact H1|exact H2].
Defined.

Lemma allocated_slot_lies_in_a_block_witness :
  exists b i, In b [4096%N] /\ i < 4
    /\ 7168%N = (b + N.of_nat i * 1024)%N /\ (7168 + 1024 <= b + 4096)%N.
Proof.
  exact (allocated_slot_lies_in_a_block 4096 1024
           (MemoryPool.mkPool [4096%N] [4096; 5120; 6144; 7168]%N) [] 0%N 7168%N
           (MemoryPool.mkPool [4096%N] [4096; 5120; 6144]%N)
           ltac:(lia) reachable_apart_fresh_pool (or_introl eq_refl) eq_refl).
Defined.

Lemma construct_then_destroy_witness :
  MemoryPool.destroy 7168%N (MemoryPool.mkPool [4096%N] [4096; 5120; 6144]%N)
  = (MemoryPool.mkPool [4096%N] [4096; 5120; 6144; 7168]%N,
     [MemoryPool.Destructor 7168%N]).
Proof.
  destruct (construct_then_destroy_restores_the_pool 4096 1024
              (MemoryPool.mkPool [4096%N] [4096; 5120; 6144; 7168]%N) [] 0%N
              (fun _ => None) 7168%N
              (MemoryPool.mkPool [4096%N] [4096; 5120; 6144]%N)
              [MemoryPool.PlacementNew 7168%N] eq_refl) as (_ & _ & H).
  destruct (H fresh_pool_reachable) as (_ & _ & H').
  exact (H' ltac:(vm_compute; lia)).
Defined.

(** ** MemoryPool: when a vector cannot grow *)

Section MemoryPoolVectorsFacts.

Import MemoryPool.

Variables (BlockSize sizeofT : nat).

Local Abbreviation opb := (objects_per_block_ BlockSize sizeofT).
Local Abbreviation capacity := (MemoryPool.capacity BlockSize sizeofT).
Local Abbreviation allocate := (MemoryPoolVectors.allocate BlockSize sizeofT).
Local Abbreviation construct := (MemoryPoolVectors.construct BlockSize sizeofT).

Lemma length_push_slots_onto block i n fl :
  length (push_slots sizeofT block i n fl) = length fl + n.
Proof.
  revert i fl. induction n as [|n IH]; intros i fl; simpl; [lia|].
  rewrite IH, length_app. simpl. lia.
Qed.

Lemma allocate_throws room block (s : pool) e s' lost :
  allocate room block s = (Throws e, s', lost) ->
  e = bad_alloc /\ available s = 0
  /\ ((block = nullptr /\ s' = s /\ lost = [])
      \/ (block <> nullptr /\ room = Some 0 /\ s' = s /\ lost = [block])
      \/ (block <> nullptr /\ lost = []
          /\ exists k, room = Some (S k) /\ k < opb
               /\ blocks_ s' = blocks_ s ++ [block]
               /\ free_list_ s' = push_slots sizeofT block 0 k []
               /\ capacity s' = capacity s + opb
               /\ available s' = k)).
Proof.
  unfold MemoryPoolVectors.allocate.
  destruct (free_list_ s) as [|p fl] eqn:Efl.
  - unfold MemoryPoolVectors.allocate_block. rewrite Efl.
    destruct (N.eqb_spec block nullptr) as [->|Hb].
    { intros [= <- <- <-]. split; [done|]. split; [by unfold available; rewrite Efl|].
      by left. }
    destruct room as [[|k]|].
    + intros [= <- <- <-]. split; [done|]. split; [by unfold available; rewrite Efl|].
      right. left. done.
    + destruct (Nat.ltb_spec k opb) as [Hk|Hk].
      * intros [= <- <- <-]. split; [done|]. split; [by unfold available; rewrite Efl|].
        right. right. split; [done|]. split; [done|]. exists k.
        split; [done|]. split; [done|]. simpl. split; [done|]. split; [done|].
        split.
        { unfold MemoryPool.capacity. simpl. rewrite length_app. simpl. lia. }
        unfold available. simpl. by rewrite length_push_slots_onto.
      * simpl. destruct (last _); intros [=].
    + simpl. destruct (last _); intros [=].
  - simpl. destruct (last (free_list_ s)); intros [=].
Qed.

(** X2. [allocate] throws nothing but [std::bad_alloc], and only when the
    freelist is empty. When [aligned_alloc] answered null the pool is
    unchanged. When [blocks_.push_back] failed the pool is unchanged and the
    block obtained is recorded nowhere. When a [free_list_.push_back]
    failed, the pool keeps the new block and the slots pushed before the
    failure: [capacity()] has grown by a whole block and [available()] is
    the number of slots pushed. With a slot free [allocate] does not throw,
    and when no [push_back] fails it is the [allocate] of the other
    theorems. [construct], when its allocation throws, throws the same,
    leaves the pool as [allocate] left it and does not call the element
    constructor. *)
Theorem allocate_throws_only_bad_alloc room block (s : pool) :
  (forall e s' lost, allocate room block s = (Throws e, s', lost) ->
     e = bad_alloc /\ available s = 0
     /\ ((block = nullptr /\ s' = s /\ lost = [])
         \/ (block <> nullptr /\ room = Some 0 /\ s' = s /\ lost = [block])
         \/ (block <> nullptr /\ lost = []
             /\ exists k, room = Some (S k) /\ k < opb
                  /\ blocks_ s' = blocks_ s ++ [block]
                  /\ free_list_ s' = push_slots sizeofT block 0 k []
                  /\ capacity s' = capacity s + opb
                  /\ available s' = k)))
  /\ (0 < available s ->
      allocate room block s
      = (fst (MemoryPool.allocate BlockSize sizeofT block s),
         snd (MemoryPool.allocate BlockSize sizeofT block s), [])
      /\ forall e, fst (MemoryPool.allocate BlockSize sizeofT block s) <> Throws e)
  /\ allocate None block s
     = (fst (MemoryPool.allocate BlockSize sizeofT block s),
        snd (MemoryPool.allocate BlockSize sizeofT block s), [])
  /\ (forall ctor e s' lost,
        allocate room block s = (Throws e, s', lost) ->
        construct room block ctor s = (Throws e, s', [], lost))
  /\ (forall ctor e s' cs lost,
        construct room block ctor s = (Throws e, s', cs, lost) ->
        cs = [] -> allocate room block s = (Throws e, s', lost)).
Proof.
  split; [intros e s' lost; apply allocate_throws|]. split; [|split; [|split]].
  - intros Hav. unfold MemoryPoolVectors.allocate, MemoryPool.allocate, available in *.
    destruct (free_list_ s) as [|p fl] eqn:Efl; [simpl in Hav; lia|].
    cbn [fst snd]. split.
    + by destruct (last (free_list_ s)).
    + intros e. by destruct (last (free_list_ s)).
  - unfold MemoryPoolVectors.allocate, MemoryPool.allocate.
    destruct (free_list_ s) as [|p fl] eqn:Efl.
    + unfold MemoryPoolVectors.allocate_block, MemoryPool.allocate_block.
      destruct (block =? nullptr)%N; [done|]. cbn [fst snd].
      by destruct (last _).
    + by destruct (last (free_list_ s)).
  - intros ctor e s' lost Ha. unfold MemoryPoolVectors.construct. by rewrite Ha.
  - intros ctor e s' cs lost Hc ->. unfold MemoryPoolVectors.construct in Hc.
    destruct (allocate room block s) as [[[p|e0|] s1] lost1]; [| |done].
    + destruct (ctor p); inversion Hc.
    + by inversion Hc.
Qed.

End MemoryPoolVectorsFacts.

Lemma allocate_throws_witness :
  MemoryPoolVectors.construct 4096 1024 (Some 3) 8192%N (fun _ => None)
    (MemoryPool.mkPool [4096%N] [])
  = (MemoryPool.Throws MemoryPool.bad_alloc,
     MemoryPool.mkPool [4096; 8192]%N [8192; 9216]%N, [], []).
Proof.
  destruct (allocate_throws_only_bad_alloc 4096 1024 (Some 3) 8192%N
              (MemoryPool.mkPool [4096%N] [])) as (_ & _ & _ & H & _).
  exact (H (fun _ => None) _ _ _ eq_refl).
Defined.

(** ** ThreadPool: order of execution and shutdown *)

Section ThreadPoolExtras.

Import ThreadPool.

Variables (V World : Type).

Local Abbreviation callable := (ThreadPool.callable V World).
Local Abbreviation pool := (ThreadPool.pool V World).

(** The queue entries a run of enqueues leaves: handle [base + i] for the
    [i]-th callable. *)
Lemma enqueue_all_spec (fs : list callable) (s : pool) :
  stop_ s = false ->
  enqueue_all fs s
  = (map Returns (seq (length (heap s)) (length fs)),
     {| workers_ := workers_ s;
        tasks_ := tasks_ s ++ zip_with mkQueued (seq (length (heap s)) (length fs)) fs;
        stop_ := false;
        heap := heap s ++ replicate (length fs) None |}).
Proof.
  revert s. induction fs as [|f fs IH]; intros s Hs; simpl.
  - rewrite !app_nil_r. destruct s; simpl in *. by subst.
  - unfold enqueue at 1. rewrite Hs. rewrite IH by done. simpl.
    rewrite length_app. simpl. rewrite Nat.add_1_r, <- !app_assoc. done.
Qed.

Lemma future_state_insert_ne (s : pool) h h' r :
  h <> h' ->
  future_state h
    {| workers_ := workers_ s; tasks_ := tasks_ s; stop_ := stop_ s;
       heap := <[h' := r]> (heap s) |}
  = future_state h s.
Proof. intros Hne. unfold future_state. simpl. by rewrite list_lookup_insert_ne. Qed.

(** A worker that finds the entries of [fs] in the queue runs them front to
    back, one per turn, and fills each future. *)
Lemma work_runs_the_queue (fs : list callable) base (s : pool) w :
  tasks_ s = zip_with mkQueued (seq base (length fs)) fs ->
  base + length fs <= length (heap s) ->
  tasks_ (fst (work (length fs) s w)) = []
  /\ stop_ (fst (work (length fs) s w)) = stop_ s
  /\ workers_ (fst (work (length fs) s w)) = workers_ s
  /\ length (heap (fst (work (length fs) s w))) = length (heap s)
  /\ snd (work (length fs) s w) = snd (outcomes fs w)
  /\ (forall i r, fst (outcomes fs w) !! i = Some r ->
        future_state (base + i) (fst (work (length fs) s w)) = Some r)
  /\ (forall h, h < base ->
        future_state h (fst (work (length fs) s w)) = future_state h s).
Proof.
  revert base s w. induction fs as [|f fs IH]; intros base s w Hq Hlen; simpl in *.
  - repeat split; done.
  - unfold worker_turn, run_task. rewrite Hq. simpl.
    destruct (f w) as [w1 r1] eqn:Hf. simpl.
    destruct (outcomes fs w1) as [rs w2] eqn:Ho. simpl.
    set (s1 := {| workers_ := workers_ s;
                  tasks_ := zip_with mkQueued (seq (S base) (length fs)) fs;
                  stop_ := stop_ s;
                  heap := <[base := Some r1]> (heap s) |}).
    destruct (IH (S base) s1 w1) as (H1 & H2 & H3 & H4 & H5 & H6 & H7).
    { done. }
    { simpl. rewrite length_insert. lia. }
    rewrite Ho in H5, H6. simpl in *.
    rewrite length_insert in H4.
    repeat split; try done.
    + intros [|i] r Hi; simpl in Hi.
      * inversion Hi; subst. rewrite Nat.add_0_r. rewrite H7 by lia.
        unfold future_state, s1. simpl. rewrite list_lookup_insert_eq by lia. done.
      * replace (base + S i) with (S base + i) by lia. by apply H6.
    + intros h Hh. rewrite H7 by lia. unfold s1, future_state. simpl.
      rewrite list_lookup_insert_ne by lia. done.
Qed.

Lemma worker_turn_cons wk (t : queued V World) rest stop hp w :
  worker_turn (mkPool wk (t :: rest) stop hp) w
  = Ran (mkPool wk rest stop (<[target t := Some (snd (body t w))]> hp))
        (fst (body t w)).
Proof. unfold worker_turn, run_task. simpl. by destruct (body t w). Qed.

Lemma worker_stays_while_tasks_are_queued (fs : list callable) base wk stop hp w n :
  n < length fs ->
  worker_turn
    (fst (work n (mkPool wk (zip_with mkQueued (seq base (length fs)) fs) stop hp) w))
    (snd (work n (mkPool wk (zip_with mkQueued (seq base (length fs)) fs) stop hp) w))
  <> Exits.
Proof.
  revert base hp w n. induction fs as [|f fs IH]; intros base hp w n Hn; simpl in *; [lia|].
  destruct n as [|n]; cbn [work].
  - simpl. by rewrite worker_turn_cons.
  - rewrite worker_turn_cons. apply IH. lia.
Qed.

(** X6. Tasks run in submission order and every future is fulfilled. On a
    pool with an empty queue and the stop flag clear, after the callables
    [fs] have been enqueued and a worker has taken one turn per task (tasks
    run one at a time): the handles are consecutive, the queue is empty, the
    [i]-th future holds what the [i]-th callable returned or threw when
    called after its predecessors, a throwing task stops nothing, and the
    worker then blocks. *)
Theorem tasks_run_in_order_and_fill_their_futures (fs : list callable) (s : pool) w :
  stop_ s = false -> tasks_ s = [] ->
  let base := length (heap s) in
  fst (enqueue_all fs s) = map Returns (seq base (length fs))
  /\ pending_tasks (snd (enqueue_all fs s)) = length fs
  /\ pending_tasks (fst (work (length fs) (snd (enqueue_all fs s)) w)) = 0
  /\ snd (work (length fs) (snd (enqueue_all fs s)) w) = snd (outcomes fs w)
  /\ (forall i r, fst (outcomes fs w) !! i = Some r ->
        future_state (base + i) (fst (work (length fs) (snd (enqueue_all fs s)) w))
        = Some r)
  /\ worker_turn (fst (work (length fs) (snd (enqueue_all fs s)) w))
       (snd (work (length fs) (snd (enqueue_all fs s)) w)) = Blocked.
Proof.
  intros Hs Hq base. subst base. rewrite enqueue_all_spec by done. simpl.
  rewrite Hq. simpl.
  set (s1 := {| workers_ := workers_ s;
                tasks_ := zip_with mkQueued (seq (length (heap s)) (length fs)) fs;
                stop_ := false;
                heap := heap s ++ replicate (length fs) None |}).
  destruct (work_runs_the_queue fs (length (heap s)) s1 w)
    as (H1 & H2 & H3 & H4 & H5 & H6 & H7).
  { done. }
  { simpl. rewrite length_app, length_replicate. lia. }
  split; [done|]. split.
  { unfold pending_tasks. simpl. rewrite length_zip_with, length_seq. lia. }
  split; [unfold pending_tasks; by rewrite H1|]. split; [done|]. split; [done|].
  unfold worker_turn. rewrite H1, H2. done.
Qed.

(** X7. The stop flag drops no queued task. From the moment the destructor
    has set the flag, enqueue is refused; a worker that goes on taking turns
    still runs every task that was queued, in order, with the same results
    and the same final world as without the flag, and it does not leave its
    loop while a task is queued. Whether a sleeping worker is woken is not
    part of the statement. *)
Theorem queued_tasks_survive_the_stop_flag (fs : list callable) (s : pool) w :
  stop_ s = false -> tasks_ s = [] ->
  let base := length (heap s) in
  let stopped := begin_shutdown (snd (enqueue_all fs s)) in
  pending_tasks stopped = length fs
  /\ (forall f, enqueue f stopped = (Throws SchedulerClosed, stopped))
  /\ pending_tasks (fst (work (length fs) stopped w)) = 0
  /\ snd (work (length fs) stopped w) = snd (outcomes fs w)
  /\ (forall i r, fst (outcomes fs w) !! i = Some r ->
        future_state (base + i) (fst (work (length fs) stopped w)) = Some r)
  /\ (forall n, n < length fs ->
        worker_turn (fst (work n stopped w)) (snd (work n stopped w)) <> Exits).
Proof.
  intros Hs Hq base stopped. subst stopped base. rewrite enqueue_all_spec by done.
  unfold begin_shutdown. simpl. rewrite Hq. simpl.
  set (s1 := {| workers_ := workers_ s;
                tasks_ := zip_with mkQueued (seq (length (heap s)) (length fs)) fs;
                stop_ := true;
                heap := heap s ++ replicate (length fs) None |}).
  destruct (work_runs_the_queue fs (length (heap s)) s1 w)
    as (H1 & H2 & H3 & H4 & H5 & H6 & H7).
  { done. }
  { simpl. rewrite length_app, length_replicate. lia. }
  split.
  { unfold pending_tasks. simpl. rewrite length_zip_with, length_seq. lia. }
  split; [done|].
  split; [unfold pending_tasks; by rewrite H1|]. split; [done|]. split; [done|].
  intros n Hn. by apply worker_stays_while_tasks_are_queued.
Qed.

End ThreadPoolExtras.

Section ThreadPoolRuns.

Import Examples.

Lemma tasks_run_in_order_witness :
  fst (ThreadPool.enqueue_all three_tasks (ThreadPool.new_pool 2))
  = [ThreadPool.Returns 0; ThreadPool.Returns 1; ThreadPool.Returns 2]
  /\ ThreadPool.future_state 1
       (fst (ThreadPool.work 3
               (snd (ThreadPool.enqueue_all three_tasks (ThreadPool.new_pool 2))) 5))
     = Some (ThreadPool.Throws (ThreadPool.task_exception 7))
  /\ ThreadPool.future_state 2
       (fst (ThreadPool.work 3
               (snd (ThreadPool.enqueue_all three_tasks (ThreadPool.new_pool 2))) 5))
     = Some (ThreadPool.Returns 6).
Proof.
  destruct (tasks_run_in_order_and_fill_their_futures nat nat three_tasks
              (ThreadPool.new_pool 2) 5 eq_refl eq_refl) as (H1 & _ & _ & _ & H5 & _).
  split; [exact H1|]. split; [exact (H5 1 _ eq_refl)|exact (H5 2 _ eq_refl)].
Defined.

Lemma queued_tasks_survive_witness :
  snd (ThreadPool.work 3
         (ThreadPool.begin_shutdown
            (snd (ThreadPool.enqueue_all three_tasks (ThreadPool.new_pool 2)))) 5)
  = 16
  /\ ThreadPool.future_state 1
       (fst (ThreadPool.work 3
               (ThreadPool.begin_shutdown
                  (snd (ThreadPool.enqueue_all three_tasks (ThreadPool.new_pool 2)))) 5))
     = Some (ThreadPool.Throws (ThreadPool.task_exception 7))
  /\ ThreadPool.worker_turn
       (fst (ThreadPool.work 2
               (ThreadPool.begin_shutdown
                  (snd (ThreadPool.enqueue_all three_tasks (ThreadPool.new_pool 2)))) 5))
       (snd (ThreadPool.work 2
               (ThreadPool.begin_shutdown
                  (snd (ThreadPool.enqueue_all three_tasks (ThreadPool.new_pool 2)))) 5))
     <> ThreadPool.Exits.
Proof.
  destruct (queued_tasks_survive_the_stop_flag nat nat three_tasks
              (ThreadPool.new_pool 2) 5 eq_refl eq_refl)
    as (_ & _ & _ & H4 & H5 & H6).
  split; [exact H4|]. split; [exact (H5 1 _ eq_refl)|exact (H6 2 ltac:(simpl; lia))].
Defined.

End ThreadPoolRuns.

(** ** ThreadPool: the destructor and a worker about to sleep *)

Section ThreadPoolThreadsFacts.

Import ThreadPoolThreads.

(** X27. The destructor can block forever. A worker that has found its
    wait predicate false and has not blocked yet misses the store of
    [stop_] and the [notify_all], which [~ThreadPool] makes without
    [queue_mutex_]: started with one worker and nothing queued, the pool
    reaches a state in which the flag is set, the worker is blocked in
    [condition_.wait] and the destructor is inside [join] on it. In every
    such state no thread can move, short of a wake-up without notification;
    an [enqueue] is refused and changes nothing. *)
Theorem destructor_can_block_forever :
  (exists st, run lost_wakeup (start 1) = Some st
     /\ asleep_at_shutdown st /\ tasks_ st = [] /\ mutex st = None
     /\ workers_ st = [WBlocked] /\ destructor st = DJoin 0)
  /\ (forall st l st',
        asleep_at_shutdown st -> step l st = Some st' ->
        (exists i, l = Spurious i) \/ st' = st).
Proof.
  split.
  - eexists. split; [reflexivity|]. split; [|done].
    split; [done|]. split; [by repeat constructor|]. by exists 0.
  - intros st l st' (Hstop & Hall & i & Hd & Hi) Hstep.
    destruct l as [j|task wake| |j]; simpl in Hstep.
    + unfold worker_step in Hstep.
      destruct (workers_ st !! j) as [pc|] eqn:Ej; [|done].
      rewrite Forall_forall in Hall.
      destruct (Hall pc) as [->| ->]; [by eapply list_elem_of_lookup_2|done..].
    + unfold enqueue_step in Hstep. destruct (mutex st); [done|].
      rewrite Hstop in Hstep. right. by inversion Hstep.
    + unfold destructor_step in Hstep. by rewrite Hd, Hi in Hstep.
    + left. by exists j.
Qed.

End ThreadPoolThreadsFacts.

(** ** EventBus: the dispatcher and the queue *)

Section EventBusThreadsExtras.

Import EventBus EventBusThreads.

Variables (Payload World : Type).

Local Abbreviation Event := (EventBus.Event Payload).
Local Abbreviation bus := (EventBus.bus Payload World).
Local Abbreviation exec := (EventBus.exec Payload World).
Local Abbreviation system := (EventBusThreads.system Payload World).
Local Abbreviation command := (EventBusThreads.command Payload).

Lemma published_of_app (t1 t2 : list (obs Payload)) :
  published_of (t1 ++ t2) = published_of t1 ++ published_of t2.
Proof. apply omap_app. Qed.

Lemma dispatched_of_app (t1 t2 : list (obs Payload)) :
  dispatched_of (t1 ++ t2) = dispatched_of t1 ++ dispatched_of t2.
Proof. apply omap_app. Qed.

Lemma conserved_worker_step (st st' : system) :
  conserved st -> worker_step st = Some st' -> conserved st'.
Proof.
  intros [Ha Hc] Hstep. unfold worker_step in Hstep. unfold conserved.
  destruct (worker st) eqn:Hw; simpl in Hc.
  - destruct (event_queue_ (the_bus st)) as [|ev q] eqn:Hq.
    + destruct (shutdown_requested_ (the_bus st)); inversion Hstep; subst; simpl.
      by rewrite Hq.
    + inversion Hstep; subst; simpl. by rewrite Hq.
  - destruct (dispatch_polymorphic_event event (the_bus st) (the_exec st)) as [x' r].
    inversion Hstep; subst; simpl. split; [done|].
    rewrite published_of_app, dispatched_of_app, Hc. simpl.
    rewrite app_nil_r, <- app_assoc. by destruct r.
  - destruct (event_queue_ (the_bus st)) as [|ev q] eqn:Hq;
      inversion Hstep; subst; simpl; by rewrite Hq.
  - done.
  - done.
Qed.

Lemma conserved_client_step (st st' : system) :
  conserved st -> client_step st = Some st' -> conserved st'.
Proof.
  intros [Ha Hc] Hstep. unfold client_step in Hstep. unfold conserved.
  destruct (client st) as [[|[T ev|] rest]|rest].
  - done.
  - unfold publish in Hstep. rewrite Ha in Hstep. inversion Hstep; subst; simpl.
    split; [done|]. rewrite published_of_app, dispatched_of_app, Hc. simpl.
    by rewrite !app_nil_r, <- !app_assoc.
  - rewrite Ha in Hstep. simpl in Hstep.
    destruct (event_queue_ (the_bus st)) eqn:Hq; inversion Hstep; subst; simpl;
      rewrite published_of_app, dispatched_of_app, Hc, ?Hq; simpl;
      by rewrite !app_nil_r.
  - destruct (event_queue_ (the_bus st)) eqn:Hq; inversion Hstep; subst; simpl.
    rewrite published_of_app, dispatched_of_app, Hc, ?Hq; simpl.
    by rewrite !app_nil_r.
Qed.

Lemma conserved_run schedule (st st' : system) :
  conserved st -> run schedule st = Some st' -> conserved st'.
Proof.
  revert st. induction schedule as [|a rest IH]; intros st Hc; simpl.
  - by intros [= <-].
  - destruct (step a st) as [st1|] eqn:Hs; [|done]. apply IH.
    destruct a; simpl in Hs.
    + by eapply conserved_worker_step.
    + by eapply conserved_client_step.
Qed.

(** X8. In asynchronous mode nothing is lost, repeated or reordered. Under
    every schedule of the dispatcher and a client that publishes and
    flushes, at every moment the events published so far are exactly the
    events dispatched so far, followed by the event the dispatcher has
    popped, followed by the queue: events are dispatched in publish order,
    each at most once, and none that was not published. *)
Theorem asynchronous_dispatch_preserves_publish_order
    (b : bus) w (program : list command) schedule (st : system) :
  event_queue_ b = [] ->
  run schedule (start b w program) = Some st ->
  published_of (trace st)
  = dispatched_of (trace st) ++ in_flight (worker st) ++ event_queue_ (the_bus st)
  /\ dispatched_of (trace st) `prefix_of` published_of (trace st).
Proof.
  intros Hq Hrun.
  assert (Hc : conserved st).
  { eapply conserved_run; [|exact Hrun]. split; [done|]. simpl. by rewrite Hq. }
  destruct Hc as [_ Hc]. split; [done|]. rewrite Hc. by eexists.
Qed.

Lemma dispatch_polymorphic_subscribers (ev : Event) (b : bus) (x : exec) :
  dispatch_polymorphic_event ev b x = dispatch_loop (subscribers (type_id ev) b) ev x.
Proof.
  unfold dispatch_polymorphic_event, subscribers. by destruct (handlers_ b !! type_id ev).
Qed.

Lemma dispatch_polymorphic_handlers (ev : Event) (b b' : bus) (x : exec) :
  handlers_ b' = handlers_ b ->
  dispatch_polymorphic_event ev b' x = dispatch_polymorphic_event ev b x.
Proof. intros H. unfold dispatch_polymorphic_event. by rewrite H. Qed.

Lemma dispatch_queue_handlers q (b b' : bus) (x : exec) :
  handlers_ b' = handlers_ b -> dispatch_queue q b' x = dispatch_queue q b x.
Proof.
  intros H. revert x. induction q as [|ev q IH]; intros x; simpl; [done|].
  by rewrite (dispatch_polymorphic_handlers ev b b' x H), IH.
Qed.

Lemma well_behaved_handlers q (b b' : bus) :
  handlers_ b' = handlers_ b -> well_behaved q b -> well_behaved q b'.
Proof.
  intros H. unfold well_behaved, subscribers. by rewrite H.
Qed.

Lemma well_behaved_dispatch (ev : Event) (b : bus) (x : exec) :
  Forall (raises_only_std ev) (subscribers (type_id ev) b) ->
  snd (dispatch_polymorphic_event ev b x) = None.
Proof.
  intros H. by rewrite dispatch_polymorphic_subscribers, dispatch_loop_isolates.
Qed.

(** From the test of the inner loop, with [q] queued and nobody else
    moving, the dispatcher dispatches all of [q] in order and goes back to
    wait. *)
Lemma dispatcher_drains_from_relock q (st : system) :
  worker st = WRelock -> event_queue_ (the_bus st) = q -> well_behaved q (the_bus st) ->
  exists st',
    run (replicate (2 * length q + 1) Worker) st = Some st'
    /\ worker st' = WWait
    /\ event_queue_ (the_bus st') = []
    /\ handlers_ (the_bus st') = handlers_ (the_bus st)
    /\ shutdown_requested_ (the_bus st') = shutdown_requested_ (the_bus st)
    /\ async_mode_ (the_bus st') = async_mode_ (the_bus st)
    /\ the_exec st' = dispatch_queue q (the_bus st) (the_exec st)
    /\ trace st' = trace st ++ map Dispatched q
    /\ client st' = client st.
Proof.
  revert st. induction q as [|ev q IH]; intros st Hw Hq Hwb.
  - simpl. unfold worker_step. rewrite Hw, Hq. eexists. split; [reflexivity|].
    simpl. rewrite app_nil_r. repeat split; done.
  - replace (2 * length (ev :: q) + 1) with (S (S (2 * length q + 1)))
      by (simpl; lia).
    cbn [replicate run step]. unfold worker_step at 1. rewrite Hw, Hq.
    unfold worker_step at 1. cbn [worker the_bus the_exec trace client].
    inversion Hwb as [|? ? Hev Hrest]; subst.
    pose proof (well_behaved_dispatch ev (pop_queue Payload World (the_bus st))
                  (the_exec st)
                  ltac:(unfold subscribers in *; exact Hev)) as Hnone.
    destruct (dispatch_polymorphic_event ev (pop_queue Payload World (the_bus st))
                (the_exec st)) as [x' r] eqn:Hd.
    simpl in Hnone. subst r.
    edestruct (IH {| the_bus := pop_queue Payload World (the_bus st);
                     the_exec := x'; worker := WRelock; client := client st;
                     trace := trace st ++ [Dispatched ev] |})
      as (st' & Hrun & H1 & H2 & H3 & H4 & H5 & H6 & H7 & H8).
    { done. }
    { simpl. by rewrite Hq. }
    { simpl. by apply (well_behaved_handlers q (the_bus st)). }
    exists st'. split; [exact Hrun|]. simpl in *.
    repeat split; try done.
    + rewrite H6. rewrite (dispatch_queue_handlers q (the_bus st)) by done.
      rewrite (dispatch_polymorphic_handlers ev (the_bus st)) in Hd by done.
      by rewrite Hd.
    + rewrite H7, <- app_assoc. done.
Qed.

Lemma drain_steps_cons (ev : Event) q :
  drain_steps (ev :: q) = S (S (2 * length q + 1)).
Proof. unfold drain_steps. simpl. lia. Qed.

(** The dispatcher's run from its wait to its next wait. *)
Lemma dispatcher_drains_from_wait (st : system) q :
  worker st = WWait -> event_queue_ (the_bus st) = q -> q <> [] ->
  well_behaved q (the_bus st) ->
  exists st',
    run (replicate (drain_steps q) Worker) st = Some st'
    /\ worker st' = WWait
    /\ event_queue_ (the_bus st') = []
    /\ the_exec st' = dispatch_queue q (the_bus st) (the_exec st)
    /\ trace st' = trace st ++ map Dispatched q
    /\ client st' = client st
    /\ handlers_ (the_bus st') = handlers_ (the_bus st)
    /\ shutdown_requested_ (the_bus st') = shutdown_requested_ (the_bus st)
    /\ (shutdown_requested_ (the_bus st) = false -> worker_step st' = None).
Proof.
  intros Hw Hq Hne Hwb. destruct q as [|ev q]; [done|]. clear Hne.
  rewrite drain_steps_cons. cbn [replicate run step].
  unfold worker_step at 1. rewrite Hw, Hq.
  unfold worker_step at 1. cbn [worker the_bus the_exec trace client].
  inversion Hwb as [|? ? Hev Hrest]; subst.
  pose proof (well_behaved_dispatch ev (pop_queue Payload World (the_bus st))
                (the_exec st)
                ltac:(unfold subscribers in *; exact Hev)) as Hnone.
  destruct (dispatch_polymorphic_event ev (pop_queue Payload World (the_bus st))
              (the_exec st)) as [x' r] eqn:Hd.
  simpl in Hnone. subst r.
  edestruct (dispatcher_drains_from_relock q
               {| the_bus := pop_queue Payload World (the_bus st);
                  the_exec := x'; worker := WRelock; client := client st;
                  trace := trace st ++ [Dispatched ev] |})
    as (st' & Hrun & H1 & H2 & H3 & H4 & H5 & H6 & H7 & H8).
  { done. }
  { simpl. by rewrite Hq. }
  { simpl. by apply (well_behaved_handlers q (the_bus st)). }
  exists st'. split; [exact Hrun|]. simpl in *.
  repeat split; try done.
  - rewrite H6. rewrite (dispatch_queue_handlers q (the_bus st)) by done.
    rewrite (dispatch_polymorphic_handlers ev (the_bus st)) in Hd by done.
    by rewrite Hd.
  - rewrite H7, <- app_assoc. done.
  - intros Hs. unfold worker_step. rewrite H1, H2, H4, Hs. done.
Qed.

(** X9. With no thread inside [flush], so that the dispatcher is the only
    thread waiting on [queue_cv_] and the notification of the publish that
    filled the queue is its own: left alone with a queue [q] (not empty)
    whose handlers return or throw [std::exception]s, the waiting dispatcher
    dispatches every event of [q], in queue order, with the handlers'
    effects composed in that order; it ends with the queue empty, waiting
    again, and can take no further step until something is published or
    shutdown is requested. *)
Theorem dispatcher_drains_the_queue (st : system) q program :
  client st = CRun program ->
  worker st = WWait -> event_queue_ (the_bus st) = q -> q <> [] ->
  well_behaved q (the_bus st) ->
  exists st',
    run (replicate (drain_steps q) Worker) st = Some st'
    /\ worker st' = WWait
    /\ event_queue_ (the_bus st') = []
    /\ the_exec st' = dispatch_queue q (the_bus st) (the_exec st)
    /\ trace st' = trace st ++ map Dispatched q
    /\ client st' = client st
    /\ handlers_ (the_bus st') = handlers_ (the_bus st)
    /\ shutdown_requested_ (the_bus st') = shutdown_requested_ (the_bus st)
    /\ (shutdown_requested_ (the_bus st) = false -> worker_step st' = None).
Proof. intros _. apply dispatcher_drains_from_wait. Qed.

Lemma run_app l1 l2 (st : system) :
  run (l1 ++ l2) st = match run l1 st with Some st1 => run l2 st1 | None => None end.
Proof.
  revert st. induction l1 as [|a l1 IH]; intros st; simpl; [done|].
  by destruct (step a st).
Qed.

(** X10. Shutdown drains. With no thread inside [flush], so that the
    [notify_one] of [shutdown] can only reach the dispatcher: with shutdown
    requested while [q] is queued, the dispatcher dispatches all of [q] in
    order before it leaves its loop, and only then stops for good. *)
Theorem shutdown_dispatches_the_queue_first (st : system) q program :
  client st = CRun program ->
  worker st = WWait -> event_queue_ (the_bus st) = q -> well_behaved q (the_bus st) ->
  exists st',
    run (replicate (drain_steps q + 1) Worker) (request_shutdown st) = Some st'
    /\ worker st' = WDone
    /\ event_queue_ (the_bus st') = []
    /\ the_exec st' = dispatch_queue q (the_bus st) (the_exec st)
    /\ trace st' = trace st ++ map Dispatched q
    /\ worker_step st' = None.
Proof.
  intros _ Hw Hq Hwb. destruct q as [|ev q].
  - simpl. unfold worker_step. simpl. rewrite Hw, Hq. eexists. split; [reflexivity|].
    simpl. rewrite app_nil_r. repeat split; done.
  - destruct (dispatcher_drains_from_wait (request_shutdown st) (ev :: q))
      as (st1 & Hrun & H1 & H2 & H3 & H4 & H5 & H6 & H7 & _); try done.
    rewrite Nat.add_1_r, replicate_S_end, run_app, Hrun.
    simpl. unfold worker_step. rewrite H1, H2, H7. simpl.
    eexists. split; [reflexivity|]. simpl. repeat split; done.
Qed.

(** The client's publishes in asynchronous mode only fill the queue. *)
Lemma client_publishes_fill_the_queue q rest (st : system) :
  async_mode_ (the_bus st) = true ->
  client st = CRun (map (fun ev => Publish (type_id ev) ev) q ++ rest) ->
  exists st',
    run (replicate (length q) Client) st = Some st'
    /\ event_queue_ (the_bus st') = event_queue_ (the_bus st) ++ q
    /\ handlers_ (the_bus st') = handlers_ (the_bus st)
    /\ shutdown_requested_ (the_bus st') = shutdown_requested_ (the_bus st)
    /\ async_mode_ (the_bus st') = true
    /\ the_exec st' = the_exec st
    /\ worker st' = worker st
    /\ client st' = CRun rest
    /\ trace st' = trace st ++ map Published q.
Proof.
  revert st. induction q as [|ev q IH]; intros st Ha Hc; simpl in *.
  - eexists. split; [reflexivity|]. rewrite !app_nil_r. repeat split; done.
  - unfold client_step at 1. rewrite Hc. unfold publish. rewrite Ha.
    edestruct (IH {| the_bus :=
                       {| handlers_ := handlers_ (the_bus st);
                          event_queue_ := event_queue_ (the_bus st) ++ [ev];
                          worker_joinable := worker_joinable (the_bus st);
                          async_mode_ := true;
                          shutdown_requested_ := shutdown_requested_ (the_bus st) |};
                     the_exec := the_exec st; worker := worker st;
                     client := CRun (map (fun ev => Publish (type_id ev) ev) q ++ rest);
                     trace := trace st ++ [Published ev] |})
      as (st' & Hrun & H1 & H2 & H3 & H4 & H5 & H6 & H7 & H8); [done|done|].
    exists st'. simpl in *. split; [exact Hrun|].
    rewrite H1, H8, <- !app_assoc. repeat split; done.
Qed.

Lemma publish_all_dispatch_queue q (b : bus) (x : exec) :
  async_mode_ b = false -> publish_all q b x = dispatch_queue q b x.
Proof.
  intros Hs. revert x. induction q as [|ev q IH]; intros x; simpl; [done|].
  rewrite <- IH. f_equal. unfold publish. rewrite Hs.
  unfold dispatch_event, dispatch_polymorphic_event.
  by destruct (handlers_ b !! type_id ev) as [hs|]; [destruct (dispatch_loop hs ev x)|].
Qed.

(** X11. Asynchronous dispatch does what synchronous publishing does. When
    a client publishes the events [q], each under its own type, on a bus
    switched to asynchronous mode, and the dispatcher then drains the queue,
    the handlers have been called in the same order, with the same effect on
    the world, as if the same events had been published one by one in
    synchronous mode. *)
Theorem asynchronous_dispatch_matches_synchronous_publish (b : bus) w q :
  async_mode_ b = false -> event_queue_ b = [] -> q <> [] -> well_behaved q b ->
  exists st,
    run (replicate (length q) Client ++ replicate (drain_steps q) Worker)
        (start b w (map (fun ev => Publish (type_id ev) ev) q)) = Some st
    /\ the_exec st = publish_all q b {| world := w; calls := [] |}
    /\ event_queue_ (the_bus st) = []
    /\ client st = CRun []
    /\ worker st = WWait
    /\ published_of (trace st) = q
    /\ dispatched_of (trace st) = q.
Proof.
  intros Hs Hq Hne Hwb.
  destruct (client_publishes_fill_the_queue q []
              (start b w (map (fun ev => Publish (type_id ev) ev) q)))
    as (st1 & Hrun1 & H1 & H2 & H3 & H4 & H5 & H6 & H7 & H8).
  { done. }
  { simpl. by rewrite app_nil_r. }
  simpl in H1, H2, H5, H6, H8. rewrite Hq in H1. simpl in H1.
  destruct (dispatcher_drains_from_wait st1 q)
    as (st2 & Hrun2 & G1 & G2 & G3 & G4 & G5 & G6 & G7 & _); try done.
  { by apply (well_behaved_handlers q b). }
  exists st2. rewrite run_app, Hrun1. split; [exact Hrun2|].
  split.
  { rewrite G3, H5. rewrite (dispatch_queue_handlers q b) by done.
    by rewrite publish_all_dispatch_queue. }
  split; [done|]. split; [by rewrite G5|]. split; [done|].
  rewrite G4, H8, published_of_app, dispatched_of_app. simpl.
  assert (P1 : forall l : list Event, published_of (map Published l) = l).
  { induction l as [|e l IHl]; simpl; [done|]. unfold published_of in *. simpl.
    by rewrite IHl. }
  assert (P2 : forall l : list Event, published_of (map Dispatched l) = []).
  { induction l as [|e l IHl]; simpl; [done|]. unfold published_of in *. by simpl. }
  assert (P3 : forall l : list Event, dispatched_of (map Dispatched l) = l).
  { induction l as [|e l IHl]; simpl; [done|]. unfold dispatched_of in *. simpl.
    by rewrite IHl. }
  assert (P4 : forall l : list Event, dispatched_of (map Published l) = []).
  { induction l as [|e l IHl]; simpl; [done|]. unfold dispatched_of in *. by simpl. }
  rewrite P1, P2, P3, P4. by rewrite app_nil_r.
Qed.

(** X22. Which handlers an event reaches depends on the mode when the event
    is published under a type other than the one it carries. Synchronous
    [publish<T>] looks the handlers up under [T]; in asynchronous mode the
    dispatcher looks them up under the event's own [type_id]. So the same
    call reaches the subscribers of [T] in one mode and the subscribers of
    [type_id] in the other. *)
Theorem the_mode_decides_which_handlers_run T (ev : Event) (b : bus) w :
  async_mode_ b = false -> event_queue_ b = [] ->
  Forall (raises_only_std ev) (subscribers T b) ->
  Forall (raises_only_std ev) (subscribers (type_id ev) b) ->
  calls (snd (fst (publish T ev b {| world := w; calls := [] |})))
  = map (fun h => (handler_id h, ev)) (subscribers T b)
  /\ exists st,
       run (Client :: replicate 3 Worker) (start b w [Publish T ev]) = Some st
       /\ calls (the_exec st)
          = map (fun h => (handler_id h, ev)) (subscribers (type_id ev) b)
       /\ worker st = WWait
       /\ event_queue_ (the_bus st) = [].
Proof.
  intros Hs Hq HT Hev. split.
  - unfold publish. rewrite Hs, dispatch_event_subscribers, dispatch_loop_isolates by done.
    done.
  - cbn [run step]. unfold client_step. cbn [client start the_bus the_exec]. 
    unfold publish. cbn [async_mode_ set_async_mode]. unfold start, set_async_mode.
    cbn [event_queue_ handlers_ worker_joinable shutdown_requested_ worker trace].
    rewrite Hq. cbn [app].
    match goal with |- context [run _ ?s] => 
      destruct (dispatcher_drains_from_wait s [ev])
        as (st' & Hrun & H1 & H2 & H3 & _) end; try done.
    { constructor; [|constructor]. exact Hev. }
    exists st'. split; [exact Hrun|]. split; [|done].
    rewrite H3. cbn [dispatch_queue fold_left the_bus the_exec].
    rewrite dispatch_polymorphic_subscribers. cbn [subscribers handlers_].
    fold (subscribers (type_id ev) b).
    rewrite dispatch_loop_isolates by done. done.
Qed.

End EventBusThreadsExtras.

Section EventBusThreadsRuns.

Import EventBus EventBusThreads Examples.

Lemma asynchronous_dispatch_order_witness :
  match run flush_overtakes_dispatch (start bus_recording [] publish_three_then_flush) with
  | Some st =>
      published_of (trace st)
      = dispatched_of (trace st) ++ in_flight (worker st) ++ event_queue_ (the_bus st)
      /\ dispatched_of (trace st) `prefix_of` published_of (trace st)
  | None => False
  end.
Proof.
  pose proof (asynchronous_dispatch_preserves_publish_order nat (list nat)
                bus_recording [] publish_three_then_flush flush_overtakes_dispatch) as H.
  destruct (run flush_overtakes_dispatch (start bus_recording [] publish_three_then_flush))
    as [st|] eqn:E.
  - exact (H st eq_refl eq_refl).
  - vm_compute in E. discriminate E.
Defined.

Lemma two_queued_well_behaved :
  well_behaved two_queued (the_bus waiting_with_two_queued).
Proof.
  repeat constructor; intros w v; discriminate.
Qed.

Lemma dispatcher_drains_witness :
  exists st',
    run (replicate 5 Worker) waiting_with_two_queued = Some st'
    /\ worker st' = WWait
    /\ event_queue_ (the_bus st') = []
    /\ world (the_exec st') = [1; 2]
    /\ map fst (calls (the_exec st')) = [1; 2; 1; 2].
Proof.
  destruct (dispatcher_drains_the_queue nat (list nat) waiting_with_two_queued two_queued
              [] eq_refl eq_refl eq_refl ltac:(discriminate) two_queued_well_behaved)
    as (st' & Hrun & Hw & Hq & Hx & _).
  exists st'. split; [exact Hrun|]. split; [exact Hw|]. split; [exact Hq|].
  rewrite Hx. split; reflexivity.
Defined.

Lemma shutdown_dispatches_witness :
  exists st',
    run (replicate 6 Worker) (request_shutdown waiting_with_two_queued) = Some st'
    /\ worker st' = WDone
    /\ world (the_exec st') = [1; 2]
    /\ worker_step st' = None.
Proof.
  destruct (shutdown_dispatches_the_queue_first nat (list nat) waiting_with_two_queued
              two_queued [] eq_refl eq_refl eq_refl two_queued_well_behaved)
    as (st' & Hrun & Hw & _ & Hx & _ & Hs).
  exists st'. split; [exact Hrun|]. split; [exact Hw|].
  rewrite Hx. split; [reflexivity|exact Hs].
Defined.

Lemma asynchronous_matches_synchronous_witness :
  exists st,
    run (replicate 2 Client ++ replicate 5 Worker)
        (start bus_exception_first [] [Publish 0 (event 0 1); Publish 0 (event 0 2)])
    = Some st
    /\ the_exec st = publish_all two_queued bus_exception_first nothing_yet
    /\ dispatched_of (trace st) = two_queued.
Proof.
  destruct (asynchronous_dispatch_matches_synchronous_publish nat (list nat)
              bus_exception_first [] two_queued eq_refl eq_refl ltac:(discriminate)
              two_queued_well_behaved)
    as (st & Hrun & Hx & _ & _ & _ & _ & Hd).
  exists st. split; [exact Hrun|]. split; [exact Hx|exact Hd].
Defined.

Lemma the_mode_decides_witness :
  calls (snd (fst (publish 0 (event 1 5) bus_two_types nothing_yet)))
  = [(1, event 1 5)]
  /\ exists st,
       run (Client :: replicate 3 Worker)
           (start bus_two_types [] [Publish 0 (event 1 5)]) = Some st
       /\ calls (the_exec st) = [(2, event 1 5)].
Proof.
  destruct (the_mode_decides_which_handlers_run nat (list nat) 0 (event 1 5)
              bus_two_types [] eq_refl eq_refl
              ltac:(vm_compute; repeat constructor; intros w v; discriminate)
              ltac:(vm_compute; repeat constructor; intros w v; discriminate))
    as (Hsync & st & Hrun & Hcalls & _).
  split; [exact Hsync|]. exists st. split; [exact Hrun|exact Hcalls].
Defined.

Lemma dispatch_loop_stops_witness :
  dispatch_loop ([recording 1] ++ throwing_int 2 :: [recording 3]) (event 0 9) nothing_yet
  = ({| world := [9]; calls := [(1, event 0 9); (2, event 0 9)] |},
     Some (other_value 42)).
Proof.
  apply (dispatch_loop_stops nat (list nat) [recording 1] [recording 3] (throwing_int 2)
           (event 0 9) nothing_yet 42).
  - repeat constructor. intros w v. discriminate.
  - reflexivity.
Defined.

End EventBusThreadsRuns.

(** ** EventBus: who is woken *)

Section EventBusWaitsFacts.

Import EventBus EventBusWaits.

Variables (Payload World : Type).

(** With the dispatcher blocked and every client blocked in [flush] or at
    the end of its program, only a wake-up without notification moves
    anything. *)
Lemma nobody_moves_when_all_sleep (st st' : system Payload World) l :
  all_asleep st -> step l st = Some st' -> exists t, l = Spurious t.
Proof.
  intros [Hw Hall] Hstep. destruct l as [[|i] wake|t]; [| |by exists t].
  - simpl in Hstep. unfold worker_step in Hstep. by rewrite Hw in Hstep.
  - simpl in Hstep. unfold client_step in Hstep.
    destruct (clients st !! i) as [pc|] eqn:Ei; [|done].
    rewrite Forall_forall in Hall.
    destruct (Hall pc) as [[rest ->]| ->]; [by eapply list_elem_of_lookup_2|done..].
Qed.

End EventBusWaitsFacts.

Section EventBusWaitsRuns.

Import EventBus Examples EventBusWaits.

(** X28. A [flush] that has blocked can sleep on an empty queue. Nobody
    notifies [queue_cv_] when the queue becomes empty: the client publishes
    two events and calls [flush] while the second is queued; the dispatcher
    dispatches both and goes back to its wait. Every event has been
    dispatched and the queue is empty, yet the client stays blocked inside
    [flush], and no thread can move until somebody publishes, shuts the bus
    down, or a wait wakes unnotified. *)
Theorem flush_can_sleep_on_an_empty_queue :
  option_map (fun st => (worker st, clients st, event_queue_ (the_bus st), dispatched st))
    (run flush_sleeps_on (start bus_recording [] [publish_two_then_flush]))
  = Some (WBlocked, [CBlocked []], [], [event 0 1; event 0 2])
  /\ forall st,
       run flush_sleeps_on (start bus_recording [] [publish_two_then_flush]) = Some st ->
       all_asleep st
       /\ forall l st', step l st = Some st' -> exists t, l = Spurious t.
Proof.
  split; [vm_compute; reflexivity|]. intros st Hrun.
  assert (Ha : all_asleep st).
  { vm_compute in Hrun. injection Hrun as <-. unfold all_asleep. simpl.
    split; [done|].
    constructor; [left; by eexists|constructor]. }
  split; [exact Ha|]. intros l st'. by apply nobody_moves_when_all_sleep.
Qed.

(** X29. The notification of a publish can go to a thread inside [flush]
    and leave the dispatcher asleep. With the first client blocked in
    [flush] and the dispatcher in its wait, a second client publishes a
    third event; [notify_one] wakes the flusher, which finds the queue not
    empty and blocks again. The event stays queued and undispatched, and no
    thread can move until somebody publishes again, shuts the bus down, or
    a wait wakes unnotified. *)
Theorem flusher_can_take_the_dispatchers_wakeup :
  option_map (fun st => (worker st, clients st, event_queue_ (the_bus st), dispatched st))
    (run flusher_takes_the_wakeup
       (start bus_recording [] [publish_two_then_flush; publish_one]))
  = Some (WBlocked, [CBlocked []; CRun []], [event 0 3], [event 0 1; event 0 2])
  /\ forall st,
       run flusher_takes_the_wakeup
         (start bus_recording [] [publish_two_then_flush; publish_one]) = Some st ->
       all_asleep st
       /\ forall l st', step l st = Some st' -> exists t, l = Spurious t.
Proof.
  split; [vm_compute; reflexivity|]. intros st Hrun.
  assert (Ha : all_asleep st).
  { vm_compute in Hrun. injection Hrun as <-. unfold all_asleep. simpl.
    split; [done|].
    constructor; [left; by eexists|]. constructor; [by right|constructor]. }
  split; [exact Ha|]. intros l st'. by apply nobody_moves_when_all_sleep.
Qed.

End EventBusWaitsRuns.

(** ** LockFreeMemoryPool: calls that do not overlap *)

Section LockFreePoolSequential.

Import LockFreeMemoryPool.

Variable data_offset : N.

Local Abbreviation data_of := (LockFreeMemoryPool.data_of data_offset).
Local Abbreviation node_of := (LockFreeMemoryPool.node_of data_offset).
Local Abbreviation run := (LockFreeMemoryPool.run data_offset).
Local Abbreviation serve := (LockFreeMemoryPool.serve data_offset).
Local Abbreviation quiescent := (LockFreeMemoryPool.quiescent data_offset).

Lemma node_of_data_of n : node_of (data_of n) = n.
Proof. unfold LockFreeMemoryPool.node_of, LockFreeMemoryPool.data_of. lia. Qed.

Lemma data_of_inj a b : data_of a = data_of b -> a = b.
Proof. unfold LockFreeMemoryPool.data_of. lia. Qed.

Lemma is_in_In p (l : list ptr) : is_in p l = true <-> In p l.
Proof.
  unfold is_in. rewrite existsb_exists. split.
  - intros (q & Hq & Heq). apply N.eqb_eq in Heq. by subst.
  - intros H. exists p. split; [done|apply N.eqb_refl].
Qed.

Lemma chain_insert nx h fl n v :
  chain nx h fl -> ~ In n fl -> chain (<[n := v]> nx) h fl.
Proof.
  induction 1 as [|h h' fl Hh Hl _ IH]; intros Hn; [constructor|].
  econstructor; [done| |].
  - rewrite lookup_insert_ne; [done|]. intros ->. apply Hn. by left.
  - apply IH. intros Hin. apply Hn. by right.
Qed.

Lemma chain_head_null nx fl : chain nx nullptr fl -> fl = [].
Proof. by inversion 1. Qed.

(** The constructor leaves the nodes chained, the last one made in front. *)
Lemma constructor_chain (nodes : list node) :
  NoDup nodes -> Forall (fun n => n <> nullptr) nodes ->
  chain (next_ (mem (LockFreeMemoryPool nodes)))
        (head_ (mem (LockFreeMemoryPool nodes))) (rev nodes).
Proof.
  unfold LockFreeMemoryPool. simpl.
  assert (H : forall nodes m fl,
             chain (next_ m) (head_ m) fl -> NoDup (nodes ++ fl) ->
             Forall (fun n => n <> nullptr) nodes ->
             chain
               (next_ (fold_left (fun m nd => set_head nd (set_next nd (head_ m) m)) nodes m))
               (head_ (fold_left (fun m nd => set_head nd (set_next nd (head_ m) m)) nodes m))
               (rev nodes ++ fl)).
  { clear nodes. induction nodes as [|nd nodes IH]; intros m fl Hc Hn Hnz; simpl; [done|].
    rewrite <- app_assoc. simpl. inversion Hnz; subst.
    apply NoDup_cons in Hn as [Hnd Hn]. apply IH; simpl.
    - econstructor; [done|apply lookup_insert_eq|].
      apply chain_insert; [done|]. intros Hin. apply Hnd.
      apply list_elem_of_In. apply in_or_app. by right.
    - apply NoDup_app in Hn as (G1 & G2 & G3). apply NoDup_app.
      split; [done|]. split.
      + intros x Hx Hx'. apply elem_of_cons in Hx' as [->|Hx'].
        * apply Hnd. apply elem_of_app. by left.
        * by apply (G2 x).
      + apply NoDup_cons. split; [|done].
        intros Hin. apply Hnd. apply elem_of_app. by right.
    - done. }
  intros Hn Hnz. specialize (H nodes {| head_ := nullptr; next_ := ∅ |} []).
  rewrite !app_nil_r in H. apply H; [constructor|done|done].
Qed.

Lemma constructor_quiescent (nodes : list node) :
  NoDup nodes -> Forall (fun n => n <> nullptr) nodes ->
  quiescent (LockFreeMemoryPool nodes).
Proof.
  intros Hn Hnz. split.
  - intros t. unfold pc_of. simpl. by rewrite lookup_empty.
  - exists (rev nodes), []. split; [by apply constructor_chain|].
    split; [done|]. rewrite app_nil_r. split; [|done].
    by apply NoDup_ListNoDup, List.NoDup_rev, NoDup_ListNoDup.
Qed.

Lemma pc_of_other t t' c (st : state) :
  pc_of t' st = Idle ->
  pc_of t' {| mem := mem st; threads := <[t := c]> (threads st); live := live st |}
  = if decide (t = t') then c else Idle.
Proof.
  intros H. unfold pc_of in *. simpl. case_decide as E.
  - subst. by rewrite lookup_insert_eq.
  - by rewrite lookup_insert_ne.
Qed.

(** A whole [allocate] that finds a node at the head. *)
Lemma allocate_alone_pops t (st : state) h h' :
  (forall t', pc_of t' st = Idle) ->
  head_ (mem st) = h -> h <> nullptr -> next_ (mem st) !! h = Some h' ->
  exists st',
    run (allocate_alone t) st = Some st'
    /\ mem st' = set_head h' (mem st)
    /\ live st' = live st ++ [data_of h]
    /\ (forall t', pc_of t' st' = Idle).
Proof.
  intros Hidle Hh Hnz Hnx. destruct st as [[hd nx] thr lv]. simpl in *. subst hd.
  assert (Hnzb : (h =? nullptr)%N = false) by (by apply N.eqb_neq).
  unfold allocate_alone. cbn [LockFreeMemoryPool.run step]. rewrite (Hidle t).
  repeat first
    [ rewrite pc_of_insert
    | rewrite N.eqb_refl
    | rewrite Hnzb
    | rewrite Hnx
    | progress unfold set_pc, set_head, set_next
    | progress cbn [mem threads live head_ next_] ].
  eexists. split; [reflexivity|]. cbn [mem threads live head_ next_].
  repeat split. intros t'. unfold pc_of. cbn [threads].
  destruct (decide (t = t')) as [->|Hne].
  - by rewrite lookup_insert_eq.
  - rewrite !lookup_insert_ne by done. apply (Hidle t').
Qed.

(** A whole [allocate] that finds the freelist empty. *)
Lemma allocate_alone_makes_a_node t (st : state) fresh :
  (forall t', pc_of t' st = Idle) ->
  head_ (mem st) = nullptr -> fresh <> nullptr -> next_ (mem st) !! fresh = None ->
  exists st',
    run [CallAllocate t; Next t; NextNew t fresh] st = Some st'
    /\ mem st' = set_next fresh nullptr (mem st)
    /\ live st' = live st ++ [data_of fresh]
    /\ (forall t', pc_of t' st' = Idle).
Proof.
  intros Hidle Hh Hnz Hnx. destruct st as [[hd nx] thr lv]. simpl in *. subst hd.
  assert (Hnzb : (fresh =? nullptr)%N = false) by (by apply N.eqb_neq).
  cbn [LockFreeMemoryPool.run step]. rewrite (Hidle t).
  repeat first
    [ rewrite pc_of_insert
    | rewrite N.eqb_refl
    | rewrite Hnzb
    | rewrite Hnx
    | rewrite bool_decide_eq_true_2 by done
    | progress unfold set_pc, set_head, set_next
    | progress cbn [mem threads live head_ next_ negb andb] ].
  eexists. split; [reflexivity|]. cbn [mem threads live head_ next_].
  repeat split. intros t'. unfold pc_of. cbn [threads].
  destruct (decide (t = t')) as [->|Hne].
  - by rewrite lookup_insert_eq.
  - rewrite !lookup_insert_ne by done. apply (Hidle t').
Qed.

(** A whole [deallocate] of a live pointer. *)
Lemma deallocate_alone_pushes t (st : state) p :
  (forall t', pc_of t' st = Idle) -> p <> nullptr -> In p (live st) ->
  exists st',
    run (deallocate_alone t p) st = Some st'
    /\ mem st' = set_head (node_of p) (set_next (node_of p) (head_ (mem st)) (mem st))
    /\ live st' = remove_one p (live st)
    /\ (forall t', pc_of t' st' = Idle).
Proof.
  intros Hidle Hnz Hin. destruct st as [[hd nx] thr lv]. simpl in *.
  assert (Hnzb : (p =? nullptr)%N = false) by (by apply N.eqb_neq).
  apply is_in_In in Hin.
  unfold deallocate_alone. cbn [LockFreeMemoryPool.run step]. rewrite (Hidle t), Hnzb.
  cbn [live]. rewrite Hin.
  repeat first
    [ rewrite pc_of_insert
    | rewrite N.eqb_refl
    | progress unfold set_pc, set_head, set_next
    | progress cbn [mem threads live head_ next_] ].
  eexists. split; [reflexivity|]. cbn [mem threads live head_ next_].
  repeat split. intros t'. unfold pc_of. cbn [threads].
  destruct (decide (t = t')) as [->|Hne].
  - by rewrite lookup_insert_eq.
  - rewrite !lookup_insert_ne by done. apply (Hidle t').
Qed.

Lemma remove_one_held n (held : list node) :
  In n held ->
  exists h1 h2, held = h1 ++ n :: h2
    /\ remove_one (data_of n) (map data_of held) = map data_of (h1 ++ h2).
Proof.
  induction held as [|a held IH]; simpl; [done|].
  destruct (N.eqb_spec (data_of n) (data_of a)) as [Heq|Hne].
  - intros _. apply data_of_inj in Heq. subst a. by exists [], held.
  - intros [->|Hin]; [done|]. destruct (IH Hin) as (h1 & h2 & -> & Hr).
    exists (a :: h1), h2. simpl. by rewrite Hr.
Qed.

(** A request that runs to its end keeps the pool quiescent. *)
Lemma quiescent_whole_call r (st st' : state) :
  quiescent st -> run (whole_call r st) st = Some st' -> quiescent st'.
Proof.
  intros (Hidle & fl & held & Hch & Hlive & Hnd & Hheld) Hrun.
  destruct r as [t fresh|t p]; unfold whole_call in Hrun.
  - destruct (N.eqb_spec (head_ (mem st)) nullptr) as [Hnull|Hhead].
    + (* the freelist is empty: [new Node] *)
      rewrite Hnull in Hch. apply chain_head_null in Hch. subst fl.
      destruct (N.eqb_spec fresh nullptr) as [Hf|Hf].
      { exfalso. cbn [LockFreeMemoryPool.run step] in Hrun. rewrite (Hidle t) in Hrun.
        unfold set_pc in Hrun. rewrite pc_of_insert in Hrun. rewrite pc_of_insert in Hrun.
        cbn [mem head_] in Hrun. rewrite Hnull, Hf in Hrun. by simpl in Hrun. }
      destruct (next_ (mem st) !! fresh) as [v|] eqn:Hnx.
      { exfalso. cbn [LockFreeMemoryPool.run step] in Hrun. rewrite (Hidle t) in Hrun.
        unfold set_pc in Hrun. rewrite pc_of_insert in Hrun. rewrite pc_of_insert in Hrun.
        cbn [mem head_ next_] in Hrun. rewrite Hnull, Hnx in Hrun.
        rewrite bool_decide_eq_false_2 in Hrun by done.
        rewrite andb_false_r in Hrun. done. }
      destruct (allocate_alone_makes_a_node t st fresh Hidle Hnull Hf Hnx)
        as (st1 & Hrun1 & Hmem & Hlv & Hidle1).
      rewrite Hrun1 in Hrun. inversion Hrun; subst st1. split; [done|].
      exists [], (held ++ [fresh]). rewrite Hmem, Hlv, Hlive. simpl.
      split; [rewrite Hnull; constructor|].
      split; [by rewrite map_app|]. split.
      * apply NoDup_app. split; [done|]. split; [|apply NoDup_singleton].
        intros x Hx Hx'. apply list_elem_of_singleton in Hx'. subst x.
        rewrite Forall_forall in Hheld. destruct (Hheld _ Hx) as [_ [v Hv]].
        assert (Habs : @None node = Some v) by (rewrite <- Hnx; exact Hv).
        discriminate Habs.
      * apply Forall_app. split.
        -- eapply Forall_impl; [exact Hheld|]. intros n [Hn [v Hv]]. split; [done|].
           destruct (decide (fresh = n)) as [->|Hne].
           ++ rewrite lookup_insert_eq. by eexists.
           ++ rewrite lookup_insert_ne by done. by eexists.
        -- constructor; [|done]. split; [done|]. rewrite lookup_insert_eq. by eexists.
    + (* a node is popped *)
      inversion Hch as [Hz|h h' fl' Hnz Hnx Hch' Hh]; subst; [by rewrite <- Hz in Hhead|].
      destruct (allocate_alone_pops t st (head_ (mem st)) h' Hidle eq_refl Hnz Hnx)
        as (st1 & Hrun1 & Hmem & Hlv & Hidle1).
      rewrite Hrun1 in Hrun. inversion Hrun; subst st1. split; [done|].
      exists fl', (held ++ [head_ (mem st)]). rewrite Hmem, Hlv, Hlive. simpl.
      split; [done|]. split; [by rewrite map_app|]. split.
      * apply NoDup_cons in Hnd as [Hnot Hnd]. rewrite app_assoc.
        apply NoDup_app. split; [done|]. split; [|apply NoDup_singleton].
        intros x Hx Hx'. apply list_elem_of_singleton in Hx'. by subst x.
      * apply Forall_app. split; [done|]. constructor; [|done].
        split; [done|by eexists].
  - destruct (N.eqb_spec p nullptr) as [->|Hp].
    + cbn [LockFreeMemoryPool.run step] in Hrun. rewrite (Hidle t) in Hrun.
      simpl in Hrun. inversion Hrun; subst. split; [done|]. by exists fl, held.
    + destruct (is_in p (live st)) eqn:Hin.
      2:{ exfalso. unfold deallocate_alone in Hrun.
          cbn [LockFreeMemoryPool.run step] in Hrun. rewrite (Hidle t) in Hrun.
          apply N.eqb_neq in Hp. rewrite Hp, Hin in Hrun. done. }
      apply is_in_In in Hin.
      destruct (deallocate_alone_pushes t st p Hidle Hp Hin)
        as (st1 & Hrun1 & Hmem & Hlv & Hidle1).
      rewrite Hrun1 in Hrun. inversion Hrun; subst st1. split; [done|].
      rewrite Hlive in Hin. apply in_map_iff in Hin as (n & <- & Hn).
      destruct (remove_one_held n held Hn) as (h1 & h2 & -> & Hrem).
      rewrite node_of_data_of in Hmem.
      exists (n :: fl), (h1 ++ h2). rewrite Hmem, Hlv, Hlive, Hrem. simpl.
      assert (Hnfl : ~ In n fl).
      { intros Hx. apply NoDup_app in Hnd as (_ & Hd & _).
        apply (Hd n); [by apply list_elem_of_In|].
        apply elem_of_app. right. by left. }
      rewrite Forall_app in Hheld. destruct Hheld as [Hh1 Hh2].
      inversion Hh2 as [|? ? [Hnz _] Hh2']; subst.
      split.
      { econstructor; [done|apply lookup_insert_eq|]. by apply chain_insert. }
      split; [done|]. split.
      * apply NoDup_cons. split.
        -- intros Hx. apply elem_of_app in Hx as [Hx|Hx].
           ++ apply Hnfl. by apply list_elem_of_In.
           ++ apply NoDup_app in Hnd as (_ & _ & Hd).
              apply NoDup_app in Hd as (_ & Hd1 & Hd2).
              apply NoDup_cons in Hd2 as [Hd2 _].
              apply elem_of_app in Hx as [Hx|Hx]; [|done].
              apply (Hd1 n Hx). by left.
        -- apply NoDup_app in Hnd as (Hd0 & Hd & Hd').
           apply NoDup_app. split; [done|]. split.
           ++ intros x Hx Hx'. apply (Hd x Hx).
              apply elem_of_app in Hx' as [Hx'|Hx']; apply elem_of_app;
                [by left|right; by right].
           ++ apply NoDup_app in Hd' as (Hd1 & Hd2 & Hd3).
              apply NoDup_cons in Hd3 as [_ Hd3]. apply NoDup_app.
              split; [done|]. split; [|done].
              intros x Hx Hx'. apply (Hd2 x Hx). by right.
      * apply Forall_app. split.
        -- eapply Forall_impl; [exact Hh1|]. intros m [Hm [v Hv]]. split; [done|].
           destruct (decide (n = m)) as [->|Hne].
           ++ rewrite lookup_insert_eq. by eexists.
           ++ rewrite lookup_insert_ne by done. by eexists.
        -- eapply Forall_impl; [exact Hh2'|]. intros m [Hm [v Hv]]. split; [done|].
           destruct (decide (n = m)) as [->|Hne].
           ++ rewrite lookup_insert_eq. by eexists.
           ++ rewrite lookup_insert_ne by done. by eexists.
Qed.

Lemma quiescent_serve rs (st st' : state) :
  quiescent st -> serve rs st = Some st' -> quiescent st'.
Proof.
  revert st. induction rs as [|r rs IH]; intros st Hq; simpl.
  - by intros [= <-].
  - destruct (run (whole_call r st) st) as [st1|] eqn:Hr; [|done].
    apply IH. by eapply quiescent_whole_call.
Qed.

(** X12. Calls that do not overlap never issue a node twice. On a pool
    built from distinct nodes, after any sequence of whole allocate and
    deallocate calls, by any threads, each finished before the next begins
    and each deallocate given a pointer that is live, no two live
    allocations point at the same storage and no thread is left inside a
    call. *)
Theorem calls_in_turn_never_issue_a_node_twice (nodes : list node) rs (st : state) :
  NoDup nodes -> Forall (fun n => n <> nullptr) nodes ->
  serve rs (LockFreeMemoryPool nodes) = Some st ->
  NoDup (live st) /\ forall t, pc_of t st = Idle.
Proof.
  intros Hn Hnz Hs.
  destruct (quiescent_serve rs _ _ (constructor_quiescent nodes Hn Hnz) Hs)
    as (Hidle & fl & held & _ & Hlive & Hnd & _).
  split; [|done]. rewrite Hlive. apply NoDup_app in Hnd as (_ & _ & Hnd).
  apply NoDup_fmap_2; [|done]. intros a b. apply data_of_inj.
Qed.

(** The nodes of a chain are handed out front to back. *)
Lemma allocations_follow_the_chain t fl (st : state) :
  (forall t', pc_of t' st = Idle) ->
  chain (next_ (mem st)) (head_ (mem st)) fl ->
  exists st',
    serve (replicate (length fl) (Allocate t nullptr)) st = Some st'
    /\ live st' = live st ++ map data_of fl
    /\ head_ (mem st') = nullptr
    /\ next_ (mem st') = next_ (mem st).
Proof.
  revert st. induction fl as [|h fl IH]; intros st Hidle Hch; simpl.
  - exists st. rewrite app_nil_r. inversion Hch. done.
  - inversion Hch as [|h0 h' fl' Hnz Hnx Hch' Hh]; subst.
    unfold whole_call. destruct (N.eqb_spec (head_ (mem st)) nullptr) as [|_]; [done|].
    destruct (allocate_alone_pops t st (head_ (mem st)) h' Hidle eq_refl Hnz Hnx)
      as (st1 & Hrun1 & Hmem & Hlv & Hidle1).
    rewrite Hrun1. destruct (IH st1 Hidle1) as (st2 & Hs & H1 & H2 & H3).
    { by rewrite Hmem. }
    exists st2. split; [done|]. rewrite H1, Hlv, H3, Hmem, <- app_assoc. done.
Qed.

(** X13. A pool constructed with [n] distinct nodes serves [n] allocations
    from the freelist, never asking for a new node, and hands the nodes out
    last made first; after that the freelist is empty. *)
Theorem constructed_nodes_are_served_last_made_first t (nodes : list node) :
  NoDup nodes -> Forall (fun n => n <> nullptr) nodes ->
  exists st,
    serve (replicate (length nodes) (Allocate t nullptr)) (LockFreeMemoryPool nodes)
    = Some st
    /\ live st = map data_of (rev nodes)
    /\ head_ (mem st) = nullptr.
Proof.
  intros Hn Hnz.
  destruct (allocations_follow_the_chain t (rev nodes) (LockFreeMemoryPool nodes))
    as (st & Hs & H1 & H2 & _).
  { intros t'. unfold pc_of. simpl. by rewrite lookup_empty. }
  { by apply constructor_chain. }
  rewrite length_rev in Hs. by exists st.
Qed.

End LockFreePoolSequential.

Section LockFreePoolRuns.

Import LockFreeMemoryPool.

Lemma two_nodes_distinct : NoDup [64%N; 128%N].
Proof. apply NoDup_ListNoDup. repeat constructor; simpl; intuition discriminate. Qed.

Lemma two_nodes_not_null : Forall (fun n : node => n <> nullptr) [64%N; 128%N].
Proof. repeat constructor; discriminate. Qed.

Lemma calls_in_turn_witness :
  match serve 8 [Allocate 1 0%N; Allocate 2 0%N; Deallocate 1 136%N; Allocate 2 0%N; Allocate 1 256%N]
          (LockFreeMemoryPool [64; 128]%N) with
  | Some st => NoDup (live st) /\ forall t, pc_of t st = Idle
  | None => False
  end.
Proof.
  pose proof (calls_in_turn_never_issue_a_node_twice 8 [64; 128]%N
                [Allocate 1 0%N; Allocate 2 0%N; Deallocate 1 136%N; Allocate 2 0%N; Allocate 1 256%N])
    as H.
  destruct (serve 8 _ _) as [st|] eqn:E.
  - exact (H st two_nodes_distinct two_nodes_not_null eq_refl).
  - vm_compute in E. discriminate E.
Defined.

Lemma constructed_nodes_witness :
  exists st,
    serve 8 [Allocate 1 0%N; Allocate 1 0%N] (LockFreeMemoryPool [64; 128]%N) = Some st
    /\ live st = [136; 72]%N
    /\ head_ (mem st) = nullptr.
Proof.
  exact (constructed_nodes_are_served_last_made_first 8 1 [64; 128]%N
           two_nodes_distinct two_nodes_not_null).
Defined.

Lemma deallocated_node_witness :
  exists st',
    run 8 (deallocate_alone 1 136%N ++ allocate_alone 1)
      {| mem := {| head_ := 64%N; next_ := {[64%N := 0%N; 128%N := 64%N]} |};
         threads := ∅;
         live := [136%N] |} = Some st'
    /\ live st' = [136%N]
    /\ head_ (mem st') = 64%N
    /\ pc_of 1 st' = Idle.
Proof.
  exact (deallocated_node_is_allocated_next 8 1
           {| mem := {| head_ := 64%N; next_ := {[64%N := 0%N; 128%N := 64%N]} |};
              threads := ∅;
              live := [136%N] |} 136%N eq_refl eq_refl eq_refl).
Defined.

End LockFreePoolRuns.

(** ** Config: parsing, saving and loading *)

Section ConfigFacts.

Import Config.

Local Open Scope string_scope.

Lemma append_cons c (a b : string) : String c a ++ b = String c (a ++ b).
Proof. reflexivity. Qed.

Lemma append_nil_l (b : string) : EmptyString ++ b = b.
Proof. reflexivity. Qed.

Lemma append_nil_r s : s ++ EmptyString = s.
Proof. induction s as [|c s IH]; [done|]. rewrite append_cons. by f_equal. Qed.

Lemma append_assoc (a b c : string) : (a ++ b) ++ c = a ++ (b ++ c).
Proof. induction a as [|x a IH]; [done|]. rewrite !append_cons. by f_equal. Qed.

Lemma length_append (a b : string) :
  String.length (a ++ b) = (String.length a + String.length b)%nat.
Proof. induction a as [|x a IH]; [done|]. rewrite append_cons. simpl. by f_equal. Qed.

Lemma substring_all s : String.substring 0 (String.length s) s = s.
Proof. induction s as [|c s IH]; [done|]. simpl. by f_equal. Qed.

Lemma substring_prefix a b :
  String.substring 0 (String.length a) (a ++ b) = a.
Proof.
  induction a as [|c a IH].
  - rewrite append_nil_l. by destruct b.
  - rewrite append_cons. simpl. by f_equal.
Qed.

Lemma substring_suffix a b :
  String.substring (String.length a) (String.length b) (a ++ b) = b.
Proof.
  induction a as [|c a IH]; [apply substring_all|]. by rewrite append_cons.
Qed.

Lemma find_append c a b :
  find c a = None -> find c (a ++ String c b) = Some (String.length a).
Proof.
  induction a as [|x a IH].
  - intros _. rewrite append_nil_l. simpl. by rewrite Ascii.eqb_refl.
  - rewrite append_cons. simpl. destruct (Ascii.eqb c x); [done|].
    destruct (find c a); [done|]. intros _. by rewrite IH.
Qed.

Lemma find_append_none c a b :
  find c a = None -> find c b = None -> find c (a ++ b) = None.
Proof.
  induction a as [|x a IH]; [done|]. rewrite append_cons. simpl.
  destruct (Ascii.eqb c x); [done|]. destruct (find c a); [done|].
  intros _ Hb. by rewrite IH.
Qed.

Lemma getlines_from_line cur l rest :
  find newline l = None ->
  getlines_from cur (l ++ String newline rest)
  = (cur ++ l) :: getlines_from EmptyString rest.
Proof.
  revert cur. induction l as [|c l IH]; intros cur Hl.
  - rewrite append_nil_l. cbn [getlines_from]. rewrite Ascii.eqb_refl.
    by rewrite append_nil_r.
  - rewrite append_cons. cbn [getlines_from find] in *. rewrite Ascii.eqb_sym.
    destruct (Ascii.eqb newline c); [done|].
    destruct (find newline l) eqn:E; [done|].
    rewrite IH by done. by rewrite append_assoc.
Qed.

(** Strings with no blank at either end are left alone by [trim]. *)
Lemma find_last_not_blank_end s c :
  is_blank c = false ->
  find_last_not_blank (s ++ String c EmptyString) = Some (String.length s).
Proof.
  intros Hc. induction s as [|x s IH].
  - rewrite append_nil_l. simpl. by rewrite Hc.
  - rewrite append_cons. simpl. by rewrite IH.
Qed.

Lemma trim_clean c1 s c2 :
  is_blank c1 = false -> is_blank c2 = false ->
  trim (String c1 (s ++ String c2 EmptyString)) = String c1 (s ++ String c2 EmptyString).
Proof.
  intros H1 H2. unfold trim. simpl find_first_not_blank. rewrite H1.
  simpl find_last_not_blank. rewrite find_last_not_blank_end by done.
  unfold substr. replace (S (String.length s) - 0 + 1)%nat
    with (String.length (String c1 (s ++ String c2 EmptyString))).
  - apply substring_all.
  - simpl. rewrite length_append. simpl. lia.
Qed.

Lemma trim_single c : is_blank c = false -> trim (String c EmptyString) = String c EmptyString.
Proof. intros H. unfold trim. simpl. by rewrite H. Qed.

(** *** Numbers in decimal *)

Lemma read_digits_acc d acc :
  read_digits (NilEmpty.string_of_uint d) (Zpos acc)
  = (Zpos (Pos.of_uint_acc d acc), String.length (NilEmpty.string_of_uint d)).
Proof.
  revert acc. induction d as [|d IH|d IH|d IH|d IH|d IH|d IH|d IH|d IH|d IH|d IH];
    intros acc; [done|..];
    cbn [NilEmpty.string_of_uint read_digits Pos.of_uint_acc String.length];
    change (digit_of "0"%char) with (Some 0%Z);
    change (digit_of "1"%char) with (Some 1%Z);
    change (digit_of "2"%char) with (Some 2%Z);
    change (digit_of "3"%char) with (Some 3%Z);
    change (digit_of "4"%char) with (Some 4%Z);
    change (digit_of "5"%char) with (Some 5%Z);
    change (digit_of "6"%char) with (Some 6%Z);
    change (digit_of "7"%char) with (Some 7%Z);
    change (digit_of "8"%char) with (Some 8%Z);
    change (digit_of "9"%char) with (Some 9%Z);
    cbv beta iota.
  all: match goal with
       | |- context [read_digits _ ?a] =>
           match goal with
           | |- context [Pos.of_uint_acc _ ?b] =>
               replace a with (Zpos b) by lia
           end
       end; by rewrite IH.
Qed.

Lemma read_digits_zero d :
  read_digits (NilEmpty.string_of_uint d) 0%Z
  = (Z.of_N (Pos.of_uint d), String.length (NilEmpty.string_of_uint d)).
Proof.
  induction d as [|d IH|d IH|d IH|d IH|d IH|d IH|d IH|d IH|d IH|d IH];
    [done|..];
    cbn [NilEmpty.string_of_uint read_digits Pos.of_uint String.length];
    change (digit_of "0"%char) with (Some 0%Z);
    change (digit_of "1"%char) with (Some 1%Z);
    change (digit_of "2"%char) with (Some 2%Z);
    change (digit_of "3"%char) with (Some 3%Z);
    change (digit_of "4"%char) with (Some 4%Z);
    change (digit_of "5"%char) with (Some 5%Z);
    change (digit_of "6"%char) with (Some 6%Z);
    change (digit_of "7"%char) with (Some 7%Z);
    change (digit_of "8"%char) with (Some 8%Z);
    change (digit_of "9"%char) with (Some 9%Z);
    cbv beta iota.
  1: { change (0 * 10 + 0)%Z with 0%Z. by rewrite IH. }
  all: match goal with
       | |- context [read_digits _ ?a] =>
           let v := eval vm_compute in a in
           change a with v
       end; by rewrite read_digits_acc.
Qed.

Ltac crunch_chars :=
  repeat match goal with
    | |- context [isspace (Ascii ?a ?b ?c ?d ?e ?f ?g ?h)] =>
        let v := eval vm_compute in (isspace (Ascii a b c d e f g h)) in
        change (isspace (Ascii a b c d e f g h)) with v
    | |- context [digit_of (Ascii ?a ?b ?c ?d ?e ?f ?g ?h)] =>
        let v := eval vm_compute in (digit_of (Ascii a b c d e f g h)) in
        change (digit_of (Ascii a b c d e f g h)) with v
    end;
  cbv beta iota.

Lemma stoi_unsigned c rest dv :
  digit_of c = Some dv ->
  stoi (String c rest)
  = (let '(v, k) := read_digits (String c rest) 0%Z in
     if ((INT_MIN <=? v) && (v <=? INT_MAX))%Z then Some (v, k) else None).
Proof.
  destruct c as [[] [] [] [] [] [] [] []]; intros H; try discriminate H;
    unfold stoi; cbn [skip_space read_digits]; crunch_chars;
    cbn [read_digits]; crunch_chars;
    match goal with
    | |- context [read_digits rest ?a] => destruct (read_digits rest a) as [v k]
    end; reflexivity.
Qed.

Lemma stoi_negative c rest dv :
  digit_of c = Some dv ->
  stoi (String "-" (String c rest))
  = (let '(v, k) := read_digits (String c rest) 0%Z in
     if ((INT_MIN <=? - v) && (- v <=? INT_MAX))%Z then Some ((- v)%Z, S k) else None).
Proof.
  destruct c as [[] [] [] [] [] [] [] []]; intros H; try discriminate H;
    unfold stoi; cbn [skip_space read_digits]; crunch_chars;
    cbn [read_digits]; crunch_chars;
    match goal with
    | |- context [read_digits rest ?a] => destruct (read_digits rest a) as [v k]
    end; reflexivity.
Qed.

(** The first character of a number's digits. *)
Lemma digits_head d :
  d <> Decimal.Nil ->
  exists c rest dv,
    NilEmpty.string_of_uint d = String c rest /\ digit_of c = Some dv
    /\ is_blank c = false /\ c <> quote /\ c <> "#"%char /\ c <> "t"%char
    /\ c <> "T"%char /\ c <> "f"%char /\ c <> "F"%char.
Proof.
  destruct d; [done|..]; intros _; simpl; do 3 eexists;
    (split; [reflexivity|]); repeat split; try reflexivity; discriminate.
Qed.

Lemma nilzero_nonnil d :
  d <> Decimal.Nil -> NilZero.string_of_uint d = NilEmpty.string_of_uint d.
Proof. by destruct d. Qed.

(** The characters of a number's digits: no blank, no quote, no line break,
    no [=]. *)
Lemma digits_plain d :
  find newline (NilEmpty.string_of_uint d) = None
  /\ find "="%char (NilEmpty.string_of_uint d) = None.
Proof.
  induction d as [|d [IH1 IH2]|d [IH1 IH2]|d [IH1 IH2]|d [IH1 IH2]|d [IH1 IH2]
                  |d [IH1 IH2]|d [IH1 IH2]|d [IH1 IH2]|d [IH1 IH2]|d [IH1 IH2]];
    [done|..]; cbn [NilEmpty.string_of_uint find];
    rewrite IH1, IH2; split; reflexivity.
Qed.

Lemma digits_last d :
  d <> Decimal.Nil ->
  exists s c, NilEmpty.string_of_uint d = s ++ String c EmptyString
    /\ is_blank c = false /\ c <> quote.
Proof.
  induction d as [|d IH|d IH|d IH|d IH|d IH|d IH|d IH|d IH|d IH|d IH];
    [done|..]; intros _; cbn [NilEmpty.string_of_uint].
  all: assert (Hcase : d = Decimal.Nil \/ d <> Decimal.Nil)
         by (destruct d; [by left|right; discriminate..]);
       destruct Hcase as [->|Hd];
    [ eexists EmptyString, _; rewrite append_nil_l; simpl;
      split; [reflexivity|split; [reflexivity|discriminate]]
    | destruct (IH Hd) as (s & c & -> & Hb & Hq);
      eexists (String _ s), c; rewrite append_cons; done ].
Qed.

Lemma show_int_cases z :
  (z = 0%Z /\ show_int z = "0")
  \/ (exists p, z = Zpos p /\ show_int z = NilEmpty.string_of_uint (Pos.to_uint p))
  \/ (exists p, z = Zneg p
        /\ show_int z = String "-" (NilEmpty.string_of_uint (Pos.to_uint p))).
Proof.
  destruct z as [|p|p].
  - by left.
  - right; left. exists p. split; [done|]. unfold show_int. simpl.
    apply nilzero_nonnil, Unsigned.to_uint_nonnil.
  - right; right. exists p. split; [done|]. unfold show_int. simpl.
    f_equal. apply nilzero_nonnil, Unsigned.to_uint_nonnil.
Qed.

(** [std::stoi] reads back what the stream wrote for an [int]. *)
Lemma stoi_show_int_aux z :
  (INT_MIN <= z <= INT_MAX)%Z ->
  stoi (show_int z) = Some (z, String.length (show_int z)).
Proof.
  intros Hz. destruct (show_int_cases z) as [[-> ->]|[(p & -> & ->)|(p & -> & ->)]].
  - reflexivity.
  - destruct (digits_head (Pos.to_uint p) (Unsigned.to_uint_nonnil p))
      as (c & rest & dv & Hs & Hd & _).
    rewrite Hs, (stoi_unsigned c rest dv Hd), <- Hs, read_digits_zero.
    rewrite Unsigned.of_to. simpl Z.of_N.
    destruct (Z.leb_spec INT_MIN (Zpos p)); [|lia].
    destruct (Z.leb_spec (Zpos p) INT_MAX); [|lia]. done.
  - destruct (digits_head (Pos.to_uint p) (Unsigned.to_uint_nonnil p))
      as (c & rest & dv & Hs & Hd & _).
    rewrite Hs, (stoi_negative c rest dv Hd), <- Hs, read_digits_zero.
    rewrite Unsigned.of_to. change (- Z.of_N (N.pos p))%Z with (Zneg p).
    destruct (Z.leb_spec INT_MIN (Zneg p)); [|lia].
    destruct (Z.leb_spec (Zneg p) INT_MAX); [|lia]. done.
Qed.

Lemma eqb_head_ne c rest (lit : string) c' rest' :
  lit = String c' rest' -> c <> c' -> String.eqb (String c rest) lit = false.
Proof.
  intros -> Hne. simpl. apply Ascii.eqb_neq in Hne. by rewrite Hne.
Qed.

(** The ends of what the stream wrote for an [int]. *)
Lemma show_int_ends z :
  exists c rest,
    show_int z = String c rest
    /\ is_blank c = false /\ c <> quote /\ c <> "#"%char
    /\ c <> "t"%char /\ c <> "T"%char /\ c <> "f"%char /\ c <> "F"%char
    /\ (exists s c2, show_int z = s ++ String c2 EmptyString /\ is_blank c2 = false)
    /\ find newline (show_int z) = None.
Proof.
  destruct (show_int_cases z) as [[-> ->]|[(p & -> & ->)|(p & -> & ->)]].
  - exists "0"%char, EmptyString. repeat split; try done.
    exists EmptyString, "0"%char. by rewrite append_nil_l.
  - destruct (digits_head (Pos.to_uint p) (Unsigned.to_uint_nonnil p))
      as (c & rest & dv & Hs & Hd & Hb & Hq & H1 & H2 & H3 & H4 & H5).
    destruct (digits_last (Pos.to_uint p) (Unsigned.to_uint_nonnil p))
      as (s & c2 & Hl & Hb2 & _).
    exists c, rest. repeat split; try done.
    + by exists s, c2.
    + apply digits_plain.
  - destruct (digits_last (Pos.to_uint p) (Unsigned.to_uint_nonnil p))
      as (s & c2 & Hl & Hb2 & _).
    exists "-"%char, (NilEmpty.string_of_uint (Pos.to_uint p)).
    repeat split; try done.
    + exists (String "-" s), c2. rewrite append_cons. by rewrite Hl.
    + cbn [find]. replace (Ascii.eqb newline "-") with false by done.
      by rewrite (proj1 (digits_plain _)).
Qed.

Lemma trim_ends s :
  (exists c rest, s = String c rest /\ is_blank c = false) ->
  (exists s' c2, s = s' ++ String c2 EmptyString /\ is_blank c2 = false) ->
  trim s = s.
Proof.
  intros (c & rest & Hs & Hc) (s' & c2 & Hs' & Hc2). destruct s' as [|x s''].
  - rewrite append_nil_l in Hs'. rewrite Hs'. by apply trim_single.
  - rewrite append_cons in Hs'. rewrite Hs' in Hs. injection Hs as -> _.
    rewrite Hs'. by apply trim_clean.
Qed.

Lemma unquote_unquoted c rest :
  c <> quote -> unquote (String c rest) = String c rest.
Proof.
  intros Hc. unfold unquote, front. simpl String.get.
  rewrite (bool_decide_eq_false_2 (Some c = Some quote)) by congruence.
  by rewrite andb_false_r.
Qed.

Lemma get_append_end s c : String.get (String.length s) (s ++ String c EmptyString) = Some c.
Proof. induction s as [|x s IH]; [done|]. rewrite append_cons. by simpl. Qed.

Lemma unquote_quoted v :
  unquote (String quote EmptyString ++ v ++ String quote EmptyString) = v.
Proof.
  change (String quote EmptyString ++ v ++ String quote EmptyString)
    with (String quote (v ++ String quote EmptyString)).
  unfold unquote, front, back, substr. cbn [String.length String.get].
  rewrite length_append. cbn [String.length].
  replace (S (String.length v + 1) - 1)%nat with (S (String.length v)) by lia.
  cbn [String.get]. rewrite get_append_end.
  rewrite !bool_decide_eq_true_2 by done.
  replace (2 <=? S (String.length v + 1))%nat with true
    by (symmetry; apply Nat.leb_le; lia).
  cbn [andb]. replace (S (String.length v + 1) - 2)%nat with (String.length v) by lia.
  cbn [String.substring]. apply substring_prefix.
Qed.

Lemma trim_quoted v :
  trim (String quote EmptyString ++ v ++ String quote EmptyString)
  = String quote EmptyString ++ v ++ String quote EmptyString.
Proof.
  change (String quote EmptyString ++ v ++ String quote EmptyString)
    with (String quote (v ++ String quote EmptyString)).
  by apply trim_clean.
Qed.

Section ConfigReload.

Variable double : Type.
Variable show_double : double -> string.
Variable stod : string -> option (double * nat).

Local Abbreviation ConfigValue := (Config.ConfigValue double).
Local Abbreviation parse_value := (Config.parse_value double stod).
Local Abbreviation load_line := (Config.load_line double stod).
Local Abbreviation load_from_file := (Config.load_from_file double stod).
Local Abbreviation show_value := (Config.show_value double show_double).
Local Abbreviation save_entry := (Config.save_entry double show_double).
Local Abbreviation get := (Config.get double).
Local Abbreviation inject := (Config.inject double).
Local Abbreviation carrier := (Config.carrier double).
Local Abbreviation save_to_file := (Config.save_to_file double show_double).
Local Abbreviation round_trip := (Config.round_trip double show_double stod).
Local Abbreviation storable := (@Config.storable double).
Local Abbreviation reloaded := (Config.reloaded double stod).

Lemma parse_value_show_int z :
  (INT_MIN <= z <= INT_MAX)%Z -> parse_value (show_int z) = VInt z.
Proof.
  intros Hz. unfold Config.parse_value. rewrite stoi_show_int_aux by done.
  rewrite Nat.eqb_refl.
  destruct (show_int_ends z) as (c & rest & -> & _ & _ & _ & Ht & HT & Hf & HF & _).
  rewrite (eqb_head_ne c rest "true" "t" "rue" eq_refl Ht).
  rewrite (eqb_head_ne c rest "TRUE" "T" "RUE" eq_refl HT).
  rewrite (eqb_head_ne c rest "false" "f" "alse" eq_refl Hf).
  rewrite (eqb_head_ne c rest "FALSE" "F" "ALSE" eq_refl HF).
  done.
Qed.

(** What the loader makes of the text the saver wrote for a value. *)
Lemma value_reloaded (v : ConfigValue) :
  storable v ->
  parse_value (unquote (trim (show_value v))) = reloaded v
  /\ find newline (show_value v) = None.
Proof.
  destruct v as [s|z|d|b]; simpl; intros Hv.
  - rewrite trim_quoted, unquote_quoted. split; [done|].
    change (String quote EmptyString ++ s ++ String quote EmptyString)
      with (String quote (s ++ String quote EmptyString)).
    cbn [find]. replace (Ascii.eqb newline quote) with false by done.
    rewrite append_nil_l.
    by rewrite (find_append_none newline s (String quote EmptyString) Hv eq_refl).
  - destruct (show_int_ends z)
      as (c & rest & Hs & Hb & Hq & _ & _ & _ & _ & _ & Hlast & Hnl).
    rewrite trim_ends; [|by exists c, rest|done].
    rewrite Hs, unquote_unquoted by done. rewrite <- Hs.
    by rewrite parse_value_show_int.
  - done.
  - destruct b; split; reflexivity.
Qed.

Lemma get_0_append k rest :
  k <> EmptyString -> String.get 0 (k ++ rest) = String.get 0 k.
Proof. destruct k; [done|]. by rewrite append_cons. Qed.

(** A saved line read back: the key gets the reloaded value. *)
Lemma load_line_saved k (v : ConfigValue) (m : gmap string ConfigValue) :
  clean_key k -> storable v ->
  load_line m (k ++ String "=" (show_value v)) = <[k := reloaded v]> m.
Proof.
  intros (Hne & Hhash & Heq & Hnl & Htrim) Hv. unfold Config.load_line.
  assert (Hlen : (String.length (k ++ String "=" (show_value v)) =? 0)%nat = false).
  { destruct k; [done|]. by rewrite append_cons. }
  rewrite Hlen, get_0_append by done.
  rewrite (bool_decide_eq_false_2 (String.get 0 k = Some "#"%char)) by done.
  cbn [orb]. rewrite find_append by done.
  unfold substr, substr_from. rewrite substring_prefix, Htrim.
  rewrite length_append. cbn [String.length].
  replace (String.length k + S (String.length (show_value v)) - (String.length k + 1))%nat
    with (String.length (show_value v)) by lia.
  change (k ++ String "=" (show_value v))
    with (k ++ (String "=" EmptyString ++ show_value v)).
  rewrite <- append_assoc.
  replace (String.length k + 1)%nat with (String.length (k ++ String "=" EmptyString))
    by (rewrite length_append; simpl; lia).
  rewrite substring_suffix. by rewrite (proj1 (value_reloaded v Hv)).
Qed.

Lemma concat_cons x xs :
  String.concat EmptyString (x :: xs) = x ++ String.concat EmptyString xs.
Proof. destruct xs; [by rewrite append_nil_r|done]. Qed.

(** A saved file read back, entry by entry. *)
Lemma load_saved_entries (l : list (string * ConfigValue)) (m : gmap string ConfigValue) :
  Forall (fun kv => clean_key (fst kv) /\ storable (snd kv)) l ->
  load_from_file (String.concat EmptyString (map save_entry l)) m
  = fold_left (fun m kv => <[fst kv := reloaded (snd kv)]> m) l m.
Proof.
  intros Hall. revert m. induction Hall as [|[k v] l [Hk Hv] _ IH]; intros m.
  - done.
  - cbn [map]. rewrite concat_cons. unfold Config.load_from_file, getlines in *.
    unfold Config.save_entry at 1. cbn [fst snd].
    change (k ++ "=" ++ show_value v ++ String newline EmptyString)
      with (k ++ String "=" (show_value v ++ String newline EmptyString)).
    replace ((k ++ String "=" (show_value v ++ String newline EmptyString))
             ++ String.concat EmptyString (map save_entry l))
      with ((k ++ String "=" (show_value v))
            ++ String newline (String.concat EmptyString (map save_entry l))).
    2:{ rewrite !append_assoc. f_equal. rewrite !append_cons. f_equal.
        rewrite append_assoc. by rewrite append_cons, append_nil_l. }
    rewrite getlines_from_line.
    + rewrite append_nil_l. cbn [fold_left]. rewrite load_line_saved by done.
      apply IH.
    + destruct Hk as (_ & _ & _ & Hnl & _). apply find_append_none; [done|].
      cbn [find]. replace (Ascii.eqb newline "=") with false by done.
      by rewrite (proj2 (value_reloaded v Hv)).
Qed.

Lemma fold_insert_lookup (f : ConfigValue -> ConfigValue)
    (l : list (string * ConfigValue)) (m : gmap string ConfigValue) k :
  NoDup (l.*1) ->
  fold_left (fun m kv => <[fst kv := f (snd kv)]> m) l m !! k
  = match list_to_map (M := gmap string ConfigValue) l !! k with
    | Some v => Some (f v)
    | None => m !! k
    end.
Proof.
  revert m. induction l as [|[k' v'] l IH]; intros m Hnd; simpl.
  - by rewrite lookup_empty.
  - apply NoDup_cons in Hnd as [Hk' Hnd]. rewrite IH by done.
    destruct (decide (k' = k)) as [->|Hne].
    + rewrite lookup_insert_eq.
      rewrite (not_elem_of_list_to_map_1 l k) by done.
      by rewrite lookup_insert_eq.
    + by rewrite !lookup_insert_ne by done.
Qed.

(** X14. [std::stoi] reads back exactly what the stream writes for an
    [int]: the value, with every character consumed. *)
Theorem stoi_reads_back_a_written_int z :
  (INT_MIN <= z <= INT_MAX)%Z ->
  stoi (show_int z) = Some (z, String.length (show_int z))
  /\ parse_value (show_int z) = VInt z.
Proof.
  intros Hz. split; [by apply stoi_show_int_aux|by apply parse_value_show_int].
Qed.

(** Loading what was saved, key by key. *)
Lemma load_of_saved_store (M m0 : gmap string ConfigValue) :
  (forall k v, M !! k = Some v -> clean_key k /\ storable v) ->
  load_from_file (save_to_file M) m0 = (reloaded <$> M) ∪ m0
  /\ round_trip M = reloaded <$> M.
Proof.
  intros Hall.
  assert (Hgen : forall m1, load_from_file (save_to_file M) m1 = (reloaded <$> M) ∪ m1).
  { intros m1. unfold Config.save_to_file. rewrite load_saved_entries.
    - apply map_eq. intros k.
      rewrite (fold_insert_lookup reloaded) by apply NoDup_fst_map_to_list.
      rewrite list_to_map_to_list, lookup_union, lookup_fmap.
      destruct (M !! k); simpl; [by destruct (m1 !! k)|].
      by destruct (m1 !! k).
    - apply Forall_forall. intros [k v] Hin. apply elem_of_map_to_list in Hin.
      by apply Hall. }
  split; [apply Hgen|]. unfold Config.round_trip. rewrite Hgen.
  apply map_eq. intros k. rewrite lookup_union, lookup_fmap.
  destruct (M !! k); simpl; done.
Qed.

(** X15. What a saved store is when loaded again. For a store whose keys
    are clean and whose values are ints, bools or strings without a line
    break, loading the saved file into any store [m0] gives [m0] overridden,
    key by key, by the reloaded values: an int comes back as itself, a bool
    as the int 1 or 0, a string as whatever [parse_value] makes of its
    text. *)
Theorem saved_store_reloads (M m0 : gmap string ConfigValue) :
  (forall k v, M !! k = Some v -> clean_key k /\ storable v) ->
  load_from_file (save_to_file M) m0 = (reloaded <$> M) ∪ m0
  /\ round_trip M = reloaded <$> M.
Proof. apply load_of_saved_store. Qed.

(** X16. The round trip holds for every store of ints and of strings that
    [parse_value] reads as strings: with clean keys, saving and loading
    gives back the same store, with the same type and content for every
    key. *)
Theorem ints_and_plain_strings_survive_the_round_trip (M : gmap string ConfigValue) :
  (forall k v, M !! k = Some v ->
     clean_key k
     /\ ((exists z, v = VInt z /\ (INT_MIN <= z <= INT_MAX)%Z)
         \/ (exists s, v = VString s /\ find newline s = None
                       /\ parse_value s = VString s))) ->
  round_trip M = M.
Proof.
  intros Hall. destruct (load_of_saved_store M M) as [_ ->].
  - intros k v Hk. destruct (Hall k v Hk) as [Hc [(z & -> & Hz)|(s & -> & Hs & _)]]; done.
  - apply map_eq. intros k. rewrite lookup_fmap.
    destruct (M !! k) as [v|] eqn:Hk; [|done]. simpl. f_equal.
    destruct (Hall k v Hk) as [_ [(z & -> & _)|(s & -> & _ & Hp)]]; [done|exact Hp].
Qed.

(** X17. Loading only adds or overwrites. A line that is empty, starts
    with [#] or has no [=] changes nothing, and whatever the file holds, a
    key that was in the store before the load is in it afterwards. *)
Theorem load_never_removes_a_key content (m : gmap string ConfigValue) :
  (forall line,
     line = EmptyString \/ String.get 0 line = Some "#"%char \/ find "="%char line = None ->
     load_line m line = m)
  /\ (forall k, is_Some (m !! k) -> is_Some (load_from_file content m !! k)).
Proof.
  split.
  - intros line [->|[H|H]]; unfold Config.load_line.
    + done.
    + rewrite (bool_decide_eq_true_2 _ H). by rewrite orb_true_r.
    + rewrite H. by destruct (_ || _).
  - unfold Config.load_from_file. generalize (getlines content). intros lines.
    revert m. induction lines as [|line lines IH]; intros m k Hk; simpl; [done|].
    apply IH. unfold Config.load_line.
    destruct (_ || _); [done|]. destruct (find "=" line); [|done].
    destruct (decide (trim (substr 0 n line) = k)) as [->|Hne].
    + rewrite lookup_insert_eq. by eexists.
    + by rewrite lookup_insert_ne.
Qed.

Lemma std_get_inject T (v : carrier T) : std_get double T (inject T v) = Some v.
Proof. by destruct T. Qed.

Lemma std_get_other T U (u : carrier U) : T <> U -> std_get double T (inject U u) = None.
Proof. by destruct T, U. Qed.

Lemma std_get_Some T (v : ConfigValue) (x : carrier T) :
  std_get double T v = Some x <-> v = inject T x.
Proof.
  split.
  - destruct T, v; simpl; intros [= <-]; done.
  - intros ->. apply std_get_inject.
Qed.

(** X18. The typed accessors, for every alternative [T] of the variant.
    [get<T>] returns the stored value when the key holds a [T] and the
    default in every other case: the key is missing, was removed, or holds
    another alternative. [set] and [remove] change what [get] and [has] give
    for their own key only; [has] tells whether a key is present;
    [get_keys] lists every key once. The accessors written out for
    strings, ints and bools are the instances of [get]. *)
Theorem typed_get_returns_the_value_or_the_default
    T (m : gmap string ConfigValue) key (d : carrier T) :
  (forall v, m !! key = Some (inject T v) -> get T key d m = v)
  /\ ((forall v, m !! key <> Some (inject T v)) -> get T key d m = d)
  /\ (forall v, get T key d (set double key (inject T v) m) = v)
  /\ (forall U (u : carrier U), T <> U -> get T key d (set double key (inject U u) m) = d)
  /\ get T key d (remove double key m) = d
  /\ (has double key m = false -> get T key d m = d)
  /\ (forall value, has double key (set double key value m) = true)
  /\ has double key (remove double key m) = false
  /\ (forall other value, key <> other ->
        get T other d (set double key value m) = get T other d m
        /\ get T other d (remove double key m) = get T other d m
        /\ has double other (set double key value m) = has double other m
        /\ has double other (remove double key m) = has double other m)
  /\ NoDup (get_keys double m)
  /\ (forall k, In k (get_keys double m) <-> has double k m = true)
  /\ (forall k ds, get_string double k ds m = get TString k ds m)
  /\ (forall k di, get_int double k di m = get TInt k di m)
  /\ (forall k db, get_bool double k db m = get TBool k db m).
Proof.
  assert (Hmiss : forall m' : gmap string ConfigValue,
             (forall v, m' !! key <> Some (inject T v)) -> get T key d m' = d).
  { intros m' Hno. unfold Config.get. destruct (m' !! key) as [v|] eqn:E; [|done].
    destruct (std_get double T v) as [x|] eqn:Ex; [|done].
    apply std_get_Some in Ex. subst. by destruct (Hno x). }
  unfold set, remove, has.
  split. { intros v Hv. unfold Config.get. by rewrite Hv, std_get_inject. }
  split; [apply Hmiss|].
  split. { intros v. unfold Config.get. by rewrite lookup_insert_eq, std_get_inject. }
  split. { intros U u HTU. unfold Config.get. by rewrite lookup_insert_eq, std_get_other. }
  split. { unfold Config.get. by rewrite lookup_delete_eq. }
  split. { intros Hh. apply bool_decide_eq_false in Hh. unfold Config.get.
           destruct (m !! key); [|done]. by destruct Hh. }
  split. { intros value. apply bool_decide_eq_true. by rewrite lookup_insert_eq. }
  split. { apply bool_decide_eq_false. rewrite lookup_delete_eq. by intros [? ?]. }
  split. { intros other value Hne. unfold Config.get.
           by rewrite lookup_insert_ne, lookup_delete_ne by done. }
  split; [apply NoDup_fst_map_to_list|].
  split.
  { intros k. unfold get_keys. split.
    - intros Hin. apply bool_decide_eq_true. apply list_elem_of_In in Hin.
      apply list_elem_of_fmap in Hin as ([k' v] & -> & Hin).
      apply elem_of_map_to_list in Hin. by eexists.
    - intros Hh. apply bool_decide_eq_true in Hh as [v Hv].
      apply list_elem_of_In. apply list_elem_of_fmap. exists (k, v).
      split; [done|]. by apply elem_of_map_to_list. }
  unfold get_string, get_int, get_bool, Config.get.
  repeat split; intros k dk; destruct (m !! k) as [[| | |]|]; done.
Qed.

Lemma load_lines_split cur c1 c2 (m : gmap string ConfigValue) :
  fold_left load_line (getlines_from cur (c1 ++ String newline c2)) m
  = fold_left load_line (getlines c2) (fold_left load_line (getlines_from cur c1) m).
Proof.
  revert cur m. induction c1 as [|c c1 IH]; intros cur m.
  - rewrite append_nil_l. cbn [getlines_from]. rewrite Ascii.eqb_refl.
    by destruct cur.
  - rewrite append_cons. cbn [getlines_from].
    destruct (Ascii.eqb c newline); [cbn [fold_left]|]; apply IH.
Qed.

(** X21. A file is read line by line, and later lines win. Loading two
    texts joined by a line break is loading the first and then the second
    into the result, whether or not the first ends in a line break; so a
    last line [key=value] decides what the key holds, whatever came
    before. *)
Theorem load_reads_a_file_line_by_line c1 c2 (m : gmap string ConfigValue) :
  load_from_file (c1 ++ String newline c2) m = load_from_file c2 (load_from_file c1 m)
  /\ (forall k v, clean_key k -> storable v ->
        load_from_file (c1 ++ String newline (save_entry (k, v))) m
        = <[k := reloaded v]> (load_from_file c1 m)).
Proof.
  split; [apply load_lines_split|]. intros k v Hk Hv.
  unfold Config.load_from_file at 1. unfold getlines. rewrite load_lines_split.
  apply (load_saved_entries [(k, v)]). constructor; [by split|constructor].
Qed.

End ConfigReload.

End ConfigFacts.

Section ConfigRuns.

Import Config.
Local Open Scope string_scope.

Lemma stoi_reads_back_witness :
  stoi (show_int (-42)) = Some ((-42)%Z, 3)
  /\ parse_value unit (fun _ => None) (show_int (-42)) = VInt (-42).
Proof.
  apply (stoi_reads_back_a_written_int unit (fun _ => None) (-42)%Z).
  vm_compute. split; discriminate.
Defined.

Lemma port_and_host_are_storable (k : string) (v : ConfigValue unit) :
  (<["port" := VInt 8080]> {["host" := VString "localhost"]} : gmap string (ConfigValue unit))
    !! k = Some v ->
  clean_key k /\ storable unit v.
Proof.
  intros H. apply lookup_insert_Some in H as [[<- <-]|[_ H]];
    [|apply lookup_singleton_Some in H as [<- <-]].
  - split; [repeat split; try done|vm_compute; split; discriminate].
  - split; [repeat split; try done|reflexivity].
Qed.

Lemma saved_store_reloads_witness :
  load_from_file unit (fun _ => None)
    (save_to_file unit (fun _ => "0")
       (<["port" := VInt 8080]> {["host" := VString "localhost"]}))
    {["port" := VInt 1; "mode" := VBool true]}
  = (reloaded unit (fun _ => None)
       <$> (<["port" := VInt 8080]> {["host" := VString "localhost"]}))
    ∪ {["port" := VInt 1; "mode" := VBool true]}.
Proof.
  destruct (saved_store_reloads unit (fun _ => "0") (fun _ => None)
              (<["port" := VInt 8080]> {["host" := VString "localhost"]})
              {["port" := VInt 1; "mode" := VBool true]}
              port_and_host_are_storable) as [H _].
  exact H.
Defined.

Lemma ints_and_plain_strings_witness :
  round_trip unit (fun _ => "0") (fun _ => None)
    (<["port" := VInt 8080]> {["host" := VString "localhost"]})
  = <["port" := VInt 8080]> {["host" := VString "localhost"]}.
Proof.
  apply (ints_and_plain_strings_survive_the_round_trip unit (fun _ => "0") (fun _ => None)).
  intros k v H. apply lookup_insert_Some in H as [[<- <-]|[_ H]];
    [|apply lookup_singleton_Some in H as [<- <-]].
  - split; [repeat split; try done|].
    left. exists 8080%Z. split; [reflexivity|vm_compute; split; discriminate].
  - split; [repeat split; try done|].
    right. exists "localhost". repeat split; vm_compute; reflexivity.
Defined.

Lemma later_line_wins_witness :
  load_from_file unit (fun _ => None) ("port=1" ++ String newline "port=2") ∅
  = load_from_file unit (fun _ => None) "port=2"
      (load_from_file unit (fun _ => None) "port=1" ∅).
Proof.
  destruct (load_reads_a_file_line_by_line unit (fun _ => "0") (fun _ => None)
              "port=1" "port=2" ∅) as [H _].
  exact H.
Defined.

End ConfigRuns.

(** ** Logger *)

Section LoggerFacts.

Import Logger.

Lemma run_cons a actions (s : logger) : run (a :: actions) s = run actions (act a s).
Proof. reflexivity. Qed.

(** X19. The log loses nothing, repeats nothing and keeps the order of the
    pushes. A [log] call is taken as its level test followed, later, by its
    push, and a turn of the background thread as its pop followed, later, by
    its write. Under every interleaving of calls and thread steps: the
    messages written so far, then the message the thread holds, then the
    queue, are exactly the messages pushed, in push order; and the messages
    pushed, with those tested and not pushed yet, are up to order exactly the
    messages of the [log] calls that passed the level in force when they
    were tested. A later change of level drops nothing. *)
Theorem log_keeps_call_order (ms : list move) (s s' : logger) (h h' : hands) :
  steps ms (s, h) = Some (s', h') ->
  exists lines msgs,
    written s' = written s ++ lines
    /\ written_as lines msgs
    /\ msgs ++ option_list (held h') ++ log_queue_ s'
       = option_list (held h) ++ log_queue_ s ++ pushes_of ms
    /\ pushes_of ms ++ pending h' ≡ₚ pending h ++ accepted (min_level_ s) (calls_of ms)
    /\ min_level_ s' = level_after (min_level_ s) (calls_of ms).
Proof.
  revert s h. induction ms as [|m ms IH]; intros s h Hrun.
  - inversion Hrun; subst. exists [], []. simpl. rewrite !app_nil_r.
    split; [done|]. split; [constructor|]. by repeat split.
  - simpl in Hrun. destruct m as [a|i msg| |now].
    + destruct a as [l msg fl ln tid|l|filename opens|now]; simpl in Hrun; [| | |done].
      * unfold calls_of. simpl. fold (calls_of ms).
        destruct (level_value l <? level_value (min_level_ s)) eqn:E;
          destruct (IH _ _ Hrun) as (lines & msgs & Hw & Has & Hq & Hp & Hl);
          exists lines, msgs; simpl in *; [done|].
        repeat split; try done. rewrite Hp, <- app_assoc. done.
      * destruct (IH _ _ Hrun) as (lines & msgs & Hw & Has & Hq & Hp & Hl).
        by exists lines, msgs.
      * destruct (IH _ _ Hrun) as (lines & msgs & Hw & Has & Hq & Hp & Hl).
        by exists lines, msgs.
    + case_bool_decide as Hi; [|done].
      destruct (IH _ _ Hrun) as (lines & msgs & Hw & Has & Hq & Hp & Hl).
      exists lines, msgs. unfold pushes_of, calls_of in *. simpl in *.
      repeat split; try done.
      * by rewrite Hq, <- app_assoc.
      * rewrite Hp. rewrite (delete_Permutation (pending h) i msg Hi) at 2. done.
    + destruct (held h) as [x|] eqn:Eh; [done|].
      destruct (log_queue_ s) as [|msg q] eqn:Eq; [done|].
      destruct (IH _ _ Hrun) as (lines & msgs & Hw & Has & Hq & Hp & Hl).
      exists lines, msgs. unfold pushes_of, calls_of in *. simpl in *. done.
    + destruct (held h) as [x|] eqn:Eh; [|done].
      destruct (IH _ _ Hrun) as (lines & msgs & Hw & Has & Hq & Hp & Hl).
      unfold pushes_of, calls_of in *. simpl in *. rewrite <- app_assoc in Hw.
      eexists (_ :: lines), (x :: msgs). split; [exact Hw|].
      split; [constructor; [by eexists|done]|].
      split; [by rewrite <- app_comm_cons, Hq|done].
Qed.

(** The coarser view, in which a [log] call and a turn of the background
    thread are each one step, is the fine one with nothing in between. *)
Lemma whole_calls_and_turns now l msg fl ln tid (s : logger) :
  (forall s', worker_turn now s = Wrote s'
              <-> steps [Pops; Writes now] (s, idle) = Some (s', idle))
  /\ ((level_value l <? level_value (min_level_ s))%nat = false ->
      steps [Calls (Log l msg fl ln tid); Pushes 0 (mkMessage l msg fl ln tid)] (s, idle)
      = Some (log l msg fl ln tid s, idle))
  /\ ((level_value l <? level_value (min_level_ s))%nat = true ->
      steps [Calls (Log l msg fl ln tid)] (s, idle) = Some (log l msg fl ln tid s, idle)).
Proof.
  split; [|split].
  - intros s'. unfold worker_turn. simpl. destruct (log_queue_ s) as [|m q].
    + destruct (stop_requested_ s); split; done.
    + simpl. split; intros [= <-]; done.
  - intros E. unfold log. simpl. rewrite E. simpl.
    rewrite bool_decide_eq_true_2 by done. done.
  - intros E. unfold log. simpl. by rewrite E.
Qed.

(** X20. Stopping drains the log. With stop requested while messages are
    queued, the background thread writes every queued message, in order, to
    the file when one is open and to the console otherwise, and only then
    leaves its loop. *)
Theorem stop_writes_the_queued_messages_first (nows : list string) (s : logger) :
  length nows = length (log_queue_ s) ->
  let s' := run (map Turn nows) (request_stop s) in
  log_queue_ s' = []
  /\ written s'
     = written s
       ++ zip_with (fun now msg =>
                      (if is_open s then ToFile (output_file_ s) else ToConsole,
                       format now msg)) nows (log_queue_ s)
  /\ (forall now, worker_turn now s' = Exits)
  /\ (forall now, log_queue_ s <> [] -> worker_turn now (request_stop s) <> Exits).
Proof.
  intros Hlen s'. subst s'.
  assert (H : forall nows (t : logger),
             length nows = length (log_queue_ t) ->
             log_queue_ (run (map Turn nows) t) = []
             /\ written (run (map Turn nows) t)
                = written t
                  ++ zip_with (fun now msg =>
                       (if is_open t then ToFile (output_file_ t) else ToConsole,
                        format now msg)) nows (log_queue_ t)
             /\ stop_requested_ (run (map Turn nows) t) = stop_requested_ t).
  { clear. induction nows as [|now nows IH]; intros t Hlen.
    - simpl in *. destruct (log_queue_ t); [|done]. by rewrite app_nil_r.
    - destruct (log_queue_ t) as [|m q] eqn:Eq; [done|].
      cbn [map]. rewrite run_cons. cbn [act]. unfold worker_turn. rewrite Eq.
      simpl in Hlen.
      destruct (IH (write_message now m
                      {| min_level_ := min_level_ t; log_queue_ := q;
                         stop_requested_ := stop_requested_ t;
                         output_file_ := output_file_ t; is_open := is_open t;
                         written := written t |})) as (H1 & H2 & H3).
      { simpl. lia. }
      split; [done|]. split; [|done]. rewrite H2. simpl.
      by rewrite <- app_assoc. }
  destruct (H nows (request_stop s) Hlen) as (H1 & H2 & H3).
  split; [done|]. split; [done|]. split.
  - intros now. unfold worker_turn. by rewrite H1, H3.
  - intros now Hne. unfold worker_turn. simpl. by destruct (log_queue_ s).
Qed.

End LoggerFacts.

Section LoggerRuns.

Import Logger.
Local Open Scope string_scope.

Lemma log_keeps_call_order_witness :
  match steps [Calls (Log INFO "up" "main.cpp" 12 "t0");
               Calls (Log WARN "slow" "feed.cpp" 3 "t1");
               Pushes 1 (mkMessage WARN "slow" "feed.cpp" 3 "t1");
               Pops;
               Calls (SetLevel ERROR);
               Pushes 0 (mkMessage INFO "up" "main.cpp" 12 "t0");
               Calls (Log WARN "late" "feed.cpp" 9 "t1");
               Calls (Log FATAL "down" "feed.cpp" 7 "t1")]
          (new_logger, idle) with
  | Some (s', h') =>
      exists lines msgs,
        written s' = lines
        /\ written_as lines msgs
        /\ (msgs ++ option_list (held h') ++ log_queue_ s')%list
           = [mkMessage WARN "slow" "feed.cpp" 3 "t1";
              mkMessage INFO "up" "main.cpp" 12 "t0"]
        /\ pending h' = [mkMessage FATAL "down" "feed.cpp" 7 "t1"]
  | None => False
  end.
Proof.
  pose proof (log_keeps_call_order
                [Calls (Log INFO "up" "main.cpp" 12 "t0");
                 Calls (Log WARN "slow" "feed.cpp" 3 "t1");
                 Pushes 1 (mkMessage WARN "slow" "feed.cpp" 3 "t1");
                 Pops;
                 Calls (SetLevel ERROR);
                 Pushes 0 (mkMessage INFO "up" "main.cpp" 12 "t0");
                 Calls (Log WARN "late" "feed.cpp" 9 "t1");
                 Calls (Log FATAL "down" "feed.cpp" 7 "t1")] new_logger) as H.
  destruct (steps _ _) as [[s' h']|] eqn:E.
  - destruct (H s' idle h' E) as (lines & msgs & H1 & H2 & H3 & _).
    exists lines, msgs. split; [exact H1|]. split; [exact H2|]. split; [exact H3|].
    vm_compute in E. by injection E as _ <-.
  - vm_compute in E. discriminate E.
Defined.

Lemma stop_writes_the_queue_witness :
  written (run [Turn "12:00:01"; Turn "12:00:02"]
             (request_stop
                (log ERROR "down" "feed.cpp" 7 "t1"
                   (log DEBUG "tick" "feed.cpp" 3 "t1"
                      (log INFO "up" "main.cpp" 12 "t0"
                         (set_output_file "hft.log" true new_logger))))))
  = [(ToFile "hft.log",
      format "12:00:01" (mkMessage INFO "up" "main.cpp" 12 "t0"));
     (ToFile "hft.log",
      format "12:00:02" (mkMessage ERROR "down" "feed.cpp" 7 "t1"))].
Proof.
  destruct (stop_writes_the_queued_messages_first ["12:00:01"; "12:00:02"]
              (log ERROR "down" "feed.cpp" 7 "t1"
                 (log DEBUG "tick" "feed.cpp" 3 "t1"
                    (log INFO "up" "main.cpp" 12 "t0"
                       (set_output_file "hft.log" true new_logger))))
              eq_refl) as (_ & H & _).
  exact H.
Defined.

End LoggerRuns.
